(** * Portfolio-Tracker: valuation, return reconstruction and risk metrics

    A shallow embedding of [src/calculations.py] and [src/risk_metrics.py],
    and of the code of [src/portfolio_manager.py], [src/data_fetcher.py],
    [src/visualizations.py] and [app.py] that computes on tables and Series.

    Numbers.  The Python code computes on IEEE doubles through numpy and
    pandas.  A double is modelled by [float]: an exact rational, one of the
    two infinities, or NaN.  The arithmetic follows IEEE on the special
    values (division by zero gives an infinity or NaN and does not raise,
    NaN propagates, comparisons with NaN are false); on finite values it is
    exact, so rounding, overflow and the sign of zero are outside the model.
    Finite results are kept in lowest terms, which makes Leibniz equality the
    equality of values on everything the operations return.

    Two comparisons of the code are decided by rounding: the guards
    [std == 0] of [sharpe_ratio] and [variance == 0] of [calculate_beta].
    For them the two functions are embedded a second time, on IEEE binary64
    numbers, in the module [Binary64].

    Library functions.  [np.sqrt] on positive finite numbers and
    [scipy.stats.norm.ppf] are not code of the repository; they are the two
    fields of the class [Numeric], over which the metrics are parametric. *)

From Stdlib Require Import QArith Qabs Qround Lqa Lia ZArith String List OrderedTypeEx.
From Stdlib Require PrimFloat.
From stdpp Require Import base option list strings gmap sorting.

Local Open Scope Q_scope.

(** ** Doubles *)

Inductive float : Type :=
| Fin (q : Q)
| PInf
| NInf
| NaN.

(** A finite value in lowest terms. *)
Definition fin (q : Q) : float := Fin (Qred q).

Definition fzero : float := Fin 0.
Definition fone : float := Fin 1.

Definition is_nan (x : float) : bool :=
  match x with NaN => true | _ => false end.

Definition notna (x : float) : bool := negb (is_nan x).

Definition is_finite (x : float) : bool :=
  match x with Fin _ => true | _ => false end.

(** Sign of a finite value: [Lt], [Eq] or [Gt] against zero. *)
Definition Qsign (q : Q) : comparison := q ?= 0.

Definition fneg (x : float) : float :=
  match x with
  | Fin q => fin (- q)
  | PInf => NInf
  | NInf => PInf
  | NaN => NaN
  end.

Definition fadd (x y : float) : float :=
  match x, y with
  | NaN, _ | _, NaN => NaN
  | Fin a, Fin b => fin (a + b)
  | PInf, NInf | NInf, PInf => NaN
  | PInf, _ | _, PInf => PInf
  | NInf, _ | _, NInf => NInf
  end.

Definition fsub (x y : float) : float := fadd x (fneg y).

(** An infinity of the sign [c]; zero times infinity is NaN. *)
Definition inf_of_sign (c : comparison) : float :=
  match c with Gt => PInf | Lt => NInf | Eq => NaN end.

Definition fmul (x y : float) : float :=
  match x, y with
  | NaN, _ | _, NaN => NaN
  | Fin a, Fin b => fin (a * b)
  | Fin a, PInf | PInf, Fin a => inf_of_sign (Qsign a)
  | Fin a, NInf | NInf, Fin a => inf_of_sign (CompOpp (Qsign a))
  | PInf, PInf | NInf, NInf => PInf
  | PInf, NInf | NInf, PInf => NInf
  end.

(** numpy division: a zero divisor gives an infinity (NaN for 0/0), never
    an exception. *)
Definition fdiv (x y : float) : float :=
  match x, y with
  | NaN, _ | _, NaN => NaN
  | Fin a, Fin b =>
      if Qeq_bool b 0 then inf_of_sign (Qsign a) else fin (a / b)
  | Fin _, (PInf | NInf) => fzero
  | PInf, Fin b => match Qsign b with Lt => NInf | _ => PInf end
  | NInf, Fin b => match Qsign b with Lt => PInf | _ => NInf end
  | (PInf | NInf), (PInf | NInf) => NaN
  end.

Definition fabs (x : float) : float :=
  match x with
  | Fin q => fin (Qabs q)
  | PInf | NInf => PInf
  | NaN => NaN
  end.

(** Comparisons as Python evaluates them: false whenever NaN takes part. *)
Definition feqb (x y : float) : bool :=
  match x, y with
  | Fin a, Fin b => Qeq_bool a b
  | PInf, PInf | NInf, NInf => true
  | _, _ => false
  end.

Definition fleb (x y : float) : bool :=
  match x, y with
  | NaN, _ | _, NaN => false
  | NInf, _ | _, PInf => true
  | Fin a, Fin b => Qle_bool a b
  | _, _ => false
  end.

(** [x <= y] as a proposition. *)
Definition fle (x y : float) : Prop := fleb x y = true.

(** The larger and the smaller of two values, neither of them NaN. *)
Definition fmax (x y : float) : float := if fleb x y then y else x.
Definition fmin (x y : float) : float := if fleb x y then x else y.

(** An integer as a double. *)
Definition of_Z (z : Z) : float := fin (inject_Z z).

(** ** Exceptions *)

Inductive exn : Type :=
| KeyError
| TypeError
| ValueError
| ZeroDivisionError.

Inductive result (A : Type) : Type :=
| Ok (a : A)
| Raise (e : exn).
Arguments Ok {A} a.
Arguments Raise {A} e.

(** Division of Python scalars ([a / b] on [float] or [int] objects): a zero
    divisor raises. *)
Definition py_truediv (x y : float) : result float :=
  match y with
  | Fin b => if Qeq_bool b 0 then Raise ZeroDivisionError else Ok (fdiv x y)
  | _ => Ok (fdiv x y)
  end.

(** ** numpy and scipy functions taken as given *)

Class Numeric : Type := {
  (** [np.sqrt] on a positive finite double. *)
  sqrt_pos : Q -> Q;
  (** [scipy.stats.norm.ppf]: the standard normal quantile function. *)
  norm_ppf : float -> float
}.

(** [np.sqrt]: exact at zero and at the special values, NaN below zero. *)
Definition np_sqrt `{Numeric} (x : float) : float :=
  match x with
  | Fin q =>
      match Qsign q with
      | Eq => fzero
      | Lt => NaN
      | Gt => fin (sqrt_pos q)
      end
  | PInf => PInf
  | NInf | NaN => NaN
  end.

(** ** pandas Series

    A Series is a column of doubles labelled by dates, one value per date
    (the Return Series of the data model).  Missing values are NaN. *)

Definition Series : Type := list (Z * float).

Definition s_index (s : Series) : list Z := s.*1.
Definition s_values (s : Series) : list float := s.*2.

(** A Series on the index of [s] holding [v]. *)
Definition with_index (s : Series) (v : list float) : Series := zip (s_index s) v.

(** [s + c], [s - c], ... with a scalar: element by element. *)
Definition s_map (f : float -> float) (s : Series) : Series :=
  map (fun dx => (dx.1, f dx.2)) s.

(** Plain sum of a list of doubles.  On exact values the order of the
    additions is immaterial; the fold runs from the right. *)
Definition fsum (v : list float) : float := foldr fadd fzero v.

Definition fillna0 (x : float) : float := if is_nan x then fzero else x.

(** [Series.sum()] with the default [skipna=True]: missing entries count as
    zero, the sum of nothing is 0. *)
Definition pd_sum (v : list float) : float := fsum (map fillna0 v).

Definition dropna (v : list float) : list float := filter (fun x => notna x = true) v.

Definition of_nat (n : nat) : float := of_Z (Z.of_nat n).

(** [Series.mean()]: NaN when nothing is present. *)
Definition pd_mean (v : list float) : float :=
  let xs := dropna v in
  match xs with
  | [] => NaN
  | _ => fdiv (fsum xs) (of_nat (length xs))
  end.

Definition fsq (x : float) : float := fmul x x.

(** [Series.var()] with the default [ddof=1]: NaN unless two entries or more
    are present.  This is the variance of the values themselves.  pandas
    computes the same expression in doubles, where the mean is rounded: on
    equal entries it can return a residue of the order of 1e-34 instead of
    0.  No statement below rests on a variance being exactly zero. *)
Definition pd_var (v : list float) : float :=
  let xs := dropna v in
  let n := length xs in
  if (n <=? 1)%nat then NaN
  else
    let avg := fdiv (fsum xs) (of_nat n) in
    fdiv (fsum (map (fun x => fsq (fsub avg x)) xs)) (of_nat (n - 1)).

(** [Series.std()]: the sample standard deviation. *)
Definition pd_std `{Numeric} (v : list float) : float := np_sqrt (pd_var v).

(** [Series.min()]: the least entry present, NaN when there is none. *)
Definition pd_min (v : list float) : float :=
  match dropna v with
  | [] => NaN
  | x :: xs => foldl fmin x xs
  end.

(** [a.cov(b)] on two columns of one frame: the pairs with both entries
    present, [ddof=1].  Exact like [pd_var]: the quotient of a covariance by
    a variance is the quotient of the exact values, which the doubles of
    pandas approach up to rounding when the variance is not a rounding
    residue. *)
Definition pd_cov (a b : list float) : float :=
  let ps := filter (fun p => notna p.1 && notna p.2 = true) (zip a b) in
  let n := length ps in
  if (n <=? 1)%nat then NaN
  else
    let avg_a := fdiv (fsum ps.*1) (of_nat n) in
    let avg_b := fdiv (fsum ps.*2) (of_nat n) in
    fdiv (fsum (map (fun p => fmul (fsub p.1 avg_a) (fsub p.2 avg_b)) ps))
         (of_nat (n - 1)).

(** [Series.cumprod()]: the running product of the entries present; a
    missing entry stays missing and does not enter the product. *)
Fixpoint cumprod_from (acc : float) (v : list float) : list float :=
  match v with
  | [] => []
  | x :: r =>
      if is_nan x then NaN :: cumprod_from acc r
      else let acc' := fmul acc x in acc' :: cumprod_from acc' r
  end.

Definition cumprod (v : list float) : list float := cumprod_from fone v.

(** [Series.expanding().max()]: at each position the largest entry present
    so far, NaN while there is none. *)
Fixpoint expanding_max_from (acc : option float) (v : list float) : list float :=
  match v with
  | [] => []
  | x :: r =>
      let acc' :=
        if is_nan x then acc
        else match acc with
             | None => Some x
             | Some m => Some (fmax m x)
             end in
      default NaN acc' :: expanding_max_from acc' r
  end.

Definition expanding_max (v : list float) : list float := expanding_max_from None v.

(** ** np.percentile *)

Fixpoint insert_sorted (x : float) (l : list float) : list float :=
  match l with
  | [] => [x]
  | y :: r => if fleb x y then x :: l else y :: insert_sorted x r
  end.

Definition sort_floats (l : list float) : list float := foldr insert_sorted [] l.

(** numpy's [_lerp]: [a + (b - a) * t], replaced by [b - (b - a) * (1 - t)]
    where [t >= 0.5]. *)
Definition lerp (a b t : float) : float :=
  let diff_b_a := fsub b a in
  if fleb (Fin (1 # 2)) t then fsub b (fmul diff_b_a (fsub fone t))
  else fadd a (fmul diff_b_a t).

(** [np.percentile(v, q)] with the default linear interpolation.  A rank
    outside [0, 100] raises [ValueError]; a missing entry makes the result
    NaN.  [v] is not empty where the callers reach this. *)
Definition np_percentile (v : list float) (q : float) : result float :=
  match fdiv q (of_Z 100) with
  | Fin p =>
      if Qle_bool 0 p && Qle_bool p 1 then
        if forallb notna v then
          let a := sort_floats v in
          let pos := inject_Z (Z.of_nat (length a - 1)) * p in
          let lo := Z.to_nat (Qfloor pos) in
          let hi := Nat.min (lo + 1) (length a - 1) in
          Ok (lerp (nth lo a NaN) (nth hi a NaN) (fin (pos - inject_Z (Qfloor pos))))
        else Ok NaN
      else Raise ValueError
  | _ => Raise ValueError
  end.

(** * risk_metrics.py *)

Section RiskMetrics.
Context `{Numeric}.

Definition annualized_volatility (returns : Series) (periods_per_year : float) : float :=
  fmul (pd_std (s_values returns)) (np_sqrt periods_per_year).

Definition sharpe_ratio (returns : Series) (risk_free_rate periods_per_year : float)
  : result float :=
  match py_truediv risk_free_rate periods_per_year with
  | Raise e => Raise e
  | Ok per_period =>
      let excess_returns := s_map (fun x => fsub x per_period) returns in
      if feqb (pd_std (s_values excess_returns)) fzero then Ok fzero
      else
        Ok (fmul (fdiv (pd_mean (s_values excess_returns))
                       (pd_std (s_values excess_returns)))
                 (np_sqrt periods_per_year))
  end.

Definition max_drawdown (returns : Series) : float :=
  let cumulative := cumprod (map (fadd fone) (s_values returns)) in
  let running_max := expanding_max cumulative in
  let drawdown :=
    with_index returns
      (zip_with (fun c m => fdiv (fsub c m) m) cumulative running_max) in
  pd_min (s_values drawdown).

Definition calculate_drawdown_series (returns : Series) : Series :=
  let cumulative := cumprod (map (fadd fone) (s_values returns)) in
  let running_max := expanding_max cumulative in
  let drawdown :=
    with_index returns
      (zip_with (fun c m => fdiv (fsub c m) m) cumulative running_max) in
  drawdown.

(** [pd.concat([a, b], axis=1)]: the outer join of the two Series on their
    dates, a missing side being NaN.  The rows follow the dates of [a], then
    the dates only [b] has; pandas sorts the union when the two indexes
    differ, which changes neither the number of rows nor, in exact
    arithmetic, the covariance and the variance taken over them.  This is
    the join of two Series whose dates are distinct, as in a price history:
    on a Series with a repeated date pandas pairs the rows by position or
    refuses the join, which [s_at] does not follow, and the statements
    about [calculate_beta] are made for distinct dates. *)
Definition s_at (s : Series) (d : Z) : float :=
  match list_find (fun dx => dx.1 = d) s with
  | Some (_, (_, x)) => x
  | None => NaN
  end.

Definition pd_concat2 (a b : Series) : list (Z * (float * float)) :=
  let index := s_index a ++ filter (fun d => d ∉ s_index a) (s_index b) in
  map (fun d => (d, (s_at a d, s_at b d))) index.

(** [DataFrame.dropna()] on a frame of two columns: the rows with both
    entries present. *)
Definition dropna2 (rows : list (Z * (float * float))) : list (Z * (float * float)) :=
  filter (fun r => notna r.2.1 && notna r.2.2 = true) rows.

Definition calculate_beta (portfolio_returns benchmark_returns : Series) : float :=
  let aligned := dropna2 (pd_concat2 portfolio_returns benchmark_returns) in
  if (length aligned <? 2)%nat then fone
  else
    let portfolio_col := aligned.*2.*1 in
    let benchmark_col := aligned.*2.*2 in
    let covariance := pd_cov portfolio_col benchmark_col in
    let benchmark_variance := pd_var benchmark_col in
    if feqb benchmark_variance fzero then fone
    else fdiv covariance benchmark_variance.

Definition value_at_risk_historical (returns : Series) (confidence_level : float)
  : result float :=
  if (length returns <? 2)%nat then Ok fzero
  else
    match np_percentile (s_values returns)
            (fmul (fsub fone confidence_level) (of_Z 100)) with
    | Raise e => Raise e
    | Ok var => Ok (fabs var)
    end.

Definition value_at_risk_parametric (returns : Series) (confidence_level : float)
  : float :=
  if (length returns <? 2)%nat then fzero
  else
    let mean := pd_mean (s_values returns) in
    let std := pd_std (s_values returns) in
    let z_score := norm_ppf (fsub fone confidence_level) in
    let var := fneg (fadd mean (fmul z_score std)) in
    fabs var.

Definition conditional_value_at_risk (returns : Series) (confidence_level : float)
  : result float :=
  if (length returns <? 2)%nat then Ok fzero
  else
    match np_percentile (s_values returns)
            (fmul (fsub fone confidence_level) (of_Z 100)) with
    | Raise e => Raise e
    | Ok var_threshold =>
        let tail_losses := filter (fun dx => fleb dx.2 var_threshold = true) returns in
        if (length tail_losses =? 0)%nat then Ok (fabs var_threshold)
        else
          let cvar := pd_mean (s_values tail_losses) in
          Ok (fabs cvar)
    end.

End RiskMetrics.

(** * risk_metrics.py in binary64

    [sharpe_ratio] and [calculate_beta] once more, on IEEE binary64 numbers
    (Rocq's primitive floats: every operation rounds to the nearest double,
    ties to even, as the hardware does for numpy and Python).  The
    reductions are written as numpy and pandas carry them out, since the
    roundings depend on it: [np_sum] adds in the order of numpy's
    [pairwise_sum], the variance is the sum of the squared deviations from
    the rounded mean ([pandas.core.nanops.nanvar]), and the covariance is
    that of [np.cov], which [Series.cov] calls on the entries present in
    both columns.  These are pandas' own reductions; the optional
    accelerator bottleneck, when installed, adds in another order.  Dates
    are taken to be distinct. *)
Module Binary64.
Import PrimFloat.
#[local] Open Scope float_scope.

Definition Series : Type := list (Z * float).

(** A count as a double (exact below 2^53). *)
Fixpoint of_nat (n : nat) : float :=
  match n with
  | O => 0
  | S k => of_nat k + 1
  end.

(** Eight partial sums, each taking every eighth entry. *)
Fixpoint add_blocks (r v : list float) (blocks : nat) : list float * list float :=
  match blocks with
  | O => (r, v)
  | S k => add_blocks (zip_with add r (take 8 v)) (drop 8 v) k
  end.

(** numpy's sum of a contiguous column of doubles: below eight entries they
    are added in order; up to 128 entries eight interleaved partial sums
    are formed, added pairwise, and the entries left over are added in
    order; a longer column is split in two.  The sum starts from 0; the
    sign of a zero sum is not followed. *)
Fixpoint pairwise_sum (fuel : nat) (a : list float) : float :=
  let n := length a in
  if (n <? 8)%nat then fold_left add a 0
  else if (n <=? 128)%nat then
    match add_blocks (take 8 a) (drop 8 a) (n / 8 - 1) with
    | ([r0; r1; r2; r3; r4; r5; r6; r7], rest) =>
        fold_left add rest (((r0 + r1) + (r2 + r3)) + ((r4 + r5) + (r6 + r7)))
    | _ => nan
    end
  else
    match fuel with
    | O => nan
    | S k =>
        let n2 := (n / 2 - (n / 2) mod 8)%nat in
        pairwise_sum k (take n2 a) + pairwise_sum k (drop n2 a)
    end.

Definition np_sum (a : list float) : float := pairwise_sum (length a) a.

Definition dropna (v : list float) : list float :=
  filter (fun x => is_nan x = false) v.

(** [Series.mean()]: the sum of the entries present over their number. *)
Definition pd_mean (v : list float) : float :=
  let xs := dropna v in
  match xs with
  | [] => nan
  | _ => np_sum xs / of_nat (length xs)
  end.

(** [Series.var()], [ddof=1]: [avg = sum / count], then the sum of
    [(avg - x) ** 2] over [count - 1]. *)
Definition pd_var (v : list float) : float :=
  let xs := dropna v in
  let n := length xs in
  if (n <=? 1)%nat then nan
  else
    let avg := np_sum xs / of_nat n in
    np_sum (map (fun x => (avg - x) * (avg - x)) xs) / of_nat (n - 1).

Definition pd_std (v : list float) : float := sqrt (pd_var v).

Definition sharpe_ratio (returns : Series) (risk_free_rate periods_per_year : float)
  : result float :=
  if periods_per_year =? 0 then Raise ZeroDivisionError
  else
    let per_period := risk_free_rate / periods_per_year in
    let excess_returns := map (fun dx => (dx.1, dx.2 - per_period)) returns in
    if pd_std excess_returns.*2 =? 0 then Ok 0
    else
      Ok (pd_mean excess_returns.*2 / pd_std excess_returns.*2
          * sqrt periods_per_year).

Definition s_at (s : Series) (d : Z) : float :=
  match list_find (fun dx => dx.1 = d) s with
  | Some (_, (_, x)) => x
  | None => nan
  end.

Fixpoint insert_date (d : Z) (l : list Z) : list Z :=
  match l with
  | [] => [d]
  | e :: r =>
      if (d <? e)%Z then d :: l
      else if (d =? e)%Z then l
      else e :: insert_date d r
  end.

(** [pd.concat([a, b], axis=1)]: the rows of [a] when both Series have the
    same dates, the sorted union of the dates when they differ. *)
Definition pd_concat2 (a b : Series) : list (Z * (float * float)) :=
  let index :=
    if decide (a.*1 = b.*1) then a.*1
    else foldr insert_date [] (a.*1 ++ b.*1) in
  map (fun d => (d, (s_at a d, s_at b d))) index.

Definition dropna2 (rows : list (Z * (float * float))) : list (Z * (float * float)) :=
  filter (fun r => is_nan r.2.1 = false /\ is_nan r.2.2 = false) rows.

(** [np.cov(...)[0, 1]] on two columns without missing entries: the
    deviations from the rounded means, their dot product, times
    [1 / (n - 1)].  The products are added in order here; the example
    below is one in which every product and every sum is exact, so that the
    order in which the BLAS routine behind [np.dot] adds them is
    immaterial. *)
Definition np_cov01 (x y : list float) : float :=
  let n := of_nat (length x) in
  let avg_x := np_sum x / n in
  let avg_y := np_sum y / n in
  let dev_x := map (fun v => v - avg_x) x in
  let dev_y := map (fun v => v - avg_y) y in
  fold_left add (zip_with mul dev_x dev_y) 0 * (1 / of_nat (length x - 1)).

Definition calculate_beta (portfolio_returns benchmark_returns : Series) : float :=
  let aligned := dropna2 (pd_concat2 portfolio_returns benchmark_returns) in
  if (length aligned <? 2)%nat then 1
  else
    let portfolio_col := aligned.*2.*1 in
    let benchmark_col := aligned.*2.*2 in
    let covariance := np_cov01 portfolio_col benchmark_col in
    let benchmark_variance := pd_var benchmark_col in
    if benchmark_variance =? 0 then 1
    else covariance / benchmark_variance.

(** The same return on each of the given dates. *)
Definition constant_series (x : float) (dates : list Z) : Series :=
  map (fun d => (d, x)) dates.

End Binary64.

(** * pandas DataFrames

    A frame is a row index and an ordered list of named columns.  A column
    has a dtype: text (object), 64-bit integers, doubles, or dates.  The
    holdings table is indexed 0, 1, ...; the price panel is indexed by
    trading dates and has one column of doubles per ticker. *)

Inductive column : Type :=
| ObjCol (l : list string)
| I64Col (l : list Z)
| F64Col (l : list float)
| DateCol (l : list Z).

Record DataFrame : Type := {
  df_index : list Z;
  df_columns : list (string * column)
}.

(** The object column without entries: every column of the table
    [pd.DataFrame(columns=[...])] creates. *)
Definition object_empty (c : column) : bool :=
  match c with
  | ObjCol [] => true
  | _ => false
  end.

Definition col_length (c : column) : nat :=
  match c with
  | ObjCol l => length l
  | I64Col l => length l
  | F64Col l => length l
  | DateCol l => length l
  end.

(** The doubles of a numeric column; text and dates do not take part in
    arithmetic.  An object column without entries has no values. *)
Definition col_floats (c : column) : result (list float) :=
  match c with
  | F64Col l => Ok l
  | I64Col l => Ok (map of_Z l)
  | ObjCol [] => Ok []
  | ObjCol (_ :: _) | DateCol _ => Raise TypeError
  end.

Definition col_strings (c : column) : result (list string) :=
  match c with
  | ObjCol l => Ok l
  | _ => Raise TypeError
  end.

Fixpoint assoc {A} (name : string) (l : list (string * A)) : option A :=
  match l with
  | [] => None
  | (k, v) :: r => if String.eqb k name then Some v else assoc name r
  end.

(** [df[name]]. *)
Definition df_getitem (df : DataFrame) (name : string) : result column :=
  match assoc name (df_columns df) with
  | Some c => Ok c
  | None => Raise KeyError
  end.

(** The columns after [df[name] = c]: an existing column is replaced in
    place, a new one goes last. *)
Fixpoint set_column (name : string) (c : column) (l : list (string * column))
  : list (string * column) :=
  match l with
  | [] => [(name, c)]
  | (k, v) :: r =>
      if String.eqb k name then (k, c) :: r else (k, v) :: set_column name c r
  end.

Definition df_setitem (df : DataFrame) (name : string) (c : column) : DataFrame :=
  {| df_index := df_index df; df_columns := set_column name c (df_columns df) |}.

(** [a * b], [a - b], [a / b] on two columns of one frame.  The result of
    numeric columns is a column of doubles; with an object column without
    entries on either side the result is again an object column without
    entries. *)
Definition col_binop (f : float -> float -> float) (a b : column) : result column :=
  match col_floats a, col_floats b with
  | Ok x, Ok y =>
      if object_empty a || object_empty b then
        if (col_length a =? 0)%nat && (col_length b =? 0)%nat then Ok (ObjCol [])
        else Raise TypeError
      else Ok (F64Col (zip_with f x y))
  | Raise e, _ | _, Raise e => Raise e
  end.

(** [c * k] with a scalar. *)
Definition col_scale (a : column) (k : float) : result column :=
  match col_floats a with
  | Ok x =>
      if object_empty a then Ok (ObjCol [])
      else Ok (F64Col (map (fun v => fmul v k) x))
  | Raise e => Raise e
  end.

(** [Series.map(d)] with a dict: a key the dict lacks gives NaN. *)
Definition col_map_dict (c : column) (d : gmap string float) : column :=
  match c with
  | ObjCol l => F64Col (map (fun k => default NaN (d !! k)) l)
  | I64Col l | DateCol l => F64Col (map (fun _ => NaN) l)
  | F64Col l => F64Col (map (fun _ => NaN) l)
  end.

(** A scalar a reduction returns: a numpy double, or a Python integer. *)
Inductive scalar : Type :=
| NpFloat (x : float)
| PyInt (z : Z).

Definition scalar_value (s : scalar) : float :=
  match s with
  | NpFloat x => x
  | PyInt z => of_Z z
  end.

(** [Series.sum()] of a column: a numpy double on a numeric column; on an
    object column without entries the Python integer 0. *)
Definition col_sum (c : column) : result scalar :=
  if object_empty c then Ok (PyInt 0)
  else
    match col_floats c with
    | Ok x => Ok (NpFloat (pd_sum x))
    | Raise e => Raise e
    end.

(** [a - b] and [a / b] on two scalars.  Two Python integers follow Python:
    the difference is an integer and a zero divisor raises.  As soon as one
    side is a numpy double the operation is numpy's, which does not raise. *)
Definition scalar_sub (a b : scalar) : scalar :=
  match a, b with
  | PyInt x, PyInt y => PyInt (x - y)
  | _, _ => NpFloat (fsub (scalar_value a) (scalar_value b))
  end.

Definition scalar_truediv (a b : scalar) : result float :=
  match a, b with
  | PyInt x, PyInt y => py_truediv (of_Z x) (of_Z y)
  | _, _ => Ok (fdiv (scalar_value a) (scalar_value b))
  end.

(** ** The object store

    A frame passed to a function is a reference to a mutable object.  The
    store is the list of the frames allocated so far; a reference is a
    position in it.  [copy] allocates, [df[name] = c] updates in place. *)

Abbreviation loc := nat (only parsing).
Abbreviation heap := (list DataFrame) (only parsing).

(** A computation over the store that may raise; the store survives an
    exception. *)
Definition M (A : Type) : Type := heap -> result A * heap.

Definition ret {A} (a : A) : M A := fun h => (Ok a, h).

Definition bind {A B} (m : M A) (k : A -> M B) : M B :=
  fun h =>
    match m h with
    | (Ok a, h') => k a h'
    | (Raise e, h') => (Raise e, h')
    end.

Definition lift {A} (r : result A) : M A := fun h => (r, h).

#[global] Instance M_ret : MRet M := @ret.
#[global] Instance M_bind : MBind M := fun A B k m => bind m k.

(** The frame a reference points to.  A reference outside the store has no
    counterpart in Python; it is reported as [KeyError] and does not occur on
    a store that holds the arguments. *)
Definition deref (l : loc) : M DataFrame :=
  fun h =>
    match h !! l with
    | Some df => (Ok df, h)
    | None => (Raise KeyError, h)
    end.

(** [df.copy()]: a new object with the same contents. *)
Definition copy (l : loc) : M loc :=
  fun h =>
    match h !! l with
    | Some df => (Ok (length h), h ++ [df])
    | None => (Raise KeyError, h)
    end.

(** [df[name]] through a reference. *)
Definition getitem (l : loc) (name : string) : M column :=
  df ← deref l; lift (df_getitem df name).

(** [df[name] = c] through a reference: the object is updated in place. *)
Definition setitem (l : loc) (name : string) (c : column) : M unit :=
  fun h =>
    match h !! l with
    | Some df => (Ok tt, <[l := df_setitem df name c]> h)
    | None => (Raise KeyError, h)
    end.

(** * calculations.py *)

Definition calculate_portfolio_values (portfolio_df : loc)
    (current_prices : gmap string float) : M loc :=
  result_df ← copy portfolio_df;
  ticker ← getitem result_df "Ticker";
  setitem result_df "Current_Price" (col_map_dict ticker current_prices) ;;
  quantity ← getitem result_df "Quantity";
  buy_price ← getitem result_df "Buy_Price";
  total_cost ← lift (col_binop fmul quantity buy_price);
  setitem result_df "Total_Cost" total_cost ;;
  quantity ← getitem result_df "Quantity";
  current_price ← getitem result_df "Current_Price";
  current_value ← lift (col_binop fmul quantity current_price);
  setitem result_df "Current_Value" current_value ;;
  current_value ← getitem result_df "Current_Value";
  total_cost ← getitem result_df "Total_Cost";
  gain_loss ← lift (col_binop fsub current_value total_cost);
  setitem result_df "Gain/Loss" gain_loss ;;
  gain_loss ← getitem result_df "Gain/Loss";
  total_cost ← getitem result_df "Total_Cost";
  ratio ← lift (col_binop fdiv gain_loss total_cost);
  return_pct ← lift (col_scale ratio (of_Z 100));
  setitem result_df "Return %" return_pct ;;
  mret result_df.

(** The three figures are returned as doubles; the kind of scalar matters
    to the division only. *)
Definition portfolio_summary (portfolio_df : loc) : M (float * float * float) :=
  total_cost ← getitem portfolio_df "Total_Cost";
  total_invested ← lift (col_sum total_cost);
  current_value ← getitem portfolio_df "Current_Value";
  total_value ← lift (col_sum current_value);
  ratio ← lift (scalar_truediv (scalar_sub total_value total_invested) total_invested);
  let total_return := fmul ratio (of_Z 100) in
  mret (scalar_value total_invested, scalar_value total_value, total_return).

(** ** Frames of doubles *)

(** The price panel after [pct_change()]: every column a list of doubles. *)
Record FFrame : Type := {
  ff_index : list Z;
  ff_columns : list (string * list float)
}.

Fixpoint columns_floats (l : list (string * column)) : result (list (string * list float)) :=
  match l with
  | [] => Ok []
  | (k, c) :: r =>
      match col_floats c, columns_floats r with
      | Ok x, Ok r' => Ok ((k, x) :: r')
      | Raise e, _ | _, Raise e => Raise e
      end
  end.

Definition df_floats (df : DataFrame) : result FFrame :=
  match columns_floats (df_columns df) with
  | Ok cols => Ok {| ff_index := df_index df; ff_columns := cols |}
  | Raise e => Raise e
  end.

(** [ffill()]: a missing entry takes the last entry present before it; the
    missing entries at the start stay missing. *)
Fixpoint ffill_from (last : float) (v : list float) : list float :=
  match v with
  | [] => []
  | x :: r =>
      if is_nan x then last :: ffill_from last r else x :: ffill_from x r
  end.

Definition ffill (v : list float) : list float := ffill_from NaN v.

(** One default of [pct_change()] depends on the release of pandas: up to
    pandas 2 the gaps are filled forward before the division
    ([fill_method='pad']), from pandas 3 they are not.  The repository pins
    no release, so the default is a parameter. *)
Class Pandas : Type := {
  pct_change_pads : bool
}.

(** [v[t] / v[t-1] - 1], the first entry missing. *)
Definition period_change (v : list float) : list float :=
  match v with
  | [] => []
  | _ :: r => NaN :: zip_with (fun prev cur => fsub (fdiv cur prev) fone) v r
  end.

(** [pct_change()] on one column. *)
Definition pct_change `{Pandas} (v : list float) : list float :=
  period_change (if pct_change_pads then ffill v else v).

Definition ff_pct_change `{Pandas} (f : FFrame) : FFrame :=
  {| ff_index := ff_index f;
     ff_columns := map (fun kc => (kc.1, pct_change kc.2)) (ff_columns f) |}.

(** Row by row: is every column present? *)
Definition row_mask (n : nat) (cols : list (list float)) : list bool :=
  foldr (fun c m => zip_with andb (map notna c) m) (replicate n true) cols.

(** The entries of [l] at the rows the mask keeps. *)
Definition keep {A} (mask : list bool) (l : list A) : list A :=
  (filter (fun p => p.1 = true) (zip mask l)).*2.

(** [dropna()]: the rows in which no column is missing. *)
Definition ff_dropna (f : FFrame) : FFrame :=
  let mask := row_mask (length (ff_index f)) (ff_columns f).*2 in
  {| ff_index := keep mask (ff_index f);
     ff_columns := map (fun kc => (kc.1, keep mask kc.2)) (ff_columns f) |}.

(** [s[names]] on a Series labelled by tickers, and [df[names]]: the entries
    (the columns) under the given labels, in the order given. *)
Fixpoint select {A} (l : list (string * A)) (names : list string)
  : result (list (string * A)) :=
  match names with
  | [] => Ok []
  | k :: r =>
      match assoc k l, select l r with
      | Some v, Ok r' => Ok ((k, v) :: r')
      | None, _ => Raise KeyError
      | _, Raise e => Raise e
      end
  end.

Definition ff_select (f : FFrame) (names : list string) : result FFrame :=
  match select (ff_columns f) names with
  | Ok cols => Ok {| ff_index := ff_index f; ff_columns := cols |}
  | Raise e => Raise e
  end.

(** [df * s]: each column times the entry of [s] under the column's label
    (NaN where [s] has no such label). *)
Definition ff_mul (f : FFrame) (s : list (string * float)) : FFrame :=
  {| ff_index := ff_index f;
     ff_columns :=
       map (fun kc => (kc.1, map (fun x => fmul x (default NaN (assoc kc.1 s))) kc.2))
           (ff_columns f) |}.

(** [df.sum(axis=1)]: the sum across the columns of each row, missing
    entries counting as zero. *)
Definition ff_sum_axis1 (f : FFrame) : Series :=
  zip (ff_index f)
      (foldr (fun c acc => zip_with fadd (map fillna0 c) acc)
             (replicate (length (ff_index f)) fzero)
             (ff_columns f).*2).

(** ** groupby *)

(** One row added to the sums per key, the keys kept in increasing order. *)
Fixpoint agg_add (k : string) (v : float) (acc : list (string * float))
  : list (string * float) :=
  match acc with
  | [] => [(k, v)]
  | (k', v') :: r =>
      match String.compare k k' with
      | Eq => (k', fadd v' v) :: r
      | Lt => (k, v) :: acc
      | Gt => (k', v') :: agg_add k v r
      end
  end.

(** [df.groupby(key)[val].sum()]: one entry per distinct key, in key order,
    holding the sum of the values present under that key. *)
Definition groupby_sum (keys : list string) (vals : list float) : list (string * float) :=
  foldr (fun kv acc => agg_add kv.1 (fillna0 kv.2) acc) [] (zip keys vals).

(** ** Sets of labels

    [list(set(a) & set(b))] lists the common labels in the iteration order
    of a Python set, which the language leaves open.  The order is a
    parameter: any enumeration of the set without repeats. *)
Class HashOrder : Type := {
  list_of_set : gset string -> list string;
  list_of_set_perm : forall s, list_of_set s ≡ₚ elements s
}.

Section Returns.
Context `{Pandas} `{HashOrder}.

(** Lines 53-73 of [calculate_portfolio_returns]: the weights and the daily
    returns, both restricted to the common tickers. *)
Definition weights_and_returns (prices_df portfolio_df : loc)
  : M (list (string * float) * FFrame) :=
  portfolio_copy ← copy portfolio_df;
  quantity ← getitem portfolio_copy "Quantity";
  buy_price ← getitem portfolio_copy "Buy_Price";
  initial_value ← lift (col_binop fmul quantity buy_price);
  setitem portfolio_copy "Initial_Value" initial_value ;;
  ticker ← getitem portfolio_copy "Ticker";
  keys ← lift (col_strings ticker);
  initial_value ← getitem portfolio_copy "Initial_Value";
  vals ← lift (col_floats initial_value);
  let aggregated := groupby_sum keys vals in
  let total_initial := pd_sum aggregated.*2 in
  let weights := map (fun kv => (kv.1, fdiv kv.2 total_initial)) aggregated in
  prices ← deref prices_df;
  prices ← lift (df_floats prices);
  let daily_returns := ff_dropna (ff_pct_change prices) in
  let common_tickers :=
    list_of_set (list_to_set weights.*1 ∩ list_to_set (ff_columns daily_returns).*1) in
  weights ← lift (select weights common_tickers);
  daily_returns ← lift (ff_select daily_returns common_tickers);
  mret (weights, daily_returns).

Definition calculate_portfolio_returns (prices_df portfolio_df : loc)
  : M (Series * Series) :=
  wr ← weights_and_returns prices_df portfolio_df;
  let weights := wr.1 in
  let daily_returns := wr.2 in
  let portfolio_returns := ff_sum_axis1 (ff_mul daily_returns weights) in
  let portfolio_cumulative :=
    with_index portfolio_returns
      (cumprod (map (fadd fone) (s_values portfolio_returns))) in
  mret (portfolio_returns, portfolio_cumulative).

End Returns.

(** * portfolio_manager.py *)

(** The entries of a column at the rows a mask keeps, the dtype unchanged. *)
Definition col_keep (mask : list bool) (c : column) : column :=
  match c with
  | ObjCol l => ObjCol (keep mask l)
  | I64Col l => I64Col (keep mask l)
  | F64Col l => F64Col (keep mask l)
  | DateCol l => DateCol (keep mask l)
  end.

(** [df.drop(labels)]: a new frame without the rows labelled by one of
    [labels]; a label the index does not have raises [KeyError]. *)
Definition df_drop (df : DataFrame) (labels : list Z) : result DataFrame :=
  if forallb (fun i => bool_decide (i ∈ df_index df)) labels then
    let mask := map (fun l => bool_decide (l ∉ labels)) (df_index df) in
    Ok {| df_index := keep mask (df_index df);
          df_columns := map (fun kc => (kc.1, col_keep mask kc.2)) (df_columns df) |}
  else Raise KeyError.

(** [df.reset_index(drop=True)]: the rows renumbered 0, 1, ... *)
Definition reset_index (df : DataFrame) : DataFrame :=
  {| df_index := map Z.of_nat (seq 0 (length (df_index df)));
     df_columns := df_columns df |}.

(** [delete_holdings] builds new frames and mutates nothing, so it is a
    function of the frame its argument refers to. *)
Definition delete_holdings (portfolio_df : DataFrame) (indices : list Z)
  : result DataFrame :=
  match df_drop portfolio_df indices with
  | Ok dropped => Ok (reset_index dropped)
  | Raise e => Raise e
  end.

(** * data_fetcher.py *)

(** Python's [min(iterable, key=...)] on a non-empty iterable: the first
    element whose key is least. *)
Fixpoint py_min_from {A} (key : A -> Z) (best : A) (l : list A) : A :=
  match l with
  | [] => best
  | x :: r => py_min_from key (if (key x <? key best)%Z then x else best) r
  end.

(** Rounding a rational to the nearest integer, a tie to the even one. *)
Definition round_half_even (q : Q) : Z :=
  let f := Qfloor q in
  match Qcompare (q - inject_Z f) (1 # 2) with
  | Lt => f
  | Gt => (f + 1)%Z
  | Eq => if Z.even f then f else (f + 1)%Z
  end.

(** [round(x, 2)] on a Python float: two decimals, NaN and the infinities
    unchanged. *)
Definition py_round2 (x : float) : float :=
  match x with
  | Fin q => fin (inject_Z (round_half_even (q * 100)) / 100)
  | _ => x
  end.

(** [get_price_on_date], from the frame [yf.download] returned for the
    window around [buy_date]: [data] is its Close column by trading day
    (days counted as integers, one row per day).  [None] is Python's [None]. *)
Definition get_price_on_date (data : Series) (buy_date : Z) : option float :=
  let target_date := buy_date in
  match s_index data with
  | [] => None
  | d :: r =>
      let closest_date := py_min_from (fun x => Z.abs (x - target_date)) d r in
      Some (py_round2 (s_at data closest_date))
  end.

(** * visualizations.py *)

(** [Series.idxmin()]: the label of the first least entry among those
    present.  An empty Series raises [ValueError].  On a Series whose entries
    are all missing the releases of pandas differ (NaN with a warning up to
    pandas 2, [ValueError] from pandas 3); it is given as [ValueError] here
    and no statement below rests on that case. *)
Definition idxmin (s : Series) : result Z :=
  match filter (fun dx => notna dx.2 = true) s with
  | [] => Raise ValueError
  | x :: r => Ok (foldl (fun best cur => if fleb best.2 cur.2 then best else cur) x r).1
  end.

(** The data [drawdown_chart] puts in its figure: the points of the area
    trace ([drawdown_series * 100] over the index) and the marker of the
    maximum drawdown. *)
Definition drawdown_chart (drawdown_series : Series) : result (Series * (Z * float)) :=
  let trace := s_map (fun x => fmul x (of_Z 100)) drawdown_series in
  match idxmin drawdown_series with
  | Raise e => Raise e
  | Ok max_dd_idx =>
      let max_dd_val := pd_min (s_values drawdown_series) in
      Ok (trace, (max_dd_idx, fmul max_dd_val (of_Z 100)))
  end.

(** * app.py *)

(** [x < y] as Python evaluates it: false whenever NaN takes part. *)
Definition fltb (x y : float) : bool :=
  match x, y with
  | NaN, _ | _, NaN => false
  | Fin a, Fin b => negb (Qle_bool b a)
  | NInf, (Fin _ | PInf) => true
  | Fin _, PInf => true
  | _, _ => false
  end.

(** [s.iloc[-1]]: the last entry; [None] stands for the [IndexError] an
    empty Series raises. *)
Definition iloc_last (s : Series) : option float := snd <$> last s.

(** Line 308: [(portfolio_cumulative.iloc[-1] - 1) * 100]. *)
Definition portfolio_total_return (portfolio_cumulative : Series) : option float :=
  (fun x => fmul (fsub x fone) (of_Z 100)) <$> iloc_last portfolio_cumulative.

(** Line 467: the mean of the drawdowns below zero, 0 when there is
    none. *)
Definition avg_drawdown (drawdown_series : Series) : float :=
  let below := filter (fun dx => fltb dx.2 fzero = true) drawdown_series in
  if (0 <? length below)%nat then pd_mean (s_values below) else fzero.

(** [df.iloc[positions]]: the rows at the given positions, in the order
    given, a negative position counting from the end; [None] stands for the
    [IndexError] a position outside the frame raises. *)
Definition iloc_pos (n : nat) (p : Z) : option nat :=
  if (0 <=? p)%Z then
    if (p <? Z.of_nat n)%Z then Some (Z.to_nat p) else None
  else
    if (- Z.of_nat n <=? p)%Z then Some (Z.to_nat (Z.of_nat n + p)) else None.

Definition col_take (ps : list nat) (c : column) : column :=
  match c with
  | ObjCol l => ObjCol (omap (fun i => l !! i) ps)
  | I64Col l => I64Col (omap (fun i => l !! i) ps)
  | F64Col l => F64Col (omap (fun i => l !! i) ps)
  | DateCol l => DateCol (omap (fun i => l !! i) ps)
  end.

Definition df_iloc (df : DataFrame) (positions : list Z) : option DataFrame :=
  ps ← mapM (iloc_pos (length (df_index df))) positions;
  Some {| df_index := omap (fun i => df_index df !! i) ps;
          df_columns := map (fun kc => (kc.1, col_take ps kc.2)) (df_columns df) |}.

(** Lines 261-264: the rows the user did not tick are kept.  [select] is
    the Select column of the edited table, one flag per row of the
    portfolio. *)
Definition delete_selected (portfolio : DataFrame) (select : list bool)
  : option DataFrame :=
  let indices_to_keep := keep (map negb select) (df_index portfolio) in
  reset_index <$> df_iloc portfolio indices_to_keep.

(** * The data model *)

(** A holding: one lot of a ticker. *)
Record Holding : Type := {
  Ticker : string;
  Quantity : Z;
  Buy_Price : float;
  Buy_Date : Z
}.

(** The holdings table of the data model: one row per holding, in order,
    indexed 0, 1, ..., with integer quantities and prices in doubles (the
    dtypes of [pd.read_sql] and of [pd.DataFrame([{...}])] on such rows). *)
Definition holdings_frame (hs : list Holding) : DataFrame :=
  {| df_index := map Z.of_nat (seq 0 (length hs));
     df_columns :=
       [("Ticker", ObjCol (map Ticker hs));
        ("Quantity", I64Col (map Quantity hs));
        ("Buy_Price", F64Col (map Buy_Price hs));
        ("Buy_Date", DateCol (map Buy_Date hs))] |}.

(** The table the application starts from, [pd.DataFrame(columns=["Ticker",
    "Quantity", "Buy_Price", "Buy_Date"])] ([state.py] line 6, [app.py] line
    69, [portfolio_manager.py] line 43): no rows, every column of object
    dtype.  Whether a table grown from it by [pd.concat] keeps the object
    dtype depends on the release of pandas; on an object column with
    entries the arithmetic is Python's, which differs from numpy's in
    raising on a zero divisor, and is not modelled: the tables with rows are
    the [holdings_frame]s. *)
Definition empty_portfolio : DataFrame :=
  {| df_index := [];
     df_columns :=
       [("Ticker", ObjCol []); ("Quantity", ObjCol []);
        ("Buy_Price", ObjCol []); ("Buy_Date", ObjCol [])] |}.

(** The purchase cost of one lot: [quantity * buy_price]. *)
Definition initial_value (h : Holding) : float :=
  fmul (of_Z (Quantity h)) (Buy_Price h).

(** The purchase cost of the lots of one ticker, and of the whole
    portfolio. *)
Definition cost_of (t : string) (hs : list Holding) : float :=
  pd_sum (map initial_value (filter (fun h => Ticker h = t) hs)).

Definition cost_total (hs : list Holding) : float :=
  pd_sum (map initial_value hs).

(** A valued holding of the data model: the holding and its derived
    fields, row by row. *)
Record ValuedHolding : Type := {
  lot : Holding;
  Current_Price : float;
  Total_Cost : float;
  Current_Value : float;
  Gain_Loss : float;
  Return_pct : float
}.

(** The data model's formulas for one row: [total_cost = quantity *
    buy_price], [current_value = quantity * current_price], [gain_loss =
    current_value - total_cost], [return_pct = gain_loss / total_cost * 100];
    the current price is missing when the map has no entry for the ticker. *)
Definition value_holding (current_prices : gmap string float) (h : Holding)
  : ValuedHolding :=
  let current_price := default NaN (current_prices !! Ticker h) in
  let total_cost := fmul (of_Z (Quantity h)) (Buy_Price h) in
  let current_value := fmul (of_Z (Quantity h)) current_price in
  let gain_loss := fsub current_value total_cost in
  {| lot := h;
     Current_Price := current_price;
     Total_Cost := total_cost;
     Current_Value := current_value;
     Gain_Loss := gain_loss;
     Return_pct := fmul (fdiv gain_loss total_cost) (of_Z 100) |}.

(** The valued-holdings table: the holdings table with the five derived
    columns after it. *)
Definition valued_frame (vs : list ValuedHolding) : DataFrame :=
  {| df_index := df_index (holdings_frame (map lot vs));
     df_columns :=
       df_columns (holdings_frame (map lot vs)) ++
       [("Current_Price", F64Col (map Current_Price vs));
        ("Total_Cost", F64Col (map Total_Cost vs));
        ("Current_Value", F64Col (map Current_Value vs));
        ("Gain/Loss", F64Col (map Gain_Loss vs));
        ("Return %", F64Col (map Return_pct vs))] |}.

(** The valued table of the empty portfolio: the derived columns are
    object columns without entries, but for the current prices, which
    [Series.map] returns as doubles. *)
Definition empty_valued : DataFrame :=
  {| df_index := [];
     df_columns :=
       df_columns empty_portfolio ++
       [("Current_Price", F64Col []);
        ("Total_Cost", ObjCol []);
        ("Current_Value", ObjCol []);
        ("Gain/Loss", ObjCol []);
        ("Return %", ObjCol [])] |}.

(** The price panel: trading dates, and a column of closing prices per
    ticker. *)
Definition panel_frame (dates : list Z) (prices : list (string * list float)) : DataFrame :=
  {| df_index := dates;
     df_columns := map (fun kc => (kc.1, F64Col kc.2)) prices |}.

(** The simple return series of one ticker: [price[t] / price[t-1] - 1] at
    every date but the first. *)
Definition simple_returns (dates : list Z) (prices : list float) : Series :=
  zip (tail dates)
      (zip_with (fun prev cur => fsub (fdiv cur prev) fone) prices (tail prices)).

(** A column of positive finite prices, one per date. *)
Definition positive_price (x : float) : Prop := exists q, x = Fin q /\ 0 < q.

Definition complete_column (dates : list Z) (prices : list float) : Prop :=
  length prices = length dates /\ Forall positive_price prices.

(** A portfolio of one ticker, possibly in several lots, with the positive
    quantities and buy prices of the data model. *)
Definition single_ticker (t : string) (hs : list Holding) : Prop :=
  hs <> [] /\
  Forall (fun h => Ticker h = t /\ (0 < Quantity h)%Z /\ positive_price (Buy_Price h)) hs.

(** Running a computation on a store. *)
Definition run {A} (m : M A) (h : heap) : result A * heap := m h.

(** * Predicates used in the statements *)

(** Values in lowest terms: what every operation returns. *)
Definition canon (x : float) : Prop :=
  match x with
  | Fin q => Qred q = q
  | _ => True
  end.

(** A value that is a number: neither NaN nor an infinity. *)
Definition finite (x : float) : Prop := exists q, x = Fin q.

(** A number that is at least zero. *)
Definition nonneg (x : float) : Prop := exists q, x = Fin q /\ 0 <= q.

(** A Series without missing or infinite values. *)
Definition finite_series (r : list (Z * Q)) : Series :=
  map (fun dq => (dq.1, Fin dq.2)) r.

(** One plus a return: the growth factor of one period. *)
Definition growth (q : Q) : float := fin (1 + q).

(** The Cumulative Series and the Drawdown Series as the data model words
    them, position by position, to be compared with the running
    accumulators of [calculate_drawdown_series]: [cumulative[t]] is the
    product of [1 + return[i]] for [i <= t], the running maximum at [t] is
    the largest cumulative value up to [t], and
    [drawdown[t] = (cumulative[t] - running_max[t]) / running_max[t]]. *)
Definition Qprod (l : list Q) : Q := foldr Qmult 1 l.

Definition cumulative_at (returns : list Q) (t : nat) : float :=
  fin (Qprod (map (fun q => 1 + q) (take (S t) returns))).

Definition prefix_max (l : list float) (t : nat) : float :=
  match take (S t) l with
  | [] => NaN
  | x :: r => foldl fmax x r
  end.

Definition running_max_at (returns : list Q) (t : nat) : float :=
  prefix_max (map (cumulative_at returns) (seq 0 (length returns))) t.

Definition drawdown_at (returns : list Q) (t : nat) : float :=
  fdiv (fsub (cumulative_at returns t) (running_max_at returns t))
       (running_max_at returns t).

(** The totals in the words of the specification: sums over the valid rows
    of the valued table, a row being valid when its cost and its value are
    both present.  To be compared with the two column sums of
    [portfolio_summary]. *)
Definition valid_row (v : ValuedHolding) : Prop :=
  notna (Total_Cost v) = true /\ notna (Current_Value v) = true.

Definition invested_over_valid_rows (vs : list ValuedHolding) : float :=
  fsum (map Total_Cost (filter valid_row vs)).

Definition value_over_valid_rows (vs : list ValuedHolding) : float :=
  fsum (map Current_Value (filter valid_row vs)).

(** [keeps h0 m Q]: run on any store that extends [h0], the computation [m]
    leaves the objects of [h0] as they are, whether it returns or raises,
    and a value it returns satisfies [Q]. *)
Definition keeps {A} (h0 : list DataFrame) (m : M A) (Q : A -> Prop) : Prop :=
  forall h, h0 `prefix_of` h ->
    h0 `prefix_of` (run m h).2 /\ forall a, (run m h).1 = Ok a -> Q a.

(** Two outcomes that agree up to the order of a returned list. *)
Definition same_up_to_order {A} (r1 r2 : result (list A)) : Prop :=
  match r1, r2 with
  | Ok a, Ok b => a ≡ₚ b
  | Raise e1, Raise e2 => e1 = e2
  | _, _ => False
  end.

(** Lines 69-76 of [calculate_portfolio_returns] as a function of the list
    of common tickers. *)
Definition weighted_sum (names : list string) (weights : list (string * float))
    (daily_returns : FFrame) : result Series :=
  match select weights names, ff_select daily_returns names with
  | Ok w, Ok d => Ok (ff_sum_axis1 (ff_mul d w))
  | Raise e, _ | _, Raise e => Raise e
  end.

(** The order of the keys of a groupby result. *)
Definition key_lt (x y : string * float) : Prop := String.compare x.1 y.1 = Lt.

Definition sorted_keys (l : list (string * float)) : Prop := StronglySorted key_lt l.

(** The local variable [aggregated] on a holdings table. *)
Definition aggregated_cost (hs : list Holding) : list (string * float) :=
  groupby_sum (map Ticker hs) (map initial_value hs).

(** The rows [dropna] keeps on a panel without gaps: all but the first. *)
Definition all_but_first (n : nat) : list bool :=
  match n with
  | O => []
  | S k => false :: replicate k true
  end.

(** A finite value between two bounds. *)
Definition in_range (lo hi : Q) (x : float) : Prop :=
  exists q, x = Fin q /\ lo <= q <= hi.

(** The sum of a list of rationals. *)
Definition Qsum (l : list Q) : Q := foldr Qplus 0 l.

(** The mean, the sample variance and the sample covariance of rationals,
    in the textbook form the statistics of pandas are compared with. *)
Definition Qmean (l : list Q) : Q := Qsum l / inject_Z (Z.of_nat (length l)).

Definition Qvar (l : list Q) : Q :=
  Qsum (map (fun x => (Qmean l - x) * (Qmean l - x)) l)
  / inject_Z (Z.of_nat (length l - 1)).

Definition Qcov (a b : list Q) : Q :=
  Qsum (zip_with (fun x y => (x - Qmean a) * (y - Qmean b)) a b)
  / inject_Z (Z.of_nat (length a - 1)).

(** The return of ticker [t] at the [i]-th date [dropna] keeps. *)
Definition kept_return `{Pandas} (dates : list Z) (prices : list (string * list float))
    (t : string) (i : nat) : float :=
  let mask := row_mask (length dates) (map pct_change prices.*2) in
  default NaN (keep mask (pct_change (default [] (assoc t prices))) !! i).

(** * Instances and data for the examples *)

(** A square root to sixteen decimals. *)
Definition sqrt_16 (q : Q) : Q :=
  Z.sqrt (Qnum q * 10 ^ 32 / Zpos (Qden q)) # (10 ^ 16).

(** The normal quantiles at the usual levels, as scipy prints them; the
    infinities at 0 and 1 and NaN outside [0, 1] as scipy returns them.  A
    level that is not tabulated is NaN here: the examples use the tabulated
    ones only. *)
Definition ppf_table (p : float) : float :=
  match p with
  | Fin q =>
      if Qeq_bool q 0 then NInf
      else if Qeq_bool q 1 then PInf
      else if Qeq_bool q (1 # 2) then fzero
      else if Qeq_bool q (1 # 20) then fin (-16448536269514722 # 10 ^ 16)
      else if Qeq_bool q (19 # 20) then fin (16448536269514722 # 10 ^ 16)
      else if Qeq_bool q (1 # 100) then fin (-23263478740408408 # 10 ^ 16)
      else if Qeq_bool q (99 # 100) then fin (23263478740408408 # 10 ^ 16)
      else NaN
  | _ => NaN
  end.

Definition table_numeric : Numeric :=
  {| sqrt_pos := sqrt_16; norm_ppf := ppf_table |}.

(** The two defaults of [pct_change()]. *)
Definition pandas_2 : Pandas := {| pct_change_pads := true |}.
Definition pandas_3 : Pandas := {| pct_change_pads := false |}.

(** The common tickers in the order stdpp lists a set. *)
Definition elements_order : HashOrder :=
  {| list_of_set := elements;
     list_of_set_perm := fun s => Permutation_refl (elements s) |}.

Definition lot_of (t : string) (q : Z) (p : Q) : Holding :=
  {| Ticker := t; Quantity := q; Buy_Price := Fin p; Buy_Date := 19358 |}.

(** Two lots of AAPL and one of MSFT, 1000 each at cost. *)
Definition three_lots : list Holding :=
  [lot_of "AAPL" 10 100; lot_of "MSFT" 5 200; lot_of "AAPL" 10 100].

(** One lot of AAPL and one of MSFT, 1000 each at cost. *)
Definition two_lots : list Holding :=
  [lot_of "AAPL" 10 100; lot_of "MSFT" 5 200].

(** One ticker in two lots. *)
Definition aapl_lots : list Holding :=
  [lot_of "AAPL" 10 100; lot_of "AAPL" 5 120].

(** A panel of three dates with AAPL only. *)
Definition aapl_panel : DataFrame :=
  panel_frame [1; 2; 3]%Z [("AAPL", [Fin 100; Fin 110; Fin 121])].

(** AAPL and MSFT, no gaps. *)
Definition full_panel : DataFrame :=
  panel_frame [1; 2; 3]%Z
    [("AAPL", [Fin 100; Fin 110; Fin 121]); ("MSFT", [Fin 40; Fin 50; Fin 60])].

(** AAPL, and GOOG with no price on the first date. *)
Definition gap_panel : DataFrame :=
  panel_frame [1; 2; 3]%Z
    [("AAPL", [Fin 100; Fin 110; Fin 121]); ("GOOG", [NaN; Fin 50; Fin 60])].

(** AAPL alone, with no price on the second date. *)
Definition hole_panel : DataFrame :=
  panel_frame [1; 2; 3; 4]%Z [("AAPL", [Fin 100; NaN; Fin 150; Fin 75])].

(** The returns of the specification's example. *)
Definition five_returns : list (Z * Q) :=
  [(1, 1 # 100); (2, -2 # 100); (3, 3 # 100); (4, -1 # 100); (5, 2 # 100)]%Z.

(** Three returns, none of them a loss. *)
Definition rising_returns : list (Z * Q) :=
  [(1%Z, 1 # 100); (2%Z, 0); (3%Z, 3 # 100)].

(** * Properties *)

(** ** Arithmetic of doubles *)

Lemma fin_eq a b : a == b -> fin a = fin b.
Proof. intros E. unfold fin. f_equal. by apply Qred_complete. Qed.

Lemma fin_zero q : q == 0 -> fin q = fzero.
Proof.
  intros E. unfold fin, fzero. f_equal.
  transitivity (Qred 0); [by apply Qred_complete | done].
Qed.

Lemma fin_one q : q == 1 -> fin q = fone.
Proof.
  intros E. unfold fin, fone. f_equal.
  transitivity (Qred 1); [by apply Qred_complete | done].
Qed.

(** Brings a goal [fin e1 = fin e2] down to [e1 == e2] with the inner
    reductions erased. *)
Ltac fin_tac :=
  unfold fzero, fone, of_nat, of_Z; simpl;
  try reflexivity;
  try (apply fin_eq; rewrite ?Qred_correct; try ring).

Lemma fadd_comm x y : fadd x y = fadd y x.
Proof. destruct x, y; fin_tac. Qed.

Lemma fadd_assoc x y z : fadd x (fadd y z) = fadd (fadd x y) z.
Proof. destruct x, y, z; fin_tac. Qed.

Lemma fadd_swap x y z : fadd x (fadd y z) = fadd y (fadd x z).
Proof. by rewrite !fadd_assoc, (fadd_comm x y). Qed.

Lemma canon_fadd x y : canon (fadd x y).
Proof. destruct x, y; simpl; try exact I; apply Qcanon.Qred_involutive. Qed.

Lemma canon_fsub x y : canon (fsub x y).
Proof. apply canon_fadd. Qed.

Ltac case_sign :=
  repeat match goal with
         | |- context [Qsign ?q] => destruct (Qsign q) eqn:?
         end.

Lemma canon_fmul x y : canon (fmul x y).
Proof.
  destruct x as [a| | |], y as [b| | |]; simpl;
    try exact I; try apply Qcanon.Qred_involutive;
    case_sign; simpl; exact I.
Qed.

Lemma fadd_zero_r x : canon x -> fadd x fzero = x.
Proof.
  destruct x as [a| | |]; simpl; try reflexivity.
  intros C. unfold fin. f_equal. rewrite <- C at 2. apply Qred_complete. ring.
Qed.

Lemma fadd_zero_l x : canon x -> fadd fzero x = x.
Proof. intros. rewrite fadd_comm. by apply fadd_zero_r. Qed.

Lemma fmul_one_r x : canon x -> fmul x fone = x.
Proof.
  destruct x as [a| | |]; simpl; try reflexivity.
  intros C. unfold fin. f_equal. rewrite <- C at 2. apply Qred_complete. ring.
Qed.

Lemma canon_fsum v : canon (fsum v).
Proof. destruct v; simpl; [reflexivity | apply canon_fadd]. Qed.

Lemma Qsign_Eq q : Qsign q = Eq <-> q == 0.
Proof. unfold Qsign. symmetry. apply Qeq_alt. Qed.

Lemma Qsign_Lt q : Qsign q = Lt <-> q < 0.
Proof. unfold Qsign. symmetry. apply Qlt_alt. Qed.

(** ** Counts, and columns of fewer than two entries *)

Lemma of_nat_Fin n : of_nat n = Fin (inject_Z (Z.of_nat n)).
Proof. unfold of_nat, of_Z, fin. by rewrite inject_Z_Qred. Qed.

Lemma inject_Z_nat_pos n : (0 < n)%nat -> 0 < inject_Z (Z.of_nat n).
Proof. intros. change 0 with (inject_Z 0). rewrite <- Zlt_Qlt. lia. Qed.

Lemma Qeq_bool_false a b : ~ a == b -> Qeq_bool a b = false.
Proof.
  intros NE. destruct (Qeq_bool a b) eqn:E; [|done].
  by apply Qeq_bool_eq in E.
Qed.

Lemma inject_Z_nat_nonzero n : (0 < n)%nat -> Qeq_bool (inject_Z (Z.of_nat n)) 0 = false.
Proof.
  intros Hn. apply Qeq_bool_false. intros E.
  pose proof (inject_Z_nat_pos n Hn) as P. rewrite E in P. by apply Qlt_irrefl in P.
Qed.

Lemma dropna_replicate n x : notna x = true -> dropna (replicate n x) = replicate n x.
Proof.
  intros Hx. unfold dropna. induction n as [|n IH]; [done|].
  simpl. rewrite filter_cons_True by done. by rewrite IH.
Qed.

(** With fewer than two entries the sample variance is undefined. *)
Lemma pd_var_short v : (length v < 2)%nat -> pd_var v = NaN.
Proof.
  intros Hv. unfold pd_var.
  assert (length (dropna v) <= length v)%nat as Hl by apply length_filter.
  destruct (Nat.leb_spec (length (dropna v)) 1); [done | lia].
Qed.

Section Sharpe.
Context `{Numeric}.

Lemma pd_std_short v : (length v < 2)%nat -> pd_std v = NaN.
Proof. intros Hv. unfold pd_std. by rewrite pd_var_short. Qed.

(** When the deviation [sharpe_ratio] computes is not 0 the result is the
    mean over the deviation of the excess returns, annualised. *)
Lemma sharpe_ratio_formula returns rf ppy per :
  py_truediv rf ppy = Ok per ->
  let excess := s_values (s_map (fun x => fsub x per) returns) in
  feqb (pd_std excess) fzero = false ->
  sharpe_ratio returns rf ppy
  = Ok (fmul (fdiv (pd_mean excess) (pd_std excess)) (np_sqrt ppy)).
Proof.
  intros Hd excess Hs. subst excess. unfold sharpe_ratio. by rewrite Hd, Hs.
Qed.

End Sharpe.

(** ** Drawdown *)

Lemma fle_fin_zero y : y <= 0 -> fle (fin y) fzero.
Proof.
  intros Hy. unfold fle, fin, fzero. simpl. apply Qle_bool_iff.
  by rewrite Qred_correct.
Qed.

Lemma Forall_zip_snd {A B} (P : B -> Prop) (l : list A) (k : list B) :
  Forall P k -> Forall P (zip l k).*2.
Proof.
  intros Hk. revert l. induction Hk as [|x k Hx Hk IH]; intros [|a l]; simpl;
    try constructor; auto.
Qed.

(** The drawdown of one step, the peak being positive and no lower than
    the cumulative value. *)
Lemma drawdown_value_nonpos c m :
  0 < m -> c <= m -> fle (fdiv (fsub (Fin c) (Fin m)) (Fin m)) fzero.
Proof.
  intros Hm Hc. unfold fsub. simpl.
  rewrite Qeq_bool_false by (intros E; rewrite E in Hm; by apply Qlt_irrefl in Hm).
  apply fle_fin_zero. apply Qle_shift_div_r; [done|].
  rewrite !Qred_correct. lra.
Qed.

Lemma drawdown_tail_nonpos (v : list Q) : forall acc m,
  0 < m ->
  Forall (fun x => fle x fzero)
    (zip_with (fun c m => fdiv (fsub c m) m)
       (cumprod_from (Fin acc) (map growth v))
       (expanding_max_from (Some (Fin m)) (cumprod_from (Fin acc) (map growth v)))).
Proof.
  induction v as [|q v IH]; intros acc m Hm; [constructor|].
  simpl. unfold fmax. simpl.
  destruct (Qle_bool m (Qred (acc * Qred (1 + q)))) eqn:E; simpl.
  - apply Qle_bool_iff in E.
    assert (0 < Qred (acc * Qred (1 + q))) as Hpos by lra.
    constructor; [apply drawdown_value_nonpos; [done | lra]|].
    by apply IH.
  - assert (Qred (acc * Qred (1 + q)) <= m) as Hle.
    { destruct (Qlt_le_dec m (Qred (acc * Qred (1 + q)))) as [L|L]; [|done].
      apply Qlt_le_weak, Qle_bool_iff in L. congruence. }
    constructor; [by apply drawdown_value_nonpos|].
    by apply IH.
Qed.

Lemma values_of_finite (r : list (Z * Q)) :
  map (fadd fone) (s_values (map (fun dq => (dq.1, Fin dq.2)) r)) = map growth r.*2.
Proof.
  unfold s_values. rewrite <- !list_fmap_compose. by apply list_fmap_ext.
Qed.

Lemma cumprod_from_spec (qs : list Q) : forall a,
  cumprod_from (Fin a) (map growth qs)
  = map (fun t => fin (a * Qprod (map (fun q => 1 + q) (take (S t) qs))))
        (seq 0 (length qs)).
Proof.
  induction qs as [|q qs IH]; intros a; [done|].
  cbn [map cumprod_from length seq].
  change (is_nan (growth q)) with false. cbn match.
  change (fmul (Fin a) (growth q)) with (Fin (Qred (a * Qred (1 + q)))).
  f_equal.
  - apply fin_eq. rewrite Qred_correct.
    rewrite firstn_cons, take_0. cbn [map Qprod foldr]. ring.
  - rewrite IH. rewrite <- seq_shift, map_map.
    apply map_ext. intros t. rewrite firstn_cons.
    cbn [map Qprod foldr].
    apply fin_eq. rewrite !Qred_correct. unfold Qprod. ring.
Qed.

Lemma cumprod_spec (qs : list Q) :
  cumprod (map growth qs) = map (cumulative_at qs) (seq 0 (length qs)).
Proof.
  unfold cumprod, fone. rewrite cumprod_from_spec.
  apply map_ext. intros t. unfold cumulative_at. apply fin_eq. ring.
Qed.

Lemma expanding_max_from_spec (l : list float) : forall m,
  Forall (fun x => notna x = true) l ->
  expanding_max_from (Some m) l
  = map (fun t => foldl fmax m (take (S t) l)) (seq 0 (length l)).
Proof.
  induction l as [|x l IH]; intros m Hl; [done|].
  apply Forall_cons in Hl as [Hx Hl].
  cbn [expanding_max_from length seq map take foldl].
  assert (is_nan x = false) as -> by by destruct x.
  cbn [default]. f_equal. rewrite IH by done.
  by rewrite <- seq_shift, map_map.
Qed.

Lemma expanding_max_spec (l : list float) :
  Forall (fun x => notna x = true) l ->
  expanding_max l = map (prefix_max l) (seq 0 (length l)).
Proof.
  intros Hl. unfold expanding_max. destruct l as [|x l]; [done|].
  apply Forall_cons in Hl as [Hx Hl].
  cbn [expanding_max_from length seq map].
  assert (is_nan x = false) as -> by by destruct x.
  cbn [default]. f_equal. rewrite expanding_max_from_spec by done.
  by rewrite <- seq_shift, map_map.
Qed.

Lemma zip_with_same_seq {A B C} (f : A -> B -> C) (g : nat -> A) (k : nat -> B) l :
  zip_with f (map g l) (map k l) = map (fun t => f (g t) (k t)) l.
Proof. induction l as [|x l IH]; [done|]. cbn. by rewrite IH. Qed.

(** The code's running accumulators compute the series of the data model. *)
Lemma drawdown_series_spec (r : list (Z * Q)) :
  calculate_drawdown_series (finite_series r)
  = zip r.*1 (map (drawdown_at r.*2) (seq 0 (length r))).
Proof.
  unfold calculate_drawdown_series, with_index.
  rewrite values_of_finite, cumprod_spec.
  rewrite expanding_max_spec.
  - rewrite !length_map, length_seq, zip_with_same_seq.
    assert (s_index (finite_series r) = r.*1) as ->.
    { unfold s_index, finite_series. rewrite <- list_fmap_compose.
      by apply list_fmap_ext. }
    f_equal. apply map_ext. intros t.
    unfold drawdown_at, running_max_at. by rewrite length_fmap.
  - apply Forall_fmap, Forall_true. intros t. done.
Qed.

Lemma drawdown_values_nonpos (r : list (Z * Q)) :
  (forall d x, head r = Some (d, x) -> -1 < x) ->
  Forall (fun x => fle x fzero)
    (s_values (calculate_drawdown_series (map (fun dq => (dq.1, Fin dq.2)) r))).
Proof.
  intros Hhead. unfold calculate_drawdown_series, with_index, s_values at 1.
  apply Forall_zip_snd. rewrite values_of_finite.
  destruct r as [|[d x] r]; [constructor|].
  specialize (Hhead d x eq_refl).
  unfold cumprod, expanding_max. simpl.
  assert (0 < Qred (1 * Qred (1 + x))) as Hpos.
  { rewrite !Qred_correct. lra. }
  constructor; [apply drawdown_value_nonpos; [done | lra]|].
  by apply drawdown_tail_nonpos.
Qed.

(** ** The value at a date *)

Lemma s_at_present (s : Series) d : d ∈ s_index s -> (d, s_at s d) ∈ s.
Proof.
  intros Hd. unfold s_at.
  destruct (list_find _ s) as [[i [d' x]]|] eqn:E.
  - apply list_find_Some in E as (Hi & Hd' & _). simpl in Hd'. subst d'.
    by eapply list_elem_of_lookup_2.
  - apply list_find_None in E. unfold s_index in Hd.
    apply list_elem_of_fmap in Hd as ([d' x] & -> & Hin).
    rewrite Forall_forall in E. by destruct (E _ Hin).
Qed.

(** ** Finite values *)

Lemma finite_notna x : finite x -> notna x = true.
Proof. by intros [q ->]. Qed.

Lemma finite_fin q : finite (fin q).
Proof. by eexists. Qed.

Lemma finite_fadd x y : finite x -> finite y -> finite (fadd x y).
Proof. intros [a ->] [b ->]. by eexists. Qed.

Lemma finite_fneg x : finite x -> finite (fneg x).
Proof. intros [a ->]. by eexists. Qed.

Lemma finite_fsub x y : finite x -> finite y -> finite (fsub x y).
Proof. intros. by apply finite_fadd, finite_fneg. Qed.

Lemma finite_fmul x y : finite x -> finite y -> finite (fmul x y).
Proof. intros [a ->] [b ->]. by eexists. Qed.

Lemma finite_fdiv_nat x n : finite x -> (0 < n)%nat -> finite (fdiv x (of_nat n)).
Proof.
  intros [a ->] Hn. rewrite of_nat_Fin. simpl.
  rewrite inject_Z_nat_nonzero by done. by eexists.
Qed.

Lemma finite_fsum v : Forall finite v -> finite (fsum v).
Proof.
  induction 1 as [|x v Hx Hv IH]; [by eexists|].
  by apply finite_fadd.
Qed.

Lemma Forall_finite_Fin (l : list Q) : Forall finite (map Fin l).
Proof. apply Forall_fmap, Forall_true. intros q. by eexists. Qed.

Lemma dropna_finite v : Forall finite v -> dropna v = v.
Proof.
  intros Hv. unfold dropna. induction Hv as [|x v Hx Hv IH]; [done|].
  rewrite filter_cons_True by by apply finite_notna. by rewrite IH.
Qed.

Lemma forallb_notna_finite v : Forall finite v -> forallb notna v = true.
Proof.
  induction 1 as [|x v Hx Hv IH]; [done|].
  simpl. by rewrite finite_notna, IH.
Qed.

Lemma pd_mean_finite v : Forall finite v -> v <> [] -> finite (pd_mean v).
Proof.
  intros Hv Hne. unfold pd_mean. rewrite dropna_finite by done.
  destruct v as [|x v]; [done|].
  apply finite_fdiv_nat; [by apply finite_fsum | simpl; lia].
Qed.

(** The absolute value of anything but NaN is at least zero. *)
Lemma fabs_nonneg x : notna x = true -> fle fzero (fabs x).
Proof.
  destruct x as [q| | |]; try done. intros _.
  unfold fle, fzero. simpl. apply Qle_bool_iff.
  rewrite Qred_correct. apply Qabs_nonneg.
Qed.

(** *** Sums of squares *)

Lemma nonneg_fsq x : finite x -> nonneg (fsq x).
Proof.
  intros [a ->]. eexists. split; [done|].
  rewrite Qred_correct. nra.
Qed.

Lemma nonneg_fsum v : Forall nonneg v -> nonneg (fsum v).
Proof.
  induction 1 as [|x v (a & -> & Ha) Hv (s & IH & Hs)].
  - exists 0. split; [done | lra].
  - simpl. change (foldr fadd fzero v) with (fsum v). rewrite IH.
    eexists. split; [done|]. simpl. rewrite Qred_correct. lra.
Qed.

Lemma pd_var_nonneg v : Forall finite v -> (2 <= length v)%nat -> nonneg (pd_var v).
Proof.
  intros Hv Hl. unfold pd_var. rewrite dropna_finite by done.
  destruct (Nat.leb_spec (length v) 1) as [?|_]; [lia|].
  set (avg := fdiv (fsum v) (of_nat (length v))).
  assert (finite avg) as Havg by (apply finite_fdiv_nat; [by apply finite_fsum | lia]).
  destruct (nonneg_fsum (map (fun x => fsq (fsub avg x)) v)) as (s & -> & Hs).
  { apply Forall_fmap. eapply Forall_impl; [exact Hv|].
    intros x Hx. simpl. by apply nonneg_fsq, finite_fsub. }
  rewrite of_nat_Fin. simpl. rewrite inject_Z_nat_nonzero by lia.
  eexists. split; [done|]. rewrite Qred_correct.
  apply Qle_shift_div_l; [apply inject_Z_nat_pos; lia | rewrite Qmult_0_l; exact Hs].
Qed.

Lemma np_sqrt_finite `{Numeric} x : nonneg x -> finite (np_sqrt x).
Proof.
  intros (q & -> & Hq). simpl. destruct (Qsign q) eqn:E.
  - by eexists.
  - pose proof (proj1 (Qsign_Lt q) E). lra.
  - by eexists.
Qed.

(** *** Sorting and interpolation *)

Lemma insert_sorted_length x l : length (insert_sorted x l) = S (length l).
Proof. induction l as [|y l IH]; simpl; [done|]. destruct (fleb x y); simpl; lia. Qed.

Lemma sort_floats_length l : length (sort_floats l) = length l.
Proof.
  induction l as [|x l IH]; simpl; [done|].
  change (foldr insert_sorted [] l) with (sort_floats l).
  by rewrite insert_sorted_length, IH.
Qed.

Lemma insert_sorted_finite x l :
  finite x -> Forall finite l -> Forall finite (insert_sorted x l).
Proof.
  intros Hx Hl. induction Hl as [|y l Hy Hl IH]; simpl; [by repeat constructor|].
  destruct (fleb x y); by repeat constructor.
Qed.

Lemma sort_floats_finite l : Forall finite l -> Forall finite (sort_floats l).
Proof.
  induction 1 as [|x l Hx Hl IH]; simpl; [constructor|].
  by apply insert_sorted_finite.
Qed.

Lemma nth_finite (l : list float) i : Forall finite l -> (i < length l)%nat -> finite (nth i l NaN).
Proof.
  intros Hl Hi. rewrite nth_lookup.
  destruct (l !! i) as [x|] eqn:E.
  - simpl. rewrite Forall_lookup in Hl. by eapply Hl.
  - apply lookup_ge_None in E. lia.
Qed.

Lemma lerp_finite a b t : finite a -> finite b -> finite t -> finite (lerp a b t).
Proof.
  intros. unfold lerp. cbn zeta. destruct (fleb (Fin (1 # 2)) t).
  - apply finite_fsub; [done|].
    apply finite_fmul; [by apply finite_fsub|].
    apply finite_fsub; [by eexists | done].
  - apply finite_fadd; [done|].
    apply finite_fmul; [by apply finite_fsub | done].
Qed.

(** On a finite, non-empty column and a rank between 0 and 100 the
    percentile is a finite value. *)
Lemma np_percentile_finite (v : list float) (q p : Q) :
  Forall finite v -> v <> [] ->
  fdiv (Fin q) (of_Z 100) = Fin p -> 0 <= p <= 1 ->
  exists t, np_percentile v (Fin q) = Ok (Fin t).
Proof.
  intros Hv Hne Hq [Hp0 Hp1]. unfold np_percentile. rewrite Hq.
  assert (Qle_bool 0 p && Qle_bool p 1 = true) as ->.
  { apply andb_true_intro. split; by apply Qle_bool_iff. }
  rewrite forallb_notna_finite by done.
  rewrite sort_floats_length.
  set (n := length v). assert (1 <= n)%nat as Hn.
  { subst n. destruct v; [done | simpl; lia]. }
  assert (0 <= inject_Z (Z.of_nat (n - 1))) as HN.
  { change 0 with (inject_Z 0). rewrite <- Zle_Qle. lia. }
  set (pos := inject_Z (Z.of_nat (n - 1)) * p).
  assert (0 <= pos) as Hpos0 by (subst pos; nra).
  assert (pos <= inject_Z (Z.of_nat (n - 1))) as Hpos1 by (subst pos; nra).
  assert (0 <= Qfloor pos <= Z.of_nat (n - 1))%Z as [Hf0 Hf1].
  { split.
    - change 0%Z with (Qfloor 0). by apply Qfloor_resp_le.
    - rewrite <- (Qfloor_Z (Z.of_nat (n - 1))). by apply Qfloor_resp_le. }
  destruct (lerp_finite
              (nth (Z.to_nat (Qfloor pos)) (sort_floats v) NaN)
              (nth (Nat.min (Z.to_nat (Qfloor pos) + 1) (n - 1)) (sort_floats v) NaN)
              (fin (pos - inject_Z (Qfloor pos)))) as [t Ht].
  - apply nth_finite; [by apply sort_floats_finite|].
    rewrite sort_floats_length. fold n. lia.
  - apply nth_finite; [by apply sort_floats_finite|].
    rewrite sort_floats_length. fold n. lia.
  - apply finite_fin.
  - exists t. by rewrite Ht.
Qed.

(** ** Value at risk *)

Lemma finite_series_values r : s_values (finite_series r) = map Fin r.*2.
Proof. unfold s_values, finite_series. by rewrite <- !list_fmap_compose. Qed.

Lemma finite_series_length r : length (finite_series r) = length r.
Proof. apply length_map. Qed.

(** The rank handed to [np.percentile] for the confidence level [cl]. *)
Lemma percentile_rank cl :
  exists q p, fmul (fsub fone (Fin cl)) (of_Z 100) = Fin q /\
              fdiv (Fin q) (of_Z 100) = Fin p /\ p == 1 - cl.
Proof.
  eexists. eexists. split; [reflexivity|]. split; [reflexivity|].
  rewrite !Qred_correct. field.
Qed.

Lemma var_threshold_finite r cl :
  (2 <= length r)%nat -> 0 <= cl <= 1 ->
  exists t, np_percentile (s_values (finite_series r))
              (fmul (fsub fone (Fin cl)) (of_Z 100)) = Ok (Fin t).
Proof.
  intros Hl Hcl. destruct (percentile_rank cl) as (q & p & -> & Hp & Ep).
  rewrite finite_series_values.
  apply (np_percentile_finite _ q p); [apply Forall_finite_Fin | | done | lra].
  destruct r; [simpl in Hl; lia | done].
Qed.

Section VaR.
Context `{Numeric}.

Lemma value_at_risk_short returns cl :
  (length returns < 2)%nat ->
  value_at_risk_historical returns cl = Ok fzero /\
  value_at_risk_parametric returns cl = fzero /\
  conditional_value_at_risk returns cl = Ok fzero.
Proof.
  intros Hl.
  unfold value_at_risk_historical, value_at_risk_parametric, conditional_value_at_risk.
  destruct (Nat.ltb_spec (length returns) 2); [done | lia].
Qed.

Lemma value_at_risk_historical_nonneg r cl :
  (2 <= length r)%nat -> 0 <= cl <= 1 ->
  exists v, value_at_risk_historical (finite_series r) (Fin cl) = Ok v /\ fle fzero v.
Proof.
  intros Hl Hcl. unfold value_at_risk_historical.
  rewrite finite_series_length.
  destruct (Nat.ltb_spec (length r) 2); [lia|].
  destruct (var_threshold_finite r cl Hl Hcl) as [t ->].
  eexists. split; [done|]. by apply fabs_nonneg.
Qed.

Lemma conditional_value_at_risk_nonneg r cl :
  (2 <= length r)%nat -> 0 <= cl <= 1 ->
  exists v, conditional_value_at_risk (finite_series r) (Fin cl) = Ok v /\ fle fzero v.
Proof.
  intros Hl Hcl. unfold conditional_value_at_risk.
  rewrite finite_series_length.
  destruct (Nat.ltb_spec (length r) 2); [lia|].
  destruct (var_threshold_finite r cl Hl Hcl) as [t ->].
  set (tail := filter _ (finite_series r)).
  destruct (Nat.eqb_spec (length tail) 0) as [E|NE].
  - eexists. split; [done|]. by apply fabs_nonneg.
  - eexists. split; [done|]. apply fabs_nonneg, finite_notna, pd_mean_finite.
    + unfold s_values. apply Forall_fmap.
      apply Forall_forall. intros [d x] Hin. simpl.
      subst tail. apply list_elem_of_filter in Hin as [_ Hin].
      unfold finite_series in Hin.
      apply list_elem_of_fmap in Hin as ([d' q] & [= -> ->] & _). by eexists.
    + unfold s_values. destruct tail; [done | done].
Qed.

Lemma value_at_risk_parametric_nonneg r cl :
  (2 <= length r)%nat ->
  finite (norm_ppf (fsub fone (Fin cl))) ->
  fle fzero (value_at_risk_parametric (finite_series r) (Fin cl)).
Proof.
  intros Hl Hz. unfold value_at_risk_parametric.
  rewrite finite_series_length.
  destruct (Nat.ltb_spec (length r) 2); [lia|].
  rewrite finite_series_values.
  assert (Forall finite (map Fin r.*2)) as Hf by apply Forall_finite_Fin.
  assert (length (map Fin r.*2) = length r) as El by by rewrite !length_map.
  apply fabs_nonneg, finite_notna, finite_fneg, finite_fadd.
  - apply pd_mean_finite; [done|]. destruct r; [simpl in Hl; lia | done].
  - apply finite_fmul; [done|]. unfold pd_std.
    apply np_sqrt_finite, pd_var_nonneg; [done | lia].
Qed.

End VaR.

(** ** Running on the store *)

Lemma run_bind {A B} (m : M A) (k : A -> M B) h :
  run (x ← m; k x) h
  = match run m h with
    | (Ok a, h') => run (k a) h'
    | (Raise e, h') => (Raise e, h')
    end.
Proof. reflexivity. Qed.

Lemma run_ret {A} (a : A) h : run (mret a) h = (Ok a, h).
Proof. reflexivity. Qed.

Lemma run_lift {A} (r : result A) h : run (lift r) h = (r, h).
Proof. reflexivity. Qed.

Lemma run_copy p h df :
  h !! p = Some df -> run (copy p) h = (Ok (length h), h ++ [df]).
Proof. intros E. unfold run, copy. by rewrite E. Qed.

(** Reads and writes of the newest object. *)
Lemma run_getitem_last h cur name :
  run (getitem (length h) name) (h ++ [cur]) = (df_getitem cur name, h ++ [cur]).
Proof.
  unfold getitem, run, mbind, M_bind, bind, deref, lift.
  rewrite lookup_app_r by lia. by rewrite Nat.sub_diag.
Qed.

Lemma run_setitem_last h cur name c :
  run (setitem (length h) name c) (h ++ [cur])
  = (Ok tt, h ++ [df_setitem cur name c]).
Proof.
  unfold run, setitem.
  rewrite lookup_app_r by lia. rewrite Nat.sub_diag. simpl.
  f_equal. rewrite insert_app_r_alt by lia. by rewrite Nat.sub_diag.
Qed.

Lemma run_getitem h p df name :
  h !! p = Some df -> run (getitem p name) h = (df_getitem df name, h).
Proof.
  intros E. unfold getitem, run, mbind, M_bind, bind, deref, lift.
  by rewrite E.
Qed.

Ltac step_last :=
  rewrite run_bind;
  first [ rewrite run_getitem_last | rewrite run_setitem_last | rewrite run_lift ];
  cbn [df_getitem df_setitem df_columns df_index assoc set_column String.eqb
       Ascii.eqb Bool.eqb holdings_frame col_binop col_scale col_floats col_strings
       col_map_dict col_sum object_empty orb].

Lemma map_fmap {A B} (f : A -> B) (l : list A) : map f l = f <$> l.
Proof. reflexivity. Qed.

Lemma zip_with_map {A B C D} (f : B -> C -> D) (g : A -> B) (k : A -> C) (l : list A) :
  zip_with f (g <$> l) (k <$> l) = (fun x => f (g x) (k x)) <$> l.
Proof. induction l as [|x l IH]; [done|]. cbn. by rewrite IH. Qed.

(** The code, column by column, computes the valued-holdings table of the
    data model, row by row. *)
Lemma calculate_portfolio_values_run h p hs prices :
  h !! p = Some (holdings_frame hs) ->
  run (calculate_portfolio_values p prices) h
  = (Ok (length h), h ++ [valued_frame (map (value_holding prices) hs)]).
Proof.
  intros Hp. unfold calculate_portfolio_values.
  rewrite run_bind, (run_copy _ _ _ Hp).
  do 19 step_last.
  rewrite run_ret. f_equal. f_equal. f_equal.
  unfold valued_frame, holdings_frame, df_setitem.
  cbn [df_index df_columns app set_column String.eqb Ascii.eqb Bool.eqb].
  rewrite !map_fmap, ?length_fmap, ?zip_with_map.
  rewrite <- ?list_fmap_compose, ?zip_with_map, <- ?list_fmap_compose.
  reflexivity.
Qed.

(** ** Sums that skip missing entries *)

Lemma pd_sum_dropna v : pd_sum v = fsum (dropna v).
Proof.
  unfold pd_sum, dropna. induction v as [|x v IH]; [done|].
  destruct x as [q| | |]; cbn [map fillna0 is_nan].
  - rewrite filter_cons_True by done. simpl. by rewrite <- IH.
  - rewrite filter_cons_True by done. simpl. by rewrite <- IH.
  - rewrite filter_cons_True by done. simpl. by rewrite <- IH.
  - rewrite filter_cons_False by done. rewrite <- IH.
    change (fsum (fzero :: map fillna0 v)) with (fadd fzero (fsum (map fillna0 v))).
    apply fadd_zero_l, canon_fsum.
Qed.

(** A quotient by zero is never a finite number. *)
Lemma fdiv_zero_not_finite x t :
  feqb t fzero = true -> is_finite (fmul (fdiv x t) (of_Z 100)) = false.
Proof.
  destruct t as [t| | |]; try done. simpl. intros Ht.
  destruct x as [a| | |]; cbn [fdiv]; rewrite ?Ht.
  - unfold inf_of_sign. by destruct (Qsign a).
  - apply Qeq_bool_eq, Qsign_Eq in Ht. by rewrite Ht.
  - apply Qeq_bool_eq, Qsign_Eq in Ht. by rewrite Ht.
  - done.
Qed.

Lemma portfolio_summary_run h p vs :
  h !! p = Some (valued_frame vs) ->
  let total_invested := fsum (dropna (map Total_Cost vs)) in
  let total_value := fsum (dropna (map Current_Value vs)) in
  run (portfolio_summary p) h
  = (Ok (total_invested, total_value,
         fmul (fdiv (fsub total_value total_invested) total_invested) (of_Z 100)),
     h).
Proof.
  intros Hp ti tv. subst ti tv. unfold portfolio_summary.
  rewrite run_bind, (run_getitem _ _ _ _ Hp).
  cbn [valued_frame holdings_frame df_getitem df_columns app assoc String.eqb
       Ascii.eqb Bool.eqb].
  rewrite run_bind, run_lift. cbn [col_sum col_floats object_empty].
  rewrite run_bind, (run_getitem _ _ _ _ Hp).
  cbn [valued_frame holdings_frame df_getitem df_columns app assoc String.eqb
       Ascii.eqb Bool.eqb].
  rewrite run_bind, run_lift. cbn [col_sum col_floats object_empty].
  rewrite run_bind, run_lift. cbn [scalar_sub scalar_truediv scalar_value].
  by rewrite run_ret, !pd_sum_dropna.
Qed.

(** The empty portfolio, valued and summarised. *)
Lemma empty_portfolio_values h p prices :
  h !! p = Some empty_portfolio ->
  run (calculate_portfolio_values p prices) h = (Ok (length h), h ++ [empty_valued]).
Proof.
  intros Hp. unfold calculate_portfolio_values.
  rewrite run_bind, (run_copy _ _ _ Hp). unfold empty_portfolio.
  do 19 (step_last; cbn [col_length length Nat.eqb andb map zip_with]).
  by rewrite run_ret.
Qed.

Lemma empty_portfolio_summary h p prices :
  h !! p = Some empty_portfolio ->
  run (calculate_portfolio_values p prices ≫= portfolio_summary) h
  = (Raise ZeroDivisionError, h ++ [empty_valued]).
Proof.
  intros Hp. rewrite run_bind, (empty_portfolio_values _ _ _ Hp).
  assert ((h ++ [empty_valued]) !! length h = Some empty_valued) as Hq
    by by rewrite lookup_app_r, Nat.sub_diag.
  unfold portfolio_summary.
  rewrite run_bind, (run_getitem _ _ _ _ Hq).
  cbn [empty_valued empty_portfolio df_getitem df_columns app assoc String.eqb
       Ascii.eqb Bool.eqb].
  rewrite run_bind, run_lift. cbn [col_sum object_empty].
  rewrite run_bind, (run_getitem _ _ _ _ Hq).
  cbn [empty_valued empty_portfolio df_getitem df_columns app assoc String.eqb
       Ascii.eqb Bool.eqb].
  rewrite run_bind, run_lift. cbn [col_sum object_empty].
  rewrite run_bind, run_lift. reflexivity.
Qed.

(** ** Frame reasoning on the store

    [keeps h0 m Q]: run on any store that extends [h0], the computation [m]
    leaves the objects of [h0] as they are, whether it returns or raises,
    and a value it returns satisfies [Q]. *)

Lemma keeps_ret {A} h0 (a : A) (Q : A -> Prop) : Q a -> keeps h0 (mret a) Q.
Proof. intros HQ h Hh. split; [done|]. by intros ? [= <-]. Qed.

Lemma keeps_lift {A} h0 (r : result A) : keeps h0 (lift r) (fun _ => True).
Proof. intros h Hh. by split. Qed.

Lemma keeps_deref h0 l : keeps h0 (deref l) (fun _ => True).
Proof. intros h Hh. unfold run, deref. by destruct (h !! l). Qed.

Lemma keeps_bind {A B} h0 (m : M A) (k : A -> M B) (Q : A -> Prop) (R : B -> Prop) :
  keeps h0 m Q -> (forall a, Q a -> keeps h0 (k a) R) -> keeps h0 (m ≫= k) R.
Proof.
  intros Hm Hk h Hh. destruct (Hm h Hh) as [Hpre HQ].
  rewrite run_bind. destruct (run m h) as [[a|e] h'] eqn:E; simpl in *.
  - by apply (Hk a (HQ a eq_refl)).
  - by split.
Qed.

Lemma keeps_getitem h0 l name : keeps h0 (getitem l name) (fun _ => True).
Proof.
  unfold getitem. eapply keeps_bind; [apply keeps_deref|].
  intros df _. apply keeps_lift.
Qed.

(** A copy is a new object. *)
Lemma keeps_copy h0 l : keeps h0 (copy l) (fun l' => length h0 <= l')%nat.
Proof.
  intros h Hh. unfold run, copy. destruct (h !! l); simpl.
  - split; [by apply prefix_app_r|]. intros ? [= <-]. by apply prefix_length.
  - by split.
Qed.

(** A write to an object allocated after [h0] does not touch [h0]. *)
Lemma keeps_setitem h0 l name c :
  (length h0 <= l)%nat -> keeps h0 (setitem l name c) (fun _ => True).
Proof.
  intros Hl h [k ->]. unfold run, setitem. destruct ((h0 ++ k) !! l); simpl.
  - split; [|done]. rewrite insert_app_r_alt by done. by apply prefix_app_r.
  - split; [|done]. by apply prefix_app_r.
Qed.

Ltac keeps_step :=
  lazymatch goal with
  | |- keeps _ (mret _) _ => by apply keeps_ret
  | |- keeps _ (_ ≫= _) _ =>
      first
        [ eapply keeps_bind; [apply keeps_getitem | intros ? _]
        | eapply keeps_bind; [apply keeps_lift | intros ? _]
        | eapply keeps_bind; [apply keeps_deref | intros ? _]
        | eapply keeps_bind; [by apply keeps_setitem | intros _ _]
        | eapply keeps_bind; [apply keeps_copy | intros ? ?] ]
  end.

Lemma calculate_portfolio_values_keeps h0 p prices :
  keeps h0 (calculate_portfolio_values p prices) (fun _ => True).
Proof. unfold calculate_portfolio_values. repeat keeps_step. Qed.

Lemma weights_and_returns_keeps `{Pandas} `{HashOrder} h0 a b :
  keeps h0 (weights_and_returns a b) (fun _ => True).
Proof. unfold weights_and_returns. repeat keeps_step. Qed.

Lemma calculate_portfolio_returns_keeps `{Pandas} `{HashOrder} h0 a b :
  keeps h0 (calculate_portfolio_returns a b) (fun _ => True).
Proof.
  unfold calculate_portfolio_returns.
  eapply keeps_bind; [apply weights_and_returns_keeps|].
  intros wr _. by apply keeps_ret.
Qed.

(** ** Independence of the iteration order of a set *)

Lemma run_bind_assoc {A B C} (m : M A) (k1 : A -> M B) (k2 : B -> M C) h :
  run ((m ≫= k1) ≫= k2) h = run (m ≫= (fun x => k1 x ≫= k2)) h.
Proof.
  unfold run, mbind, M_bind, bind. by destruct (m h) as [[a|e] h'].
Qed.

Lemma run_bind_ext {A B} (m : M A) (k1 k2 : A -> M B) h :
  (forall a h', run (k1 a) h' = run (k2 a) h') ->
  run (m ≫= k1) h = run (m ≫= k2) h.
Proof.
  intros Hk. rewrite !run_bind. destruct (run m h) as [[a|e] h']; [apply Hk | done].
Qed.

Lemma select_perm {A} (l : list (string * A)) names1 names2 :
  names1 ≡ₚ names2 -> same_up_to_order (select l names1) (select l names2).
Proof.
  induction 1 as [|k n1 n2 Hp IH|k1 k2 n|n1 n2 n3 Hp1 IH1 Hp2 IH2].
  - by cbn.
  - simpl. unfold same_up_to_order in *.
    destruct (assoc k l), (select l n1), (select l n2); try done.
    by constructor.
  - simpl. unfold same_up_to_order.
    destruct (assoc k1 l), (assoc k2 l), (select l n) as [r|e] eqn:E; try done.
    apply perm_swap.
  - unfold same_up_to_order in *.
    destruct (select l n1), (select l n2), (select l n3); try done.
    + by etrans.
    + congruence.
Qed.

Lemma assoc_select {A} (l : list (string * A)) names r k :
  select l names = Ok r ->
  assoc k r = if bool_decide (k ∈ names) then assoc k l else None.
Proof.
  revert r. induction names as [|k' names IH]; intros r.
  - intros [= <-]. rewrite bool_decide_eq_false_2; [done | apply not_elem_of_nil].
  - cbn [select]. destruct (assoc k' l) as [v|] eqn:Ek; [|done].
    destruct (select l names) as [r'|] eqn:Es; [|done].
    intros [= <-]. cbn [assoc]. destruct (String.eqb_spec k' k) as [->|NE].
    + rewrite bool_decide_eq_true_2; [done | by apply elem_of_cons; left].
    + rewrite (IH r' eq_refl).
      destruct (decide (k ∈ names)).
      * rewrite !bool_decide_eq_true_2; [done | by apply elem_of_cons; right | done].
      * rewrite !bool_decide_eq_false_2; [done | | done].
        intros [?|?]%elem_of_cons; congruence.
Qed.

(** Adding the columns row by row does not depend on their order. *)
Lemma add_column_swap (c1 c2 acc : list float) :
  zip_with fadd c1 (zip_with fadd c2 acc) = zip_with fadd c2 (zip_with fadd c1 acc).
Proof.
  revert c1 c2. induction acc as [|x acc IH]; intros [|a c1] [|b c2]; simpl; try done.
  by rewrite fadd_swap, IH.
Qed.

Lemma row_sums_perm (cols1 cols2 : list (list float)) base :
  cols1 ≡ₚ cols2 ->
  foldr (fun c acc => zip_with fadd (map fillna0 c) acc) base cols1
  = foldr (fun c acc => zip_with fadd (map fillna0 c) acc) base cols2.
Proof.
  induction 1 as [|c l1 l2 Hp IH|c1 c2 l|l1 l2 l3 Hp1 IH1 Hp2 IH2]; simpl.
  - done.
  - by rewrite IH.
  - apply add_column_swap.
  - by etrans.
Qed.

Lemma ff_sum_axis1_perm idx cols1 cols2 :
  cols1 ≡ₚ cols2 ->
  ff_sum_axis1 {| ff_index := idx; ff_columns := cols1 |}
  = ff_sum_axis1 {| ff_index := idx; ff_columns := cols2 |}.
Proof.
  intros Hp. unfold ff_sum_axis1. simpl. f_equal.
  apply row_sums_perm. by apply fmap_Permutation.
Qed.

Lemma weighted_sum_perm names1 names2 weights daily :
  names1 ≡ₚ names2 ->
  weighted_sum names1 weights daily = weighted_sum names2 weights daily.
Proof.
  intros Hp. unfold weighted_sum, ff_select.
  pose proof (select_perm weights _ _ Hp) as Hw.
  pose proof (select_perm (ff_columns daily) _ _ Hp) as Hd.
  unfold same_up_to_order in *.
  destruct (select weights names1) as [w1|e1] eqn:Ew1,
           (select weights names2) as [w2|e2] eqn:Ew2; try done;
  destruct (select (ff_columns daily) names1) as [d1|e1'] eqn:Ed1,
           (select (ff_columns daily) names2) as [d2|e2'] eqn:Ed2; try done;
  try congruence.
  - f_equal. unfold ff_mul. simpl.
    assert (forall k, assoc k w1 = assoc k w2) as Hassoc.
    { intros k. rewrite (assoc_select _ _ _ k Ew1), (assoc_select _ _ _ k Ew2).
      destruct (decide (k ∈ names1)) as [Hin|Hin].
      - rewrite !bool_decide_eq_true_2; [done | by rewrite <- Hp | done].
      - rewrite !bool_decide_eq_false_2; [done | by rewrite <- Hp | done]. }
    rewrite (map_ext _
      (fun kc => (kc.1, map (fun x => fmul x (default NaN (assoc kc.1 w2))) kc.2)))
      by (intros [k c]; simpl; by rewrite Hassoc).
    apply ff_sum_axis1_perm. rewrite !map_fmap. by apply fmap_Permutation.
Qed.

Lemma list_of_set_any_order (O1 O2 : HashOrder) (s : gset string) :
  @list_of_set O1 s ≡ₚ @list_of_set O2 s.
Proof. by rewrite !list_of_set_perm. Qed.

Lemma calculate_portfolio_returns_any_order (P : Pandas) (O1 O2 : HashOrder) a b h :
  run (@calculate_portfolio_returns P O1 a b) h
  = run (@calculate_portfolio_returns P O2 a b) h.
Proof.
  unfold calculate_portfolio_returns, weights_and_returns.
  do 11 (rewrite !run_bind_assoc; apply run_bind_ext; intros ? ?; cbv beta).
  match goal with
  | |- context [ff_select ?d (@list_of_set O1 ?s)] =>
      match goal with
      | |- context [@select float ?w (@list_of_set O1 s)] =>
          pose proof (weighted_sum_perm _ _ w d (list_of_set_any_order O1 O2 s)) as HW
      end
  end.
  unfold weighted_sum, ff_select in HW.
  unfold run, mbind, M_bind, bind, lift, mret, M_ret, ret, ff_select.
  repeat match goal with
         | |- context [select ?l ?n] => destruct (select l n)
         end; simpl in *; try congruence.
Qed.

(** ** Running the return builder *)

Lemma columns_floats_panel (prices : list (string * list float)) :
  columns_floats (map (fun kc => (kc.1, F64Col kc.2)) prices) = Ok prices.
Proof.
  induction prices as [|[k c] prices IH]; [done|].
  simpl. by rewrite IH.
Qed.

Lemma df_floats_panel dates prices :
  df_floats (panel_frame dates prices)
  = Ok {| ff_index := dates; ff_columns := prices |}.
Proof. unfold df_floats, panel_frame. simpl. by rewrite columns_floats_panel. Qed.

Lemma run_deref h l df : h !! l = Some df -> run (deref l) h = (Ok df, h).
Proof. intros E. unfold run, deref. by rewrite E. Qed.

Lemma initial_values_zip hs :
  zip_with fmul (map of_Z (map Quantity hs)) (map Buy_Price hs)
  = map initial_value hs.
Proof. induction hs as [|x hs IH]; [done|]. simpl. by rewrite IH. Qed.

Section Returns.
Context `{Pandas} `{HashOrder}.

(** The state of lines 53-73 on a holdings table and a price panel. *)
Lemma weights_and_returns_run h a b dates prices hs :
  h !! a = Some (panel_frame dates prices) ->
  h !! b = Some (holdings_frame hs) ->
  let aggregated := groupby_sum (map Ticker hs) (map initial_value hs) in
  let weights := map (fun kv => (kv.1, fdiv kv.2 (pd_sum aggregated.*2))) aggregated in
  let daily_returns :=
    ff_dropna (ff_pct_change {| ff_index := dates; ff_columns := prices |}) in
  let common_tickers :=
    list_of_set (list_to_set weights.*1 ∩ list_to_set (ff_columns daily_returns).*1) in
  (run (weights_and_returns a b) h).1
  = match select weights common_tickers, ff_select daily_returns common_tickers with
    | Ok w, Ok d => Ok (w, d)
    | Raise e, _ | _, Raise e => Raise e
    end.
Proof.
  intros Ha Hb aggregated weights daily_returns common_tickers.
  unfold weights_and_returns.
  rewrite run_bind, (run_copy _ _ _ Hb).
  do 8 step_last.
  rewrite run_bind, (run_deref _ _ (panel_frame dates prices))
    by by apply lookup_app_l_Some.
  rewrite run_bind, run_lift, df_floats_panel.
  rewrite initial_values_zip.
  subst common_tickers daily_returns weights aggregated.
  rewrite run_bind, run_lift.
  match goal with |- context [select ?w ?n] => destruct (select w n) as [w'|e] end;
    [|done].
  rewrite run_bind, run_lift.
  by match goal with |- context [ff_select ?d ?n] => destruct (ff_select d n) end.
Qed.

End Returns.

(** ** Association lists *)

Lemma assoc_None {A} (l : list (string * A)) k : assoc k l = None <-> k ∉ l.*1.
Proof.
  induction l as [|[k' v] l IH]; simpl.
  - split; [intros _; apply not_elem_of_nil | done].
  - destruct (String.eqb_spec k' k) as [->|NE].
    + split; [done|]. intros Hn. destruct Hn. by left.
    + rewrite IH. rewrite not_elem_of_cons. split; [by split | by intros [_ ?]].
Qed.

Lemma assoc_Some_elem {A} (l : list (string * A)) k v : assoc k l = Some v -> (k, v) ∈ l.
Proof.
  induction l as [|[k' v'] l IH]; simpl; [done|].
  destruct (String.eqb_spec k' k) as [->|NE].
  - intros [= ->]. by left.
  - intros Hs. right. by apply IH.
Qed.

Lemma assoc_is_Some {A} (l : list (string * A)) k : k ∈ l.*1 -> is_Some (assoc k l).
Proof.
  intros Hk. destruct (assoc k l) eqn:E; [by eexists|].
  by apply assoc_None in E.
Qed.

Lemma assoc_map {A B} (f : A -> B) (l : list (string * A)) k :
  assoc k (map (fun kv => (kv.1, f kv.2)) l) = f <$> assoc k l.
Proof.
  induction l as [|[k' v] l IH]; simpl; [done|].
  by destruct (String.eqb k' k).
Qed.

Lemma assoc_app {A} (l1 l2 : list (string * A)) k :
  assoc k (l1 ++ l2) = match assoc k l1 with Some v => Some v | None => assoc k l2 end.
Proof.
  induction l1 as [|[k' v] l1 IH]; simpl; [done|].
  by destruct (String.eqb k' k).
Qed.

(** *** select *)

Lemma select_Ok {A} (l : list (string * A)) names r :
  select l names = Ok r ->
  r.*1 = names /\ Forall (fun kv => assoc kv.1 l = Some kv.2) r.
Proof.
  revert r. induction names as [|k names IH]; intros r; simpl.
  - intros [= <-]. by split.
  - destruct (assoc k l) as [v|] eqn:Ek; [|done].
    destruct (select l names) as [r'|]; [|done].
    intros [= <-]. destruct (IH r' eq_refl) as [E F].
    split; [cbn; by f_equal | by constructor].
Qed.

Lemma select_total {A} (l : list (string * A)) names :
  (forall k, k ∈ names -> k ∈ l.*1) -> exists r, select l names = Ok r.
Proof.
  induction names as [|k names IH]; intros Hn; simpl; [by eexists|].
  destruct (assoc_is_Some l k) as [v ->]; [apply Hn; by left|].
  destruct IH as [r ->]; [|by eexists].
  intros k' Hk'. apply Hn. by right.
Qed.

Lemma select_suffix {A} (pre suf : list (string * A)) :
  NoDup (pre ++ suf).*1 -> select (pre ++ suf) suf.*1 = Ok suf.
Proof.
  revert pre. induction suf as [|[k v] suf IH]; intros pre Hnd; [done|].
  cbn [fmap list_fmap fst select].
  assert (assoc k (pre ++ (k, v) :: suf) = Some v) as ->.
  { rewrite assoc_app.
    assert (assoc k pre = None) as ->.
    { apply assoc_None. rewrite fmap_app in Hnd.
      apply NoDup_app in Hnd as (_ & Hd & _). intros Hin.
      apply (Hd k Hin). by left. }
    simpl. by rewrite String.eqb_refl. }
  replace (pre ++ (k, v) :: suf) with ((pre ++ [(k, v)]) ++ suf) in *
    by by rewrite <- app_assoc.
  by rewrite IH.
Qed.

Lemma select_all {A} (l : list (string * A)) :
  NoDup l.*1 -> select l l.*1 = Ok l.
Proof. apply (select_suffix []). Qed.

(** ** groupby *)

Lemma compare_lt_trans a b c :
  String.compare a b = Lt -> String.compare b c = Lt -> String.compare a c = Lt.
Proof.
  intros H1 H2. apply String_as_OT.cmp_lt.
  eapply String_as_OT.lt_trans; by apply String_as_OT.cmp_lt.
Qed.

Lemma compare_refl a : String.compare a a = Eq.
Proof.
  destruct (String.compare a a) eqn:E; [done| |];
    pose proof (String.compare_antisym a a) as Ha; rewrite E in Ha; done.
Qed.

Lemma compare_Gt_Lt a b : String.compare a b = Gt -> String.compare b a = Lt.
Proof. intros E. rewrite String.compare_antisym, E. done. Qed.

Lemma agg_add_keys k v acc e : e ∈ (agg_add k v acc).*1 <-> e = k \/ e ∈ acc.*1.
Proof.
  induction acc as [|[k' v'] acc IH]; simpl.
  - rewrite list_elem_of_singleton. split; [by left | intros [?|?%elem_of_nil]; done].
  - destruct (String.compare k k') eqn:E; simpl.
    + apply String.compare_eq_iff in E as ->. rewrite !elem_of_cons. tauto.
    + rewrite !elem_of_cons. tauto.
    + rewrite !elem_of_cons, IH. tauto.
Qed.

Lemma agg_add_sorted k v acc : sorted_keys acc -> sorted_keys (agg_add k v acc).
Proof.
  unfold sorted_keys. induction 1 as [|[k' v'] acc Hs IH Hall]; simpl.
  - by repeat constructor.
  - destruct (String.compare k k') eqn:E.
    + by constructor.
    + constructor; [by constructor|]. constructor; [done|].
      eapply Forall_impl; [exact Hall|]. intros [k'' v'']. unfold key_lt. simpl.
      by apply compare_lt_trans.
    + constructor; [done|]. apply Forall_forall. intros [k'' v''] Hin.
      unfold key_lt. simpl.
      assert (k'' ∈ (agg_add k v acc).*1) as Hk.
      { apply list_elem_of_fmap. by exists (k'', v''). }
      apply agg_add_keys in Hk as [->|Hk]; [by apply compare_Gt_Lt|].
      apply list_elem_of_fmap in Hk as ([k3 v3] & -> & Hin3).
      rewrite Forall_forall in Hall. by apply (Hall _ Hin3).
Qed.

Lemma sorted_keys_NoDup l : sorted_keys l -> NoDup l.*1.
Proof.
  induction 1 as [|[k v] l Hs IH Hall]; simpl; constructor; [|done].
  intros Hin. apply list_elem_of_fmap in Hin as ([k' v'] & E & Hin). simpl in E. subst k'.
  rewrite Forall_forall in Hall. specialize (Hall _ Hin).
  unfold key_lt in Hall. simpl in Hall. by rewrite compare_refl in Hall.
Qed.

Lemma assoc_agg_add k v acc t :
  sorted_keys acc ->
  assoc t (agg_add k v acc)
  = if String.eqb k t
    then Some (match assoc t acc with Some s => fadd s v | None => v end)
    else assoc t acc.
Proof.
  induction 1 as [|[k' v'] acc Hs IH Hall]; simpl.
  - by destruct (String.eqb k t).
  - destruct (String.compare k k') eqn:E; simpl.
    + apply String.compare_eq_iff in E as ->. by destruct (String.eqb k' t).
    + destruct (String.eqb_spec k t) as [->|NE]; [|done].
      assert (String.eqb k' t = false) as ->.
      { apply String.eqb_neq. intros ->. by rewrite compare_refl in E. }
      assert (assoc t acc = None) as ->; [|done].
      apply assoc_None. intros Hin.
      apply list_elem_of_fmap in Hin as ([k3 v3] & -> & Hin3).
      rewrite Forall_forall in Hall. specialize (Hall _ Hin3).
      unfold key_lt in Hall. simpl in Hall.
      pose proof (compare_lt_trans _ _ _ E Hall) as Hc. by rewrite compare_refl in Hc.
    + destruct (String.eqb_spec k' t) as [->|NE].
      * assert (String.eqb k t = false) as ->; [|done].
        apply String.eqb_neq. intros ->. by rewrite compare_refl in E.
      * apply IH.
Qed.

Lemma fsum_cons x l : fsum (x :: l) = fadd x (fsum l).
Proof. reflexivity. Qed.

Lemma fsum_agg_add k v acc : fsum (agg_add k v acc).*2 = fadd v (fsum acc.*2).
Proof.
  induction acc as [|[k' v'] acc IH]; [done|].
  cbn [agg_add]. destruct (String.compare k k'); rewrite ?fmap_cons, ?fsum_cons; cbn [snd].
  - by rewrite <- fadd_assoc, fadd_swap.
  - done.
  - rewrite IH. apply fadd_swap.
Qed.

(** ** The aggregated purchase costs *)

Lemma aggregated_cost_cons x hs :
  aggregated_cost (x :: hs)
  = agg_add (Ticker x) (fillna0 (initial_value x)) (aggregated_cost hs).
Proof. reflexivity. Qed.

Lemma aggregated_cost_sorted hs : sorted_keys (aggregated_cost hs).
Proof.
  induction hs as [|x hs IH]; [constructor|].
  rewrite aggregated_cost_cons. by apply agg_add_sorted.
Qed.

Lemma aggregated_cost_keys hs t : t ∈ (aggregated_cost hs).*1 <-> t ∈ map Ticker hs.
Proof.
  induction hs as [|x hs IH]; [done|].
  rewrite aggregated_cost_cons, agg_add_keys, IH. simpl. rewrite elem_of_cons. tauto.
Qed.

Lemma aggregated_cost_total hs : fsum (aggregated_cost hs).*2 = cost_total hs.
Proof.
  unfold cost_total, pd_sum. induction hs as [|x hs IH]; [done|].
  rewrite aggregated_cost_cons, fsum_agg_add, IH. done.
Qed.

Lemma canon_fillna0 x : canon x -> canon (fillna0 x).
Proof. by destruct x. Qed.

Lemma filter_ticker_absent t hs :
  t ∉ map Ticker hs -> filter (fun h => Ticker h = t) hs = [].
Proof.
  induction hs as [|x hs IH]; [done|]. simpl. rewrite not_elem_of_cons.
  intros [NE Hn]. rewrite filter_cons_False by done. by apply IH.
Qed.

(** The entry of a ticker in the aggregate is the cost of its lots. *)
Lemma aggregated_cost_assoc hs t :
  assoc t (aggregated_cost hs)
  = if bool_decide (t ∈ map Ticker hs) then Some (cost_of t hs) else None.
Proof.
  induction hs as [|x hs IH].
  - rewrite bool_decide_eq_false_2; [done | apply not_elem_of_nil].
  - rewrite aggregated_cost_cons, assoc_agg_add by apply aggregated_cost_sorted.
    rewrite IH. clear IH. unfold cost_of. cbn [map].
    destruct (String.eqb_spec (Ticker x) t) as [E|NE].
    + assert (bool_decide (t ∈ Ticker x :: map Ticker hs) = true) as ->.
      { apply bool_decide_eq_true_2. rewrite E. by left. }
      rewrite filter_cons_True by done. f_equal.
      unfold pd_sum. cbn [map]. rewrite fsum_cons.
      destruct (decide (t ∈ map Ticker hs)) as [Hin|Hin].
      * rewrite bool_decide_eq_true_2 by done. apply fadd_comm.
      * rewrite bool_decide_eq_false_2 by done.
        rewrite (filter_ticker_absent t hs Hin). cbn [map fsum foldr].
        symmetry. apply fadd_zero_r, canon_fillna0, canon_fmul.
    + rewrite filter_cons_False by done.
      destruct (decide (t ∈ map Ticker hs)) as [Hin|Hin].
      * rewrite !bool_decide_eq_true_2; [done | by right | done].
      * rewrite !bool_decide_eq_false_2; [done | | done].
        rewrite not_elem_of_cons. by split.
Qed.

(** *** Finite costs *)

Lemma initial_value_finite x : finite (Buy_Price x) -> finite (initial_value x).
Proof. intros [p Hp]. unfold initial_value. rewrite Hp. by eexists. Qed.

Lemma agg_add_finite k v acc :
  finite v -> Forall finite acc.*2 -> Forall finite (agg_add k v acc).*2.
Proof.
  intros Hv. induction acc as [|[k' v'] acc IH]; cbn [agg_add].
  - intros _. by repeat constructor.
  - rewrite fmap_cons. intros [Hv' Hacc]%Forall_cons.
    destruct (String.compare k k'); rewrite ?fmap_cons; cbn [snd].
    + constructor; [by apply finite_fadd | done].
    + by repeat constructor.
    + constructor; [done | by apply IH].
Qed.

Lemma fillna0_finite x : finite x -> fillna0 x = x.
Proof. by intros [q ->]. Qed.

Lemma aggregated_cost_finite hs :
  Forall (fun x => finite (Buy_Price x)) hs -> Forall finite (aggregated_cost hs).*2.
Proof.
  induction 1 as [|x hs Hx Hhs IH]; [constructor|].
  rewrite aggregated_cost_cons. apply agg_add_finite; [|done].
  rewrite fillna0_finite; by apply initial_value_finite.
Qed.

Lemma pd_sum_aggregated hs :
  Forall (fun x => finite (Buy_Price x)) hs ->
  pd_sum (aggregated_cost hs).*2 = cost_total hs.
Proof.
  intros Hf. rewrite pd_sum_dropna, dropna_finite by by apply aggregated_cost_finite.
  apply aggregated_cost_total.
Qed.

(** *** Shares of a total *)

Lemma fsum_perm l1 l2 : l1 ≡ₚ l2 -> fsum l1 = fsum l2.
Proof.
  induction 1 as [|x l1 l2 Hp IH|x y l|l1 l2 l3 Hp1 IH1 Hp2 IH2].
  - done.
  - by rewrite !fsum_cons, IH.
  - rewrite !fsum_cons. apply fadd_swap.
  - by etrans.
Qed.

(** Finite values divided by their non-zero sum add up to one. *)
Lemma fsum_shares (vs : list float) T :
  Forall finite vs -> ~ T == 0 ->
  exists s, fsum vs = Fin s /\ fsum (map (fun v => fdiv v (Fin T)) vs) = fin (s / T).
Proof.
  intros Hf HT. induction Hf as [|v vs [a ->] Hvs (s & Es & IH)].
  - exists 0. split; [done|]. symmetry. apply fin_zero. by field.
  - eexists. rewrite map_cons, !fsum_cons, Es, IH. split; [reflexivity|].
    simpl. rewrite Qeq_bool_false by done. apply fin_eq.
    rewrite !Qred_correct. by field.
Qed.

Lemma fsum_shares_one (vs : list float) :
  Forall finite vs -> feqb (fsum vs) fzero = false ->
  fsum (map (fun v => fdiv v (fsum vs)) vs) = fone.
Proof.
  intros Hf Hnz. destruct (finite_fsum vs Hf) as [T ET]. rewrite ET in *.
  simpl in Hnz. apply Qeq_bool_neq in Hnz.
  destruct (fsum_shares vs T Hf Hnz) as (s & Es & ->).
  rewrite ET in Es. injection Es as <-. apply fin_one. by field.
Qed.

Lemma fst_map_snd {A B} (f : A -> B) (l : list (string * A)) :
  (map (fun kv => (kv.1, f kv.2)) l).*1 = l.*1.
Proof. induction l as [|[k v] l IH]; [done|]. cbn. by rewrite <- IH. Qed.

Lemma snd_map_snd {A B} (f : A -> B) (l : list (string * A)) :
  (map (fun kv => (kv.1, f kv.2)) l).*2 = map f l.*2.
Proof. induction l as [|[k v] l IH]; [done|]. cbn. by rewrite <- IH. Qed.

Lemma daily_returns_columns `{Pandas} dates prices :
  (ff_columns (ff_dropna (ff_pct_change {| ff_index := dates; ff_columns := prices |}))).*1
  = prices.*1.
Proof.
  unfold ff_dropna, ff_pct_change. cbn [ff_columns ff_index].
  by rewrite !fst_map_snd.
Qed.

Section Weights.
Context `{HashOrder}.

Lemma list_of_set_elem (s : gset string) t : t ∈ list_of_set s <-> t ∈ s.
Proof. by rewrite list_of_set_perm, elem_of_elements. Qed.

Lemma list_of_set_NoDup (s : gset string) : NoDup (list_of_set s).
Proof. rewrite list_of_set_perm. apply NoDup_elements. Qed.

End Weights.

(** ** Rows kept by dropna *)

Lemma keep_nil_l {A} (l : list A) : keep [] l = [].
Proof. done. Qed.

Lemma keep_nil_r {A} (mask : list bool) : keep mask ([] : list A) = [].
Proof. by destruct mask. Qed.

Lemma keep_cons {A} (m : bool) mask (x : A) l :
  keep (m :: mask) (x :: l) = if m then x :: keep mask l else keep mask l.
Proof.
  unfold keep. cbn [zip zip_with]. destruct m.
  - by rewrite filter_cons_True.
  - by rewrite filter_cons_False.
Qed.

Lemma keep_length {A B} (mask : list bool) (l1 : list A) (l2 : list B) :
  (length mask <= length l1)%nat -> (length mask <= length l2)%nat ->
  length (keep mask l1) = length (keep mask l2).
Proof.
  revert l1 l2. induction mask as [|m mask IH]; intros [|x l1] [|y l2]; simpl;
    try done; try lia.
  intros H1 H2. rewrite !keep_cons. destruct m; simpl; rewrite (IH l1 l2); lia.
Qed.

Lemma keep_Forall {A} (P : A -> Prop) mask l : Forall P l -> Forall P (keep mask l).
Proof.
  intros Hl. revert mask. induction Hl as [|x l Hx Hl IH]; intros [|m mask];
    rewrite ?keep_nil_r, ?keep_nil_l, ?keep_cons; try constructor.
  destruct m; [by constructor | done].
Qed.

(** An entry kept is an entry whose row the mask marks. *)
Lemma keep_Forall_mask {A} (P : A -> Prop) mask l :
  (forall i x, mask !! i = Some true -> l !! i = Some x -> P x) ->
  Forall P (keep mask l).
Proof.
  revert l. induction mask as [|m mask IH]; intros [|x l] Hp;
    rewrite ?keep_nil_r, ?keep_nil_l, ?keep_cons; try constructor.
  assert (Forall P (keep mask l)) as Hrest.
  { apply IH. intros i y Hm Hl. by apply (Hp (S i) y). }
  destruct m; [|done]. constructor; [|done]. by apply (Hp 0%nat x).
Qed.

Lemma row_mask_cons n c cols :
  row_mask n (c :: cols) = zip_with andb (map notna c) (row_mask n cols).
Proof. reflexivity. Qed.

Lemma row_mask_length_n n cols : (length (row_mask n cols) <= n)%nat.
Proof.
  induction cols as [|c cols IH]; simpl.
  - by rewrite length_replicate.
  - rewrite length_zip_with. change (foldr _ _ cols) with (row_mask n cols). lia.
Qed.

Lemma row_mask_length_col n cols c :
  c ∈ cols -> (length (row_mask n cols) <= length c)%nat.
Proof.
  induction cols as [|c' cols IH]; [by intros ?%elem_of_nil|].
  rewrite row_mask_cons, length_zip_with, length_map.
  intros [->|Hin]%elem_of_cons; [lia|]. specialize (IH Hin). lia.
Qed.

Lemma row_mask_true n cols c i x :
  c ∈ cols -> row_mask n cols !! i = Some true -> c !! i = Some x -> notna x = true.
Proof.
  induction cols as [|c' cols IH]; [by intros ?%elem_of_nil|].
  rewrite row_mask_cons. intros Hin Hm Hc.
  apply lookup_zip_with_Some in Hm as (b1 & b2 & Hb & H1 & H2).
  symmetry in Hb. apply andb_prop in Hb as [-> ->].
  apply elem_of_cons in Hin as [->|Hin]; [|by apply IH].
  rewrite list_lookup_fmap, Hc in H1. by injection H1.
Qed.

(** ** One column, weight one *)

Lemma canon_period_change v : Forall canon (period_change v).
Proof.
  destruct v as [|x v]; [constructor|]. unfold period_change. constructor; [done|].
  apply Forall_forall. intros y Hy.
  apply elem_of_lookup_zip_with in Hy as (i & a & b & -> & _). apply canon_fsub.
Qed.

Lemma canon_pct_change `{Pandas} v : Forall canon (pct_change v).
Proof. apply canon_period_change. Qed.

Lemma zip_with_fadd_zeros c n :
  Forall canon c -> (length c <= n)%nat ->
  zip_with fadd c (replicate n fzero) = c.
Proof.
  intros Hc. revert n. induction Hc as [|x c Hx Hc IH]; intros [|n] Hn; simpl in *;
    try done; try lia.
  rewrite fadd_zero_r by done. rewrite IH by lia. done.
Qed.

Lemma weight_one_column c :
  Forall canon c -> Forall (fun x => notna x = true) c ->
  map fillna0 (map (fun x => fmul x fone) c) = c.
Proof.
  intros Hc Hn. induction Hc as [|x c Hx Hc IH]; [done|].
  apply Forall_cons in Hn as [Hnx Hn]. simpl. rewrite IH by done.
  rewrite fmul_one_r by done. by destruct x.
Qed.

Lemma ff_sum_single idx t c :
  Forall canon c -> Forall (fun x => notna x = true) c -> length c = length idx ->
  ff_sum_axis1 (ff_mul {| ff_index := idx; ff_columns := [(t, c)] |} [(t, fone)])
  = zip idx c.
Proof.
  intros Hc Hn Hl. unfold ff_sum_axis1, ff_mul. cbn [ff_index ff_columns map fst snd].
  cbn [assoc]. rewrite String.eqb_refl. cbn [default fmap list_fmap foldr snd].
  rewrite weight_one_column by done.
  rewrite zip_with_fadd_zeros by (done || lia). done.
Qed.

(** ** A portfolio of one ticker *)

Lemma positive_initial_value x :
  (0 < Quantity x)%Z -> positive_price (Buy_Price x) -> positive_price (initial_value x).
Proof.
  intros Hq (p & Hp & Hpos). unfold initial_value. rewrite Hp.
  eexists. split; [reflexivity|]. rewrite !Qred_correct.
  apply Qmult_lt_0_compat; [|done].
  change 0 with (inject_Z 0). by rewrite <- Zlt_Qlt.
Qed.

Lemma positive_fsum v :
  v <> [] -> Forall positive_price v -> positive_price (fsum v).
Proof.
  intros Hne Hv. induction Hv as [|x v (a & -> & Ha) Hv IH]; [done|].
  rewrite fsum_cons. destruct v as [|y v].
  - eexists. split; [reflexivity|]. simpl. rewrite Qred_correct. lra.
  - destruct IH as (s & -> & Hs); [done|].
    eexists. split; [reflexivity|]. simpl. rewrite Qred_correct. lra.
Qed.

Lemma positive_notna x : positive_price x -> notna x = true.
Proof. by intros (q & -> & _). Qed.

Lemma positive_finite x : positive_price x -> finite x.
Proof. intros (q & -> & _). by eexists. Qed.

Lemma single_ticker_filter t hs :
  single_ticker t hs -> filter (fun h => Ticker h = t) hs = hs.
Proof.
  intros [_ Hall]. induction Hall as [|x hs (E & _) Hall IH]; [done|].
  rewrite filter_cons_True by done. by rewrite IH.
Qed.

Lemma single_ticker_tickers t hs k :
  single_ticker t hs -> k ∈ map Ticker hs <-> k = t.
Proof.
  intros [Hne Hall]. split.
  - intros Hk. apply list_elem_of_fmap in Hk as (x & -> & Hx).
    rewrite Forall_forall in Hall. by destruct (Hall x Hx).
  - intros ->. destruct hs as [|x hs]; [done|].
    apply Forall_cons in Hall as [(E & _) _]. simpl. rewrite E. by left.
Qed.

Lemma single_ticker_finite t hs :
  single_ticker t hs -> Forall (fun x => finite (Buy_Price x)) hs.
Proof.
  intros [_ Hall]. eapply Forall_impl; [exact Hall|].
  intros x (_ & _ & Hp). by apply positive_finite.
Qed.

Lemma single_ticker_total t hs :
  single_ticker t hs -> positive_price (cost_total hs).
Proof.
  intros [Hne Hall]. unfold cost_total.
  assert (Forall positive_price (map initial_value hs)) as Hpos.
  { apply Forall_fmap. eapply Forall_impl; [exact Hall|].
    intros x (_ & Hq & Hp). by apply positive_initial_value. }
  rewrite pd_sum_dropna, dropna_finite.
  - apply positive_fsum; [by destruct hs | done].
  - eapply Forall_impl; [exact Hpos|]. apply positive_finite.
Qed.

(** The one ticker carries the whole weight. *)
Lemma single_ticker_weight t hs :
  single_ticker t hs -> fdiv (cost_of t hs) (cost_total hs) = fone.
Proof.
  intros Hs. unfold cost_of. rewrite (single_ticker_filter t hs Hs).
  fold (cost_total hs). destruct (single_ticker_total t hs Hs) as (T & -> & HT).
  simpl. rewrite Qeq_bool_false by lra. apply fin_one. field. lra.
Qed.

Lemma singleton_list (l : list string) t :
  NoDup l -> (forall k, k ∈ l <-> k = t) -> l = [t].
Proof.
  intros Hnd Hl. destruct l as [|x l].
  - exfalso. by apply (not_elem_of_nil t), Hl.
  - assert (x = t) as -> by (apply Hl; by left).
    destruct l as [|y l]; [done|].
    assert (y = t) as -> by (apply Hl; right; by left).
    apply NoDup_cons in Hnd as [Hn _]. destruct Hn. by left.
Qed.

Section Single.
Context `{Pandas} `{HashOrder}.

Lemma single_ticker_state h a b dates prices hs t col :
  h !! a = Some (panel_frame dates prices) ->
  h !! b = Some (holdings_frame hs) ->
  single_ticker t hs -> assoc t prices = Some col ->
  let mask := row_mask (length dates) (map pct_change prices.*2) in
  (run (weights_and_returns a b) h).1
  = Ok ([(t, fone)],
        {| ff_index := keep mask dates;
           ff_columns := [(t, keep mask (pct_change col))] |}).
Proof.
  intros Ha Hb Hs Hcol mask.
  rewrite (weights_and_returns_run h a b dates prices hs Ha Hb).
  fold (aggregated_cost hs).
  rewrite (pd_sum_aggregated hs (single_ticker_finite t hs Hs)).
  set (weights := map (fun kv => (kv.1, fdiv kv.2 (cost_total hs))) (aggregated_cost hs)).
  set (daily := ff_dropna (ff_pct_change {| ff_index := dates; ff_columns := prices |})).
  assert (weights.*1 = (aggregated_cost hs).*1) as Ekeys
    by exact (fst_map_snd (fun v => fdiv v (cost_total hs)) (aggregated_cost hs)).
  assert ((ff_columns daily).*1 = prices.*1) as Ecols
    by exact (daily_returns_columns _ _).
  assert (list_of_set (list_to_set weights.*1 ∩ list_to_set (ff_columns daily).*1) = [t])
    as ->.
  { apply singleton_list; [apply list_of_set_NoDup|].
    intros k. rewrite list_of_set_elem, elem_of_intersection, !elem_of_list_to_set.
    rewrite Ekeys, Ecols, aggregated_cost_keys, (single_ticker_tickers t hs k Hs).
    split; [by intros [? _] | intros ->; split; [done|]].
    apply assoc_Some_elem in Hcol. apply list_elem_of_fmap. by exists (t, col). }
  unfold ff_select. cbn [select].
  assert (assoc t weights = Some fone) as ->.
  { subst weights.
    rewrite (assoc_map (fun v => fdiv v (cost_total hs))), aggregated_cost_assoc.
    rewrite bool_decide_eq_true_2 by by apply (single_ticker_tickers t hs t Hs).
    simpl. by rewrite (single_ticker_weight t hs Hs). }
  assert (assoc t (ff_columns daily) = Some (keep mask (pct_change col))) as ->.
  { subst daily mask. unfold ff_dropna, ff_pct_change. cbn [ff_columns ff_index].
    rewrite (assoc_map (keep _)), (assoc_map pct_change), Hcol. simpl.
    by rewrite (snd_map_snd pct_change prices). }
  subst daily mask. unfold ff_dropna, ff_pct_change. cbn [ff_index ff_columns].
  by rewrite (snd_map_snd pct_change prices).
Qed.

Lemma single_ticker_run h a b dates prices hs t col :
  h !! a = Some (panel_frame dates prices) ->
  h !! b = Some (holdings_frame hs) ->
  single_ticker t hs -> assoc t prices = Some col ->
  let mask := row_mask (length dates) (map pct_change prices.*2) in
  let rets := zip (keep mask dates) (keep mask (pct_change col)) in
  (run (calculate_portfolio_returns a b) h).1
  = Ok (rets, with_index rets (cumprod (map (fadd fone) (s_values rets)))).
Proof.
  intros Ha Hb Hs Hcol mask rets.
  pose proof (single_ticker_state h a b dates prices hs t col Ha Hb Hs Hcol) as Hst.
  unfold calculate_portfolio_returns. rewrite run_bind.
  destruct (run (weights_and_returns a b) h) as [r h'].
  simpl in Hst. subst r. rewrite run_ret. cbn [fst snd].
  assert (col' : pct_change col ∈ map pct_change prices.*2).
  { apply list_elem_of_fmap. exists col. split; [done|].
    apply assoc_Some_elem in Hcol. apply list_elem_of_fmap. by exists (t, col). }
  rewrite ff_sum_single; [done | | |].
  - apply keep_Forall, canon_pct_change.
  - apply keep_Forall_mask. intros i x Hm Hx. by eapply row_mask_true.
  - apply keep_length; [by apply row_mask_length_col | apply row_mask_length_n].
Qed.

End Single.

(** ** A panel without gaps *)

Lemma return_defined prev cur :
  positive_price prev -> positive_price cur ->
  notna (fsub (fdiv cur prev) fone) = true.
Proof.
  intros (p & -> & Hp) (c & -> & _). simpl.
  by rewrite Qeq_bool_false by lra.
Qed.

Lemma returns_defined (l1 l2 : list float) :
  Forall positive_price l1 -> Forall positive_price l2 ->
  (length l2 <= length l1)%nat ->
  map notna (zip_with (fun prev cur => fsub (fdiv cur prev) fone) l1 l2)
  = replicate (length l2) true.
Proof.
  intros H1. revert l2. induction H1 as [|x l1 Hx H1 IH]; intros l2 H2 Hl.
  - destruct l2; [done | simpl in Hl; lia].
  - destruct H2 as [|y l2 Hy H2]; [done|]. cbn [zip_with map length replicate].
    rewrite return_defined by done. rewrite IH; [done | done | simpl in Hl; lia].
Qed.

(** Filling forward changes nothing where nothing is missing. *)
Lemma ffill_from_present last v :
  Forall (fun x => notna x = true) v -> ffill_from last v = v.
Proof.
  intros Hv. revert last. induction Hv as [|x v Hx Hv IH]; intros last; [done|].
  cbn [ffill_from]. destruct x; cbn [is_nan]; try done; by rewrite IH.
Qed.

Lemma ffill_from_length last v : length (ffill_from last v) = length v.
Proof.
  revert last. induction v as [|x v IH]; intros last; [done|].
  cbn [ffill_from]. destruct (is_nan x); cbn [length]; by rewrite IH.
Qed.

Lemma pct_change_complete `{Pandas} dates c :
  complete_column dates c -> pct_change c = period_change c.
Proof.
  intros [_ Hp]. unfold pct_change. destruct pct_change_pads; [|done].
  unfold ffill. rewrite ffill_from_present; [done|].
  eapply Forall_impl; [exact Hp|]. apply positive_notna.
Qed.

Lemma complete_column_mask `{Pandas} dates c :
  complete_column dates c -> map notna (pct_change c) = all_but_first (length dates).
Proof.
  intros Hc. rewrite (pct_change_complete dates c Hc). destruct Hc as [Hl Hp].
  rewrite <- Hl. destruct c as [|x r]; [done|].
  unfold period_change. cbn [map length all_but_first notna is_nan negb]. f_equal.
  apply returns_defined; [done | by apply Forall_cons in Hp as [_ ?] | simpl; lia].
Qed.

Lemma zip_with_andb_true m n :
  (length m <= n)%nat -> zip_with andb m (replicate n true) = m.
Proof.
  revert n. induction m as [|b m IH]; intros [|n] Hn; simpl in *; try done; try lia.
  rewrite IH by lia. by rewrite andb_true_r.
Qed.

Lemma zip_with_andb_diag m : zip_with andb m m = m.
Proof. induction m as [|b m IH]; [done|]. simpl. rewrite IH. by destruct b. Qed.

Lemma complete_panel_mask `{Pandas} dates (cols : list (list float)) :
  cols <> [] -> Forall (complete_column dates) cols ->
  row_mask (length dates) (map pct_change cols) = all_but_first (length dates).
Proof.
  intros Hne Hall. induction Hall as [|c cols Hc Hall IH]; [done|].
  cbn [map]. rewrite row_mask_cons, (complete_column_mask dates c Hc).
  destruct cols as [|c' cols].
  - cbn [map row_mask foldr]. apply zip_with_andb_true.
    destruct (length dates); simpl; rewrite ?length_replicate; lia.
  - rewrite IH by done. apply zip_with_andb_diag.
Qed.

Lemma keep_all {A} (l : list A) n : (length l <= n)%nat -> keep (replicate n true) l = l.
Proof.
  revert n. induction l as [|x l IH]; intros n Hn; [apply keep_nil_r|].
  destruct n as [|n]; [simpl in Hn; lia|].
  cbn [replicate]. rewrite keep_cons. f_equal. apply IH. simpl in Hn. lia.
Qed.

Lemma keep_all_but_first {A} (l : list A) n :
  length l = n -> keep (all_but_first n) l = tail l.
Proof.
  intros <-. destruct l as [|x l]; [done|].
  cbn [length all_but_first tail]. rewrite keep_cons. apply keep_all. lia.
Qed.

Lemma tail_period_change c :
  tail (period_change c) = zip_with (fun prev cur => fsub (fdiv cur prev) fone) c (tail c).
Proof. by destruct c. Qed.

Lemma length_period_change c : length (period_change c) = length c.
Proof.
  destruct c as [|x r]; [done|]. unfold period_change. cbn [length]. f_equal.
  rewrite length_zip_with. cbn [length]. lia.
Qed.

Lemma length_pct_change `{Pandas} c : length (pct_change c) = length c.
Proof.
  unfold pct_change. rewrite length_period_change.
  destruct pct_change_pads; [apply ffill_from_length | done].
Qed.

(** On a panel without gaps the rows kept are the ticker's own returns. *)
Lemma complete_panel_returns `{Pandas} dates (prices : list (string * list float)) t col :
  assoc t prices = Some col ->
  Forall (fun kc => complete_column dates kc.2) prices ->
  let mask := row_mask (length dates) (map pct_change prices.*2) in
  zip (keep mask dates) (keep mask (pct_change col)) = simple_returns dates col.
Proof.
  intros Hcol Hall mask. subst mask.
  assert ((t, col) ∈ prices) as Hin by by apply assoc_Some_elem.
  assert (complete_column dates col) as [Hl Hp].
  { rewrite Forall_forall in Hall. by apply (Hall (t, col)). }
  rewrite complete_panel_mask.
  - rewrite !keep_all_but_first by (done || by rewrite length_pct_change).
    by rewrite (pct_change_complete dates col), tail_period_change.
  - intros E. apply fmap_nil_inv in E. subst prices. by apply elem_of_nil in Hin.
  - by apply Forall_fmap.
Qed.

(** * The claims *)

(** ** Return Series Builder *)

(** C1, as amended.  On a holdings table with finite buy prices and any
    price panel, [calculate_portfolio_returns] reaches line 75 with one
    weight per ticker that is both in the portfolio and a column of the
    panel.  Each weight is the ticker's purchase cost over the purchase cost
    of the whole portfolio, tickers without price history included in the
    total.  The weights sum to 1 when every ticker of the portfolio has a
    column in the panel and the total cost is not zero. *)
Theorem applied_weights_are_cost_shares `{Pandas} `{HashOrder} h a b dates prices hs :
  h !! a = Some (panel_frame dates prices) ->
  h !! b = Some (holdings_frame hs) ->
  Forall (fun x => finite (Buy_Price x)) hs ->
  exists w d,
    (run (weights_and_returns a b) h).1 = Ok (w, d) /\
    NoDup w.*1 /\
    (forall t, t ∈ w.*1 <-> t ∈ map Ticker hs /\ t ∈ prices.*1) /\
    (forall t x, (t, x) ∈ w -> x = fdiv (cost_of t hs) (cost_total hs)) /\
    ((forall t, t ∈ map Ticker hs -> t ∈ prices.*1) ->
     feqb (cost_total hs) fzero = false -> fsum w.*2 = fone).
Proof.
  intros Ha Hb Hfin.
  rewrite (weights_and_returns_run h a b dates prices hs Ha Hb).
  fold (aggregated_cost hs). rewrite (pd_sum_aggregated hs Hfin).
  set (weights := map (fun kv => (kv.1, fdiv kv.2 (cost_total hs))) (aggregated_cost hs)).
  set (daily := ff_dropna (ff_pct_change {| ff_index := dates; ff_columns := prices |})).
  set (common := list_of_set (list_to_set weights.*1 ∩ list_to_set (ff_columns daily).*1)).
  assert (weights.*1 = (aggregated_cost hs).*1) as Ekeys
    by exact (fst_map_snd (fun v => fdiv v (cost_total hs)) (aggregated_cost hs)).
  assert ((ff_columns daily).*1 = prices.*1) as Ecols
    by exact (daily_returns_columns _ _).
  assert (forall t, t ∈ common <-> t ∈ map Ticker hs /\ t ∈ prices.*1) as Hcommon.
  { intros t. subst common. rewrite list_of_set_elem, elem_of_intersection.
    rewrite !elem_of_list_to_set, Ekeys, Ecols, aggregated_cost_keys. done. }
  destruct (select_total weights common) as [w Ew].
  { intros k Hk. apply Hcommon in Hk as [Hk _].
    rewrite Ekeys. by apply aggregated_cost_keys. }
  destruct (select_total (ff_columns daily) common) as [cols Ed].
  { intros k Hk. apply Hcommon in Hk as [_ Hk]. by rewrite Ecols. }
  unfold ff_select. rewrite Ew, Ed.
  destruct (select_Ok _ _ _ Ew) as [Ew1 Ew2].
  exists w, {| ff_index := ff_index daily; ff_columns := cols |}.
  split; [done|]. split; [rewrite Ew1; apply list_of_set_NoDup|].
  split; [intros t; by rewrite Ew1|]. split.
  - intros t x Hin. rewrite Forall_forall in Ew2. specialize (Ew2 _ Hin).
    cbn [fst snd] in Ew2. subst weights.
    rewrite (assoc_map (fun v => fdiv v (cost_total hs))), aggregated_cost_assoc in Ew2.
    assert (t ∈ map Ticker hs) as Ht.
    { apply (Hcommon t). rewrite <- Ew1. apply list_elem_of_fmap. by exists (t, x). }
    rewrite bool_decide_eq_true_2 in Ew2 by done. simpl in Ew2. congruence.
  - intros Hall Hnz.
    assert (common ≡ₚ weights.*1) as Hperm.
    { apply NoDup_Permutation.
      - apply list_of_set_NoDup.
      - rewrite Ekeys. apply sorted_keys_NoDup, aggregated_cost_sorted.
      - intros t. rewrite Hcommon, Ekeys, aggregated_cost_keys.
        split; [by intros [? _] | intros ?; split; [done | by apply Hall]]. }
    pose proof (select_perm weights _ _ Hperm) as Hsel.
    rewrite Ew, select_all in Hsel
      by (rewrite Ekeys; apply sorted_keys_NoDup, aggregated_cost_sorted).
    simpl in Hsel. rewrite (fsum_perm _ _ (fmap_Permutation snd _ _ Hsel)).
    subst weights.
    rewrite (snd_map_snd (fun v => fdiv v (cost_total hs)) (aggregated_cost hs)).
    rewrite <- (aggregated_cost_total hs) in *.
    apply fsum_shares_one; [by apply aggregated_cost_finite | done].
Qed.

(** AAPL and MSFT both have a column: the two weights sum to 1. *)
Lemma applied_weights_witness :
  exists w d,
    (run (@weights_and_returns pandas_3 elements_order 0%nat 1%nat)
         [full_panel; holdings_frame three_lots]).1 = Ok (w, d) /\
    fsum w.*2 = fone.
Proof.
  destruct (@applied_weights_are_cost_shares pandas_3 elements_order
              [full_panel; holdings_frame three_lots] 0%nat 1%nat [1; 2; 3]%Z
              [("AAPL", [Fin 100; Fin 110; Fin 121]); ("MSFT", [Fin 40; Fin 50; Fin 60])]
              three_lots eq_refl eq_refl)
    as (w & d & Hrun & _ & _ & _ & Hsum).
  - unfold three_lots, finite. repeat (constructor; [by eexists|]). constructor.
  - exists w, d. split; [exact Hrun|]. apply Hsum; [|reflexivity].
    intros t. cbn. rewrite !elem_of_cons. tauto.
Defined.

(** C1 as stated fails: MSFT has no price history, AAPL is the only ticker
    with one, and the weight applied to AAPL is its cost share 2/3, not 1. *)
Lemma applied_weights_counterexample :
  (run (@weights_and_returns pandas_3 elements_order 0%nat 1%nat)
       [aapl_panel; holdings_frame three_lots]).1
  = Ok ([("AAPL", Fin (2 # 3))],
        {| ff_index := [2; 3]%Z;
           ff_columns := [("AAPL", [Fin (1 # 10); Fin (1 # 10)])] |}) /\
  (run (@weights_and_returns pandas_2 elements_order 0%nat 1%nat)
       [aapl_panel; holdings_frame three_lots]).1
  = Ok ([("AAPL", Fin (2 # 3))],
        {| ff_index := [2; 3]%Z;
           ff_columns := [("AAPL", [Fin (1 # 10); Fin (1 # 10)])] |}).
Proof. split; vm_compute; reflexivity. Qed.

(** ** Risk metrics *)

(** C2, at the failing inputs.  On an empty Series and on a Series of one
    observation [annualized_volatility] returns NaN, whatever
    [periods_per_year] is: [Series.std()] is NaN there and nothing guards
    it. *)
Theorem annualized_volatility_short_series `{Numeric} (d : Z) (x ppy : float) :
  annualized_volatility [] ppy = NaN /\
  annualized_volatility [(d, x)] ppy = NaN.
Proof.
  unfold annualized_volatility. split; by rewrite pd_std_short by (simpl; lia).
Qed.

(** With two observations or more the volatility is the sample standard
    deviation times the square root of [periods_per_year]. *)
Lemma annualized_volatility_two_or_more `{Numeric} (r : list (Z * Q)) (ppy : float) :
  (2 <= length r)%nat ->
  let v := map Fin r.*2 in
  let mean := fdiv (fsum v) (of_nat (length v)) in
  annualized_volatility (finite_series r) ppy
  = fmul (np_sqrt (fdiv (fsum (map (fun x => fsq (fsub mean x)) v))
                        (of_nat (length v - 1))))
         (np_sqrt ppy).
Proof.
  intros Hl v mean. subst v mean. unfold annualized_volatility, pd_std, pd_var.
  rewrite finite_series_values, dropna_finite by apply Forall_finite_Fin.
  assert (length (map Fin r.*2) = length r) as El by by rewrite !length_map.
  destruct (Nat.leb_spec (length (map Fin r.*2)) 1); [lia | done].
Qed.

(** C3, as amended.  On a valued-holdings table with numeric columns
    [portfolio_summary] returns, without raising and without touching the
    store, the sum of the Total_Cost entries that are present, the sum of
    the Current_Value entries that are present (each column over its own
    entries, so a holding without a current price counts in the first and
    not in the second), and [(total_value - total_invested) /
    total_invested * 100]; when the total invested is zero that last figure
    is not a finite number (NaN, or an infinity when the value is not
    zero).  On the table without rows the application starts from, valued
    by [calculate_portfolio_values], both sums are the Python integer 0 and
    the division raises [ZeroDivisionError]. *)
Theorem portfolio_summary_column_sums :
  (forall h p vs,
     h !! p = Some (valued_frame vs) ->
     let total_invested := fsum (dropna (map Total_Cost vs)) in
     let total_value := fsum (dropna (map Current_Value vs)) in
     let total_return_pct :=
       fmul (fdiv (fsub total_value total_invested) total_invested) (of_Z 100) in
     run (portfolio_summary p) h
       = (Ok (total_invested, total_value, total_return_pct), h) /\
     (feqb total_invested fzero = true -> is_finite total_return_pct = false)) /\
  (forall h p prices,
     h !! p = Some empty_portfolio ->
     run (calculate_portfolio_values p prices ≫= portfolio_summary) h
       = (Raise ZeroDivisionError, h ++ [empty_valued])).
Proof.
  split.
  - intros h p vs Hp ti tv tr. split.
    + by apply portfolio_summary_run.
    + apply fdiv_zero_not_finite.
  - intros h p prices Hp. by apply empty_portfolio_summary.
Qed.

(** The example of the specification, a table of zero cost, and the empty
    table. *)
Lemma portfolio_summary_column_sums_witness :
  run (portfolio_summary 0%nat)
      [valued_frame (map (value_holding {[ "AAPL" := Fin 150 ]}) [lot_of "AAPL" 10 100])]
    = (Ok (Fin 1000, Fin 1500, Fin 50),
       [valued_frame (map (value_holding {[ "AAPL" := Fin 150 ]}) [lot_of "AAPL" 10 100])])
  /\ (run (portfolio_summary 0%nat)
        [valued_frame (map (value_holding {[ "AAPL" := Fin 150 ]}) [lot_of "AAPL" 10 0])]).1
     = Ok (Fin 0, Fin 1500, PInf)
  /\ (run (calculate_portfolio_values 0%nat ∅ ≫= portfolio_summary) [empty_portfolio]).1
     = Raise ZeroDivisionError.
Proof.
  split; [|split].
  - exact (proj1 (proj1 portfolio_summary_column_sums
             [valued_frame (map (value_holding {[ "AAPL" := Fin 150 ]}) [lot_of "AAPL" 10 100])]
             0%nat
             (map (value_holding {[ "AAPL" := Fin 150 ]}) [lot_of "AAPL" 10 100])
             eq_refl)).
  - exact (f_equal fst (proj1 (proj1 portfolio_summary_column_sums
             [valued_frame (map (value_holding {[ "AAPL" := Fin 150 ]}) [lot_of "AAPL" 10 0])]
             0%nat
             (map (value_holding {[ "AAPL" := Fin 150 ]}) [lot_of "AAPL" 10 0])
             eq_refl))).
  - exact (f_equal fst (proj2 portfolio_summary_column_sums [empty_portfolio] 0%nat ∅ eq_refl)).
Defined.

(** C3 as stated fails.  With a price for AAPL and none for MSFT the MSFT
    row has a cost and no value: the code counts its cost, so that the
    total invested is 2000 where the valid rows sum to 1000, and the return
    is -25% where the totals over the valid rows give +50%.  And on the
    empty portfolio the summary raises [ZeroDivisionError]. *)
Lemma portfolio_summary_counterexample :
  (run (calculate_portfolio_values 0%nat {[ "AAPL" := Fin 150 ]} ≫= portfolio_summary)
       [holdings_frame two_lots]).1
  = Ok (Fin 2000, Fin 1500, Fin (-25)) /\
  invested_over_valid_rows (map (value_holding {[ "AAPL" := Fin 150 ]}) two_lots)
  = Fin 1000 /\
  value_over_valid_rows (map (value_holding {[ "AAPL" := Fin 150 ]}) two_lots)
  = Fin 1500 /\
  (run (calculate_portfolio_values 0%nat ∅ ≫= portfolio_summary) [empty_portfolio]).1
  = Raise ZeroDivisionError.
Proof. repeat split; vm_compute; reflexivity. Qed.

Section SharpeGuard.
Import PrimFloat.
#[local] Open Scope float_scope.
#[local] Set Warnings "-inexact-float".

(** C4, at the failing inputs.  The guard [excess_returns.std() == 0] is
    meant to return 0 on a Series without dispersion, and misses it twice.
    On one observation, a Series whose elements are all identical, the
    deviation is NaN, the comparison with 0 is false and the ratio is NaN,
    whatever the return and the rates are (a zero [periods_per_year] raises
    before that).  On ten returns of 1% with the default rates, in doubles,
    the mean of the excess returns is rounded, the deviation is a residue
    of the order of 1e-18 and not 0, and the ratio is about 8.6e16; on
    three such returns the roundings cancel and the guard returns 0. *)
Theorem sharpe_ratio_guard_misses `{Numeric} :
  (forall d x rf ppy,
     sharpe_ratio [(d, x)] rf ppy
     = match py_truediv rf ppy with
       | Ok _ => Ok NaN
       | Raise e => Raise e
       end) /\
  Binary64.sharpe_ratio
    (Binary64.constant_series 0.01 [1; 2; 3; 4; 5; 6; 7; 8; 9; 10]%Z) 0.02 252
  = Ok 8.612529791393488e16 /\
  Binary64.sharpe_ratio (Binary64.constant_series 0.01 [1; 2; 3]%Z) 0.02 252
  = Ok 0.
Proof.
  split; [|split].
  - intros d x rf ppy. unfold sharpe_ratio.
    destruct (py_truediv rf ppy) as [per|e]; [|done].
    rewrite pd_std_short by (simpl; lia). cbn [feqb].
    by destruct (pd_mean _), (np_sqrt ppy).
  - vm_compute. reflexivity.
  - vm_compute. reflexivity.
Qed.

End SharpeGuard.

(** C5, as amended.  The three measures return 0 on a Series of fewer than
    two observations, at any confidence level.  On a Series of finite
    values with two observations or more, the historical VaR and the CVaR
    return a value that is at least 0 when the confidence level lies in
    [0, 1], and so does the parametric VaR when the normal quantile at
    [1 - confidence_level] is finite. *)
Theorem value_at_risk_nonnegative `{Numeric} :
  (forall returns cl,
     (length returns < 2)%nat ->
     value_at_risk_historical returns cl = Ok fzero /\
     value_at_risk_parametric returns cl = fzero /\
     conditional_value_at_risk returns cl = Ok fzero) /\
  (forall r cl,
     (2 <= length r)%nat -> 0 <= cl <= 1 ->
     (exists v, value_at_risk_historical (finite_series r) (Fin cl) = Ok v /\ fle fzero v) /\
     (exists v, conditional_value_at_risk (finite_series r) (Fin cl) = Ok v /\ fle fzero v)) /\
  (forall r cl,
     (2 <= length r)%nat -> finite (norm_ppf (fsub fone (Fin cl))) ->
     fle fzero (value_at_risk_parametric (finite_series r) (Fin cl))).
Proof.
  split; [|split].
  - intros returns cl Hl. by apply value_at_risk_short.
  - intros r cl Hl Hcl. split.
    + by apply value_at_risk_historical_nonneg.
    + by apply conditional_value_at_risk_nonneg.
  - intros r cl Hl Hz. by apply value_at_risk_parametric_nonneg.
Qed.

(** The five returns of the specification's example at 95%. *)
Lemma value_at_risk_nonnegative_witness :
  (exists v, value_at_risk_historical (finite_series five_returns) (Fin (19 # 20)) = Ok v
             /\ fle fzero v) /\
  fle fzero (@value_at_risk_parametric table_numeric (finite_series five_returns)
               (Fin (19 # 20))).
Proof.
  split.
  - apply (proj1 (proj2 (@value_at_risk_nonnegative table_numeric)) five_returns (19 # 20)).
    + simpl. lia.
    + split; discriminate.
  - apply (proj2 (proj2 (@value_at_risk_nonnegative table_numeric)) five_returns (19 # 20)).
    + simpl. lia.
    + eexists. vm_compute. reflexivity.
Defined.

(** C5 as stated fails: at a confidence level of 1.5 the percentile rank is
    -50 and [np.percentile] raises, and the normal quantile at -0.5 is NaN;
    with a missing observation the percentile, and the VaR, is NaN. *)
Lemma value_at_risk_counterexample :
  value_at_risk_historical (finite_series five_returns) (Fin (3 # 2)) = Raise ValueError /\
  conditional_value_at_risk (finite_series five_returns) (Fin (3 # 2)) = Raise ValueError /\
  @value_at_risk_parametric table_numeric (finite_series five_returns) (Fin (3 # 2)) = NaN /\
  value_at_risk_historical [(1%Z, NaN); (2%Z, Fin (1 # 100))] (Fin (19 # 20)) = Ok NaN.
Proof. repeat split; vm_compute; reflexivity. Qed.

Section BetaGuard.
Import PrimFloat.
#[local] Open Scope float_scope.
#[local] Set Warnings "-inexact-float".

(** C6, at the failing input.  The guard [benchmark_variance == 0] is
    meant to return the neutral beta 1.0 on a benchmark without variance.
    On three benchmark returns of 0.1, in doubles, the mean is rounded one
    unit in the last place above 0.1, the variance is the residue
    [1.5 * 2^-112] and not 0, the guard does not fire and the quotient of
    the two residues is returned: 2.0 against three portfolio returns of
    0.2.  On a benchmark of zero returns the variance is 0 and the guard
    returns 1.0. *)
Theorem calculate_beta_guard_misses :
  Binary64.pd_var [0.1; 0.1; 0.1] = 0x1.8p-112 /\
  Binary64.calculate_beta
    (Binary64.constant_series 0.2 [1; 2; 3]%Z)
    (Binary64.constant_series 0.1 [1; 2; 3]%Z) = 2 /\
  Binary64.calculate_beta
    (Binary64.constant_series 0.2 [1; 2; 3]%Z)
    (Binary64.constant_series 0 [1; 2; 3]%Z) = 1.
Proof. repeat split; vm_compute; reflexivity. Qed.

End BetaGuard.

(** C7, as amended.  On a Series of finite returns the value of
    [calculate_drawdown_series] at position [t] is
    [(cumulative[t] - running_max[t]) / running_max[t]], with [cumulative]
    the running product of [1 + return] and [running_max] its running
    maximum; when the first return is above -1 (so that the running peak is
    positive) every value is at most 0; and on every Series [max_drawdown]
    is the least value present in [calculate_drawdown_series]. *)
Theorem drawdown_nonpositive :
  (forall r : list (Z * Q),
     calculate_drawdown_series (finite_series r)
     = zip r.*1 (map (drawdown_at r.*2) (seq 0 (length r)))) /\
  (forall r : list (Z * Q),
     (forall d x, head r = Some (d, x) -> -1 < x) ->
     Forall (fun x => fle x fzero)
       (s_values (calculate_drawdown_series (finite_series r)))) /\
  (forall returns : Series,
     max_drawdown returns = pd_min (s_values (calculate_drawdown_series returns))).
Proof.
  split; [|split].
  - apply drawdown_series_spec.
  - intros r Hhead. by apply drawdown_values_nonpos.
  - reflexivity.
Qed.

(** The example of the specification: the deepest drawdown is -2%. *)
Lemma drawdown_nonpositive_witness :
  Forall (fun x => fle x fzero)
    (s_values (calculate_drawdown_series (finite_series five_returns))) /\
  max_drawdown (finite_series five_returns) = Fin (-1 # 50).
Proof.
  split.
  - apply (proj1 (proj2 drawdown_nonpositive) five_returns).
    intros d x [= <- <-]. reflexivity.
  - rewrite (proj2 (proj2 drawdown_nonpositive)). vm_compute. reflexivity.
Defined.

(** C7 as stated fails: after a return of -200% the cumulative value and
    its running peak are negative and a further fall gives a drawdown of
    +50%; after a return of -100% the peak is 0 and the drawdown is NaN. *)
Lemma drawdown_counterexample :
  calculate_drawdown_series [(1%Z, Fin (-2)); (2%Z, Fin (1 # 2))]
    = [(1%Z, Fin 0); (2%Z, Fin (1 # 2))] /\
  fleb (Fin (1 # 2)) fzero = false /\
  calculate_drawdown_series [(1%Z, Fin (-1)); (2%Z, Fin 0)] = [(1%Z, NaN); (2%Z, NaN)].
Proof. repeat split; vm_compute; reflexivity. Qed.

(** C8, as amended.  For a portfolio of one ticker (one or several lots,
    positive quantities and buy prices) that has a column in the panel, the
    portfolio return series is that ticker's column of [pct_change()] on
    the dates [dropna] keeps.  The column of [pct_change()] is
    [filled[t] / filled[t-1] - 1], the first entry missing, where [filled]
    is the price column itself from pandas 3 on and, up to pandas 2, the
    price column with every gap filled by the last price before it.  The
    dates kept are those on which the [pct_change()] of every column of the
    panel, not this ticker's alone, is present.  When every column of the
    panel has a positive finite price on every date, the series is the
    ticker's simple return series, the first period dropped. *)
Theorem single_ticker_returns `{Pandas} `{HashOrder} h a b dates prices hs t col :
  h !! a = Some (panel_frame dates prices) ->
  h !! b = Some (holdings_frame hs) ->
  single_ticker t hs ->
  assoc t prices = Some col ->
  let filled (v : list float) := if pct_change_pads then ffill v else v in
  let returns_of (v : list float) := period_change (filled v) in
  let mask := row_mask (length dates) (map returns_of prices.*2) in
  let rets := zip (keep mask dates) (keep mask (returns_of col)) in
  (run (calculate_portfolio_returns a b) h).1
    = Ok (rets, with_index rets (cumprod (map (fadd fone) (s_values rets)))) /\
  (Forall (fun kc => complete_column dates kc.2) prices ->
   rets = simple_returns dates col).
Proof.
  intros Ha Hb Hs Hcol filled returns_of mask rets. split.
  - by apply (single_ticker_run h a b dates prices hs t col).
  - intros Hall. by apply (complete_panel_returns dates prices t col).
Qed.

(** Two lots of AAPL on a panel of AAPL and MSFT without gaps. *)
Lemma single_ticker_returns_witness :
  (run (@calculate_portfolio_returns pandas_3 elements_order 0%nat 1%nat)
       [full_panel; holdings_frame aapl_lots]).1
  = Ok (simple_returns [1; 2; 3]%Z [Fin 100; Fin 110; Fin 121],
        [(2%Z, Fin (11 # 10)); (3%Z, Fin (121 # 100))]).
Proof.
  destruct (@single_ticker_returns pandas_3 elements_order
              [full_panel; holdings_frame aapl_lots] 0%nat 1%nat [1; 2; 3]%Z
              [("AAPL", [Fin 100; Fin 110; Fin 121]); ("MSFT", [Fin 40; Fin 50; Fin 60])]
              aapl_lots "AAPL" [Fin 100; Fin 110; Fin 121] eq_refl eq_refl)
    as [Hrun _].
  - split; [done|]. unfold aapl_lots.
    repeat (constructor; [split; [done|]; split; [done|]; eexists; split; [done|]; reflexivity|]).
    constructor.
  - reflexivity.
  - exact Hrun.
Defined.

(** C8 as stated fails.  GOOG, which the portfolio does not hold, has no
    price on the first date, so no return on the second: the portfolio
    series then starts on the third date, while AAPL's own return series
    starts on the second.  And with AAPL alone in the panel and no price on
    the second date, AAPL's simple returns on the second and the third date
    are undefined: from pandas 3 on the portfolio series has the fourth date
    only, and up to pandas 2 it has a return of 0 on the second date and of
    +50% on the third, computed on the filled column. *)
Lemma single_ticker_counterexample :
  (run (@calculate_portfolio_returns pandas_3 elements_order 0%nat 1%nat)
       [gap_panel; holdings_frame aapl_lots]).1
  = Ok ([(3%Z, Fin (1 # 10))], [(3%Z, Fin (11 # 10))]) /\
  (run (@calculate_portfolio_returns pandas_2 elements_order 0%nat 1%nat)
       [gap_panel; holdings_frame aapl_lots]).1
  = Ok ([(3%Z, Fin (1 # 10))], [(3%Z, Fin (11 # 10))]) /\
  simple_returns [1; 2; 3]%Z [Fin 100; Fin 110; Fin 121]
  = [(2%Z, Fin (1 # 10)); (3%Z, Fin (1 # 10))] /\
  (run (@calculate_portfolio_returns pandas_3 elements_order 0%nat 1%nat)
       [hole_panel; holdings_frame aapl_lots]).1
  = Ok ([(4%Z, Fin (-1 # 2))], [(4%Z, Fin (1 # 2))]) /\
  (run (@calculate_portfolio_returns pandas_2 elements_order 0%nat 1%nat)
       [hole_panel; holdings_frame aapl_lots]).1
  = Ok ([(2%Z, Fin 0); (3%Z, Fin (1 # 2)); (4%Z, Fin (-1 # 2))],
        [(2%Z, Fin 1); (3%Z, Fin (3 # 2)); (4%Z, Fin (3 # 4))]) /\
  simple_returns [1; 2; 3; 4]%Z [Fin 100; NaN; Fin 150; Fin 75]
  = [(2%Z, NaN); (3%Z, NaN); (4%Z, Fin (-1 # 2))].
Proof. repeat split; vm_compute; reflexivity. Qed.

(** ** Valuation Calculator *)

(** C9.  On any holdings table and any price map
    [calculate_portfolio_values] returns, without raising, a new table with
    one row per holding in the order of the input: the holding and its
    derived fields.  In a row whose ticker the price map lacks the current
    price, the current value, the gain and the return are NaN; in a row
    whose ticker it has they follow the formulas of the data model. *)
Theorem calculate_portfolio_values_rows h p hs prices :
  h !! p = Some (holdings_frame hs) ->
  let rows := map (value_holding prices) hs in
  run (calculate_portfolio_values p prices) h
    = (Ok (length h), h ++ [valued_frame rows]) /\
  map lot rows = hs /\
  (forall v, v ∈ rows -> prices !! Ticker (lot v) = None ->
     Current_Price v = NaN /\ Current_Value v = NaN /\
     Gain_Loss v = NaN /\ Return_pct v = NaN) /\
  (forall v c, v ∈ rows -> prices !! Ticker (lot v) = Some c ->
     Current_Price v = c /\
     Total_Cost v = fmul (of_Z (Quantity (lot v))) (Buy_Price (lot v)) /\
     Current_Value v = fmul (of_Z (Quantity (lot v))) c /\
     Gain_Loss v = fsub (Current_Value v) (Total_Cost v) /\
     Return_pct v = fmul (fdiv (Gain_Loss v) (Total_Cost v)) (of_Z 100)).
Proof.
  intros Hp rows. split; [by apply calculate_portfolio_values_run|]. split; [|split].
  - subst rows. rewrite !map_fmap, <- list_fmap_compose. apply list_fmap_id.
  - intros v Hv Hnone. subst rows.
    apply list_elem_of_fmap in Hv as (x & -> & _). simpl in *.
    rewrite Hnone. simpl. unfold of_Z, fin. done.
  - intros v c Hv Hsome. subst rows.
    apply list_elem_of_fmap in Hv as (x & -> & _). simpl in *.
    by rewrite Hsome.
Qed.

(** Three lots, a price for AAPL only: the MSFT row is flagged, the AAPL
    rows are valued. *)
Lemma calculate_portfolio_values_witness :
  (run (calculate_portfolio_values 0%nat {[ "AAPL" := Fin 150 ]})
       [holdings_frame three_lots]).1 = Ok 1%nat /\
  map Return_pct (map (value_holding {[ "AAPL" := Fin 150 ]}) three_lots)
  = [Fin 50; NaN; Fin 50].
Proof.
  split.
  - exact (f_equal fst (proj1 (calculate_portfolio_values_rows
             [holdings_frame three_lots] 0%nat three_lots {[ "AAPL" := Fin 150 ]}
             eq_refl))).
  - vm_compute. reflexivity.
Defined.

(** ** Purity *)

(** C10.  Whatever [calculate_portfolio_values] and
    [calculate_portfolio_returns] do, return or raise, the store after the
    call begins with the store before it: every object that existed, the
    holdings table and the price panel among them, is unchanged.  Each is a
    function of its inputs, and the result of
    [calculate_portfolio_returns] does not depend on the order in which the
    set of common tickers is listed. *)
Theorem inputs_unchanged_and_deterministic :
  (forall h p prices,
     take (length h) (run (calculate_portfolio_values p prices) h).2 = h) /\
  (forall (P : Pandas) (O : HashOrder) h a b,
     take (length h) (run (calculate_portfolio_returns a b) h).2 = h) /\
  (forall (P : Pandas) (O1 O2 : HashOrder) h a b,
     run (@calculate_portfolio_returns P O1 a b) h
     = run (@calculate_portfolio_returns P O2 a b) h).
Proof.
  split; [|split].
  - intros h p prices.
    destruct (calculate_portfolio_values_keeps h p prices h) as [[k ->] _]; [done|].
    apply take_app_length.
  - intros P O h a b.
    destruct (calculate_portfolio_returns_keeps h a b h) as [[k ->] _]; [done|].
    apply take_app_length.
  - intros P O1 O2 h a b. apply calculate_portfolio_returns_any_order.
Qed.

(** * Further properties of the code *)

(** ** The range of the drawdown *)

Lemma drawdown_value_range c m :
  0 < m -> 0 <= c -> c <= m ->
  in_range (-1) 0 (fdiv (fsub (Fin c) (Fin m)) (Fin m)).
Proof.
  intros Hm H0 Hc. unfold fsub. simpl.
  rewrite Qeq_bool_false by (intros E; rewrite E in Hm; by apply Qlt_irrefl in Hm).
  eexists. split; [reflexivity|].
  rewrite !Qred_correct. split.
  - apply Qle_shift_div_l; [done|]. lra.
  - apply Qle_shift_div_r; [done|]. lra.
Qed.

Lemma drawdown_tail_range (v : list Q) : forall acc m,
  0 < m -> 0 <= acc -> Forall (fun q => -1 <= q) v ->
  Forall (in_range (-1) 0)
    (zip_with (fun c m => fdiv (fsub c m) m)
       (cumprod_from (Fin acc) (map growth v))
       (expanding_max_from (Some (Fin m)) (cumprod_from (Fin acc) (map growth v)))).
Proof.
  induction v as [|q v IH]; intros acc m Hm Hacc Hv; [constructor|].
  apply Forall_cons in Hv as [Hq Hv].
  simpl. unfold fmax. simpl.
  assert (0 <= Qred (acc * Qred (1 + q))) as Hnew.
  { rewrite !Qred_correct. apply Qmult_le_0_compat; lra. }
  destruct (Qle_bool m (Qred (acc * Qred (1 + q)))) eqn:E; simpl.
  - apply Qle_bool_iff in E.
    assert (0 < Qred (acc * Qred (1 + q))) as Hpos by lra.
    constructor; [apply drawdown_value_range; [done | done | lra]|].
    by apply IH.
  - assert (Qred (acc * Qred (1 + q)) <= m) as Hle.
    { destruct (Qlt_le_dec m (Qred (acc * Qred (1 + q)))) as [L|L]; [|done].
      apply Qlt_le_weak, Qle_bool_iff in L. congruence. }
    constructor; [by apply drawdown_value_range|].
    by apply IH.
Qed.

Lemma drawdown_values_range (r : list (Z * Q)) :
  (forall d x, head r = Some (d, x) -> -1 < x) ->
  Forall (fun dq => -1 <= dq.2) r ->
  Forall (in_range (-1) 0) (s_values (calculate_drawdown_series (finite_series r))).
Proof.
  intros Hhead Hall. unfold calculate_drawdown_series, with_index, s_values at 1.
  apply Forall_zip_snd. unfold finite_series. rewrite values_of_finite.
  destruct r as [|[d x] r]; [constructor|].
  specialize (Hhead d x eq_refl). apply Forall_cons in Hall as [_ Hall].
  unfold cumprod, expanding_max. simpl.
  assert (0 < Qred (1 * Qred (1 + x))) as Hpos.
  { rewrite !Qred_correct. lra. }
  constructor; [apply drawdown_value_range; [done | lra | lra]|].
  apply drawdown_tail_range; [done | lra |].
  rewrite Forall_fmap. by eapply Forall_impl.
Qed.

(** The order of the doubles that are not NaN. *)
Lemma Qle_bool_total a b : Qle_bool a b = false -> Qle_bool b a = true.
Proof.
  intros E. apply Qle_bool_iff.
  destruct (Qlt_le_dec a b) as [L|L]; [|done].
  apply Qlt_le_weak, Qle_bool_iff in L. congruence.
Qed.

Lemma fleb_refl x : notna x = true -> fleb x x = true.
Proof. destruct x; try done. intros _. apply Qle_bool_iff, Qle_refl. Qed.

Lemma fleb_trans u v w : fleb u v = true -> fleb v w = true -> fleb u w = true.
Proof.
  destruct u, v, w; simpl; try done.
  rewrite !Qle_bool_iff. apply Qle_trans.
Qed.

Lemma fleb_total x y :
  notna x = true -> notna y = true -> fleb x y = false -> fleb y x = true.
Proof.
  destruct x, y; simpl; try done. intros _ _. apply Qle_bool_total.
Qed.

(** The least entry of a list of values is one of them and bounds them
    all. *)
Lemma foldl_fmin_spec (l : list float) : forall x,
  notna x = true -> Forall (fun y => notna y = true) l ->
  foldl fmin x l ∈ x :: l /\
  fle (foldl fmin x l) x /\ Forall (fun y => fle (foldl fmin x l) y) l.
Proof.
  induction l as [|y l IH]; intros x Hx Hl.
  - simpl. split; [by left|]. split; [by apply fleb_refl | constructor].
  - apply Forall_cons in Hl as [Hy Hl]. cbn [foldl].
    assert (notna (fmin x y) = true) as Hf.
    { unfold fmin. by destruct (fleb _ _). }
    destruct (IH _ Hf Hl) as (Hin & Hle & Hall).
    assert (fle (fmin x y) x /\ fle (fmin x y) y) as [Ha Hb].
    { unfold fmin, fle. destruct (fleb x y) eqn:E.
      - split; [by apply fleb_refl | done].
      - split; [by apply fleb_total | by apply fleb_refl]. }
    split; [|split].
    + apply elem_of_cons in Hin as [-> | Hin].
      * unfold fmin. destruct (fleb _ _); [by left | right; by left].
      * right. by right.
    + by eapply fleb_trans.
    + constructor; [by eapply fleb_trans | done].
Qed.

Lemma pd_min_present (l : list float) :
  dropna l <> [] ->
  pd_min l ∈ dropna l /\ Forall (fun y => fle (pd_min l) y) (dropna l).
Proof.
  intros Hne. unfold pd_min.
  assert (Forall (fun y => notna y = true) (dropna l)) as Hl
    by (apply Forall_forall; intros y Hy; by apply list_elem_of_filter in Hy as [? _]).
  destruct (dropna l) as [|x xs]; [done|].
  apply Forall_cons in Hl as [Hx Hl].
  destruct (foldl_fmin_spec xs x Hx Hl) as (Hin & Hle & Hall).
  split; [done|]. by constructor.
Qed.

Lemma pd_min_spec (l : list float) :
  Forall finite l -> l <> [] ->
  pd_min l ∈ l /\ Forall (fun y => fle (pd_min l) y) l.
Proof.
  intros Hl Hne.
  destruct (pd_min_present l) as [A B]; [by rewrite dropna_finite|].
  by rewrite dropna_finite in A, B.
Qed.

Lemma in_range_finite lo hi x : in_range lo hi x -> finite x.
Proof. intros (q & -> & _). by eexists. Qed.

(** ** A rising series *)

Lemma no_drawdown_tail (v : list Q) : forall acc,
  0 < acc -> Forall (fun q => 0 <= q) v ->
  zip_with (fun c m => fdiv (fsub c m) m)
    (cumprod_from (Fin acc) (map growth v))
    (expanding_max_from (Some (Fin acc)) (cumprod_from (Fin acc) (map growth v)))
  = replicate (length v) fzero.
Proof.
  induction v as [|q v IH]; intros acc Hacc Hv; [done|].
  apply Forall_cons in Hv as [Hq Hv].
  simpl. unfold fmax. simpl.
  assert (acc <= Qred (acc * Qred (1 + q))) as Hup.
  { rewrite !Qred_correct. nra. }
  assert (Qle_bool acc (Qred (acc * Qred (1 + q))) = true) as ->
    by by apply Qle_bool_iff.
  simpl. f_equal.
  - unfold fsub. simpl.
    rewrite Qeq_bool_false by (intros E; rewrite E in Hup; lra).
    apply fin_zero. rewrite !Qred_correct. field. split; intros E; lra.
  - apply IH; [lra | done].
Qed.

Lemma no_drawdown_values (r : list (Z * Q)) :
  Forall (fun dq => 0 <= dq.2) r ->
  s_values (calculate_drawdown_series (finite_series r)) = replicate (length r) fzero.
Proof.
  intros Hall. unfold calculate_drawdown_series, with_index.
  change (map (fadd fone) (s_values (finite_series r)))
    with (map (fadd fone) (s_values (map (fun dq => (dq.1, Fin dq.2)) r))).
  rewrite values_of_finite.
  assert (length (s_index (finite_series r)) = length r) as Hlen.
  { unfold s_index, finite_series. by rewrite length_fmap, length_map. }
  destruct r as [|[d x] r]; [done|].
  apply Forall_cons in Hall as [Hx Hall]. cbn [fst snd] in Hx.
  unfold cumprod, expanding_max.
  cbn [fmap list_fmap map cumprod_from expanding_max_from fst snd].
  change (is_nan (growth x)) with false. cbn match.
  change (fmul fone (growth x)) with (Fin (Qred (1 * Qred (1 + x)))).
  cbn [expanding_max_from is_nan default zip_with].
  assert (0 < Qred (1 * Qred (1 + x))) as Hpos.
  { rewrite !Qred_correct. lra. }
  rewrite no_drawdown_tail; [|done|by rewrite Forall_fmap].
  unfold s_values. rewrite snd_zip.
  - cbn [replicate length]. f_equal; [|by rewrite length_fmap].
    unfold fsub. simpl.
    rewrite Qeq_bool_false by (intros E; rewrite E in Hpos; lra).
    apply fin_zero. rewrite !Qred_correct. field. intros E. lra.
  - rewrite Hlen. cbn [length]. by rewrite length_replicate, length_fmap.
Qed.

(** ** Sums and means of finite values *)

Lemma finite_list (l : list float) : Forall finite l -> exists qs, l = map Fin qs.
Proof.
  induction 1 as [|x l [q ->] _ [qs ->]]; [by exists []|]. by exists (q :: qs).
Qed.

Lemma fsum_Fin qs : fsum (map Fin qs) = fin (Qsum qs).
Proof.
  induction qs as [|q qs IH]; [done|].
  cbn [map fsum foldr Qsum]. fold (fsum (map Fin qs)). rewrite IH.
  fold (Qsum qs). unfold fadd, fin at 1. apply fin_eq. by rewrite Qred_correct.
Qed.

Lemma Qsum_bounds lo hi qs :
  Forall (fun q => lo <= q <= hi) qs ->
  inject_Z (Z.of_nat (length qs)) * lo <= Qsum qs <= inject_Z (Z.of_nat (length qs)) * hi.
Proof.
  induction 1 as [|q qs [Hlo Hhi] _ [IHlo IHhi]].
  { change (inject_Z (Z.of_nat (length (@nil Q)))) with 0. cbn [Qsum foldr]. lra. }
  cbn [length Qsum foldr]. fold (Qsum qs).
  rewrite Nat2Z.inj_succ, <- Z.add_1_r, inject_Z_plus.
  change (inject_Z 1) with 1. set (n := inject_Z (Z.of_nat (length qs))) in *.
  split; nra.
Qed.

Lemma fdiv_Fin_nat s n :
  (0 < n)%nat -> fdiv (fin s) (of_nat n) = fin (s / inject_Z (Z.of_nat n)).
Proof.
  intros Hn. rewrite of_nat_Fin. unfold fin at 1, fdiv.
  rewrite inject_Z_nat_nonzero by done. apply fin_eq. by rewrite Qred_correct.
Qed.

Lemma pd_mean_Fin qs :
  qs <> [] ->
  pd_mean (map Fin qs) = fin (Qsum qs / inject_Z (Z.of_nat (length qs))).
Proof.
  intros Hne. unfold pd_mean. rewrite dropna_finite by apply Forall_finite_Fin.
  destruct qs as [|q qs]; [done|].
  change (match map Fin (q :: qs) with [] => NaN | _ :: _ =>
            fdiv (fsum (map Fin (q :: qs))) (of_nat (length (map Fin (q :: qs)))) end)
    with (fdiv (fsum (map Fin (q :: qs))) (of_nat (length (map Fin (q :: qs))))).
  rewrite fsum_Fin, length_map. apply fdiv_Fin_nat. simpl. lia.
Qed.

Lemma pd_mean_range lo hi (l : list float) :
  l <> [] -> Forall (in_range lo hi) l -> in_range lo hi (pd_mean l).
Proof.
  intros Hne Hl.
  assert (exists qs, l = map Fin qs /\ Forall (fun q => lo <= q <= hi) qs) as (qs & -> & Hqs).
  { clear Hne. induction Hl as [|x l (q & -> & Hq) _ (qs & -> & Hqs)]; [by exists []|].
    exists (q :: qs). split; [done | by constructor]. }
  assert (qs <> []) as Hq by (intros ->; done).
  rewrite pd_mean_Fin by done. eexists. split; [reflexivity|].
  rewrite Qred_correct.
  destruct (Qsum_bounds lo hi qs Hqs) as [Hlo Hhi].
  assert (0 < inject_Z (Z.of_nat (length qs))) as Hn.
  { apply inject_Z_nat_pos. destruct qs; [done | simpl; lia]. }
  split.
  - apply Qle_shift_div_l; [done|]. lra.
  - apply Qle_shift_div_r; [done|]. lra.
Qed.

Lemma drawdown_series_values (r : list (Z * Q)) :
  s_values (calculate_drawdown_series (finite_series r))
  = map (drawdown_at r.*2) (seq 0 (length r)).
Proof.
  rewrite drawdown_series_spec. unfold s_values. apply snd_zip.
  by rewrite length_map, length_seq, length_fmap.
Qed.

Lemma drawdown_series_nonempty (r : list (Z * Q)) :
  r <> [] -> s_values (calculate_drawdown_series (finite_series r)) <> [].
Proof.
  intros Hne E. apply (f_equal length) in E.
  rewrite drawdown_series_values, length_map, length_seq in E.
  destruct r; [done | discriminate].
Qed.

Lemma foldl_fmin_zeros n : foldl fmin fzero (replicate n fzero) = fzero.
Proof. induction n as [|n IH]; [done|]. exact IH. Qed.

Lemma dropna_values (s : Series) :
  dropna (s_values s) = s_values (filter (fun dx => notna dx.2 = true) s).
Proof.
  unfold dropna, s_values. induction s as [|[d x] s IH]; [done|].
  cbn [fmap list_fmap snd].
  destruct (decide (notna x = true)) as [E|E].
  - rewrite (filter_cons_True _ x), (filter_cons_True _ (d, x)) by done.
    cbn [fmap list_fmap snd]. f_equal. exact IH.
  - rewrite (filter_cons_False _ x), (filter_cons_False _ (d, x)) by done.
    exact IH.
Qed.

(** The entry [idxmin] points at is the one [min] returns. *)
Lemma foldl_first_least (r : list (Z * float)) : forall x,
  let best := foldl (fun best cur => if fleb best.2 cur.2 then best else cur) x r in
  best ∈ x :: r /\ best.2 = foldl fmin x.2 r.*2.
Proof.
  induction r as [|y r IH]; intros x; [split; [by left | done]|].
  cbn [foldl fmap list_fmap].
  destruct (IH (if fleb x.2 y.2 then x else y)) as [Hin Hval].
  split.
  - apply elem_of_cons in Hin as [-> | Hin].
    + destruct (fleb x.2 y.2); [by left | right; by left].
    + right. by right.
  - cbn zeta in Hval. rewrite Hval.
    assert ((if fleb x.2 y.2 then x else y).2 = fmin x.2 y.2) as ->
      by (unfold fmin; by destruct (fleb _ _)).
    done.
Qed.

Lemma idxmin_present (s : Series) :
  dropna (s_values s) <> [] ->
  exists d, idxmin s = Ok d /\ (d, pd_min (s_values s)) ∈ s.
Proof.
  intros Hne. unfold idxmin, pd_min. rewrite dropna_values in *.
  destruct (filter _ s) as [|x r] eqn:E; [done|].
  destruct (foldl_first_least r x) as [Hin Hval]. cbn zeta in Hin, Hval.
  eexists. split; [reflexivity|].
  unfold s_values. cbn [fmap list_fmap]. rewrite <- Hval.
  rewrite <- E in Hin. apply list_elem_of_filter in Hin as [_ Hin].
  by destruct (foldl _ x r).
Qed.

(** X1.  When no return is below -100% and the first is above it, every
    value of [calculate_drawdown_series] is a number between -1 and 0, and
    so is [max_drawdown] on a Series that is not empty. *)
Theorem drawdown_range (r : list (Z * Q)) :
  (forall d x, head r = Some (d, x) -> -1 < x) ->
  Forall (fun dq => -1 <= dq.2) r ->
  Forall (in_range (-1) 0) (s_values (calculate_drawdown_series (finite_series r))) /\
  (r <> [] -> in_range (-1) 0 (max_drawdown (finite_series r))).
Proof.
  intros Hhead Hall.
  pose proof (drawdown_values_range r Hhead Hall) as Hv.
  split; [done|]. intros Hne.
  change (max_drawdown (finite_series r))
    with (pd_min (s_values (calculate_drawdown_series (finite_series r)))).
  destruct (pd_min_spec (s_values (calculate_drawdown_series (finite_series r)))) as [Hin _].
  - eapply Forall_impl; [exact Hv|]. intros x. apply in_range_finite.
  - by apply drawdown_series_nonempty.
  - rewrite Forall_forall in Hv. by apply Hv.
Qed.

Lemma drawdown_range_witness :
  in_range (-1) 0 (max_drawdown (finite_series five_returns)).
Proof.
  apply (drawdown_range five_returns).
  - intros d x [= <- <-]. reflexivity.
  - repeat constructor; by vm_compute.
  - discriminate.
Defined.

(** X2.  A Series of returns that are all zero or more has no drawdown:
    every value of [calculate_drawdown_series] is exactly 0, and so is
    [max_drawdown] when the Series is not empty. *)
Theorem no_drawdown_without_loss (r : list (Z * Q)) :
  Forall (fun dq => 0 <= dq.2) r ->
  s_values (calculate_drawdown_series (finite_series r)) = replicate (length r) fzero /\
  (r <> [] -> max_drawdown (finite_series r) = fzero).
Proof.
  intros Hall. pose proof (no_drawdown_values r Hall) as Hv.
  split; [done|]. intros Hne.
  change (max_drawdown (finite_series r))
    with (pd_min (s_values (calculate_drawdown_series (finite_series r)))).
  rewrite Hv. destruct r as [|dq r]; [done|].
  unfold pd_min. rewrite dropna_replicate by done.
  cbn [length replicate]. apply foldl_fmin_zeros.
Qed.

Lemma no_drawdown_without_loss_witness :
  max_drawdown (finite_series rising_returns) = fzero.
Proof.
  apply (no_drawdown_without_loss rising_returns).
  - repeat constructor; by vm_compute.
  - discriminate.
Defined.

(** X3.  [drawdown_chart] on the drawdown series of [returns]: an empty
    series raises [ValueError]; when some drawdown is present the marker
    sits at a date of the series, on the curve, at the height
    [max_drawdown(returns) * 100], and no point of the curve lies below it. *)
Theorem drawdown_chart_marker (returns : Series) :
  let drawdown_series := calculate_drawdown_series returns in
  drawdown_chart [] = Raise ValueError /\
  (dropna (s_values drawdown_series) <> [] ->
   exists d,
     drawdown_chart drawdown_series
     = Ok (s_map (fun x => fmul x (of_Z 100)) drawdown_series,
           (d, fmul (max_drawdown returns) (of_Z 100))) /\
     (d, max_drawdown returns) ∈ drawdown_series /\
     (d, fmul (max_drawdown returns) (of_Z 100))
       ∈ s_map (fun x => fmul x (of_Z 100)) drawdown_series /\
     forall d' y, (d', y) ∈ drawdown_series -> notna y = true ->
       fle (max_drawdown returns) y).
Proof.
  intros dd. split; [done|]. intros Hne.
  change (max_drawdown returns) with (pd_min (s_values dd)).
  destruct (idxmin_present dd Hne) as (d & Hd & Hin).
  exists d. split; [|split; [done|split]].
  - unfold drawdown_chart. by rewrite Hd.
  - unfold s_map. apply list_elem_of_fmap.
    by exists (d, pd_min (s_values dd)).
  - intros d' y Hy Hp.
    destruct (pd_min_present (s_values dd) Hne) as [_ Hall].
    rewrite Forall_forall in Hall. apply Hall.
    apply list_elem_of_filter. split; [done|].
    unfold s_values. apply list_elem_of_fmap. by exists (d', y).
Qed.

Lemma drawdown_chart_marker_witness :
  exists d,
    drawdown_chart (calculate_drawdown_series (finite_series five_returns))
    = Ok (s_map (fun x => fmul x (of_Z 100))
            (calculate_drawdown_series (finite_series five_returns)),
          (d, fmul (max_drawdown (finite_series five_returns)) (of_Z 100))) /\
    (d, max_drawdown (finite_series five_returns))
      ∈ calculate_drawdown_series (finite_series five_returns).
Proof.
  destruct (proj2 (drawdown_chart_marker (finite_series five_returns)))
    as (d & H1 & H2 & _).
  - vm_compute. discriminate.
  - exists d. by split.
Defined.

(** X4.  The average drawdown the application shows (the mean of the
    drawdowns below zero, 0 when there is none) lies between
    [max_drawdown] and 0, when no return is below -100% and the first is
    above it. *)
Theorem avg_drawdown_between (r : list (Z * Q)) :
  (forall d x, head r = Some (d, x) -> -1 < x) ->
  Forall (fun dq => -1 <= dq.2) r ->
  r <> [] ->
  exists m a,
    max_drawdown (finite_series r) = Fin m /\
    avg_drawdown (calculate_drawdown_series (finite_series r)) = Fin a /\
    m <= a /\ a <= 0.
Proof.
  intros Hhead Hall Hne.
  pose proof (drawdown_values_range r Hhead Hall) as Hv.
  set (dd := calculate_drawdown_series (finite_series r)) in *.
  change (max_drawdown (finite_series r)) with (pd_min (s_values dd)).
  destruct (pd_min_spec (s_values dd)) as [Hin Hmin].
  { eapply Forall_impl; [exact Hv|]. intros x. apply in_range_finite. }
  { by apply drawdown_series_nonempty. }
  rewrite Forall_forall in Hv. destruct (Hv _ Hin) as (m & Em & Hm1 & Hm0).
  exists m. rewrite Em in *.
  assert (Forall (in_range m 0) (s_values dd)) as Hrange.
  { apply Forall_forall. intros y Hy. destruct (Hv _ Hy) as (q & -> & _ & Hq0).
    rewrite Forall_forall in Hmin. specialize (Hmin _ Hy).
    apply Qle_bool_iff in Hmin. by exists q. }
  unfold avg_drawdown.
  set (below := filter (fun dx => fltb dx.2 fzero = true) dd).
  destruct (0 <? length below)%nat eqn:E.
  - apply Nat.ltb_lt in E.
    destruct (pd_mean_range m 0 (s_values below)) as (a & Ea & Ha).
    + intros E0. apply (f_equal length) in E0. unfold s_values in E0.
      rewrite length_fmap in E0. simpl in E0. lia.
    + apply Forall_forall. intros y Hy. unfold s_values in Hy.
      apply list_elem_of_fmap in Hy as ([d' y'] & -> & Hy).
      apply list_elem_of_filter in Hy as [_ Hy].
      rewrite Forall_forall in Hrange. apply Hrange.
      unfold s_values. apply list_elem_of_fmap. by exists (d', y').
    + exists a. by rewrite Ea.
  - exists 0. split; [done|]. split; [done|]. split; [done | apply Qle_refl].
Qed.

Lemma avg_drawdown_between_witness :
  exists m a,
    max_drawdown (finite_series five_returns) = Fin m /\
    avg_drawdown (calculate_drawdown_series (finite_series five_returns)) = Fin a /\
    m <= a /\ a <= 0.
Proof.
  apply (avg_drawdown_between five_returns).
  - intros d x [= <- <-]. reflexivity.
  - repeat constructor; by vm_compute.
  - discriminate.
Defined.

(** ** Filters, and the rows of two columns *)

Lemma filter_all {A} (P : A -> Prop) `{!forall x, Decision (P x)} (l : list A) :
  Forall P l -> filter P l = l.
Proof.
  induction 1 as [|x l Hx _ IH]; [done|]. by rewrite filter_cons_True, IH.
Qed.

Lemma filter_none {A} (P : A -> Prop) `{!forall x, Decision (P x)} (l : list A) :
  Forall (fun x => ~ P x) l -> filter P l = [].
Proof.
  induction 1 as [|x l Hx _ IH]; [done|]. by rewrite filter_cons_False.
Qed.

Lemma s_at_finite (r : list (Z * Q)) d :
  d ∈ s_index (finite_series r) -> finite (s_at (finite_series r) d).
Proof.
  intros Hd. apply s_at_present in Hd.
  apply list_elem_of_fmap in Hd as ([d' q] & E & _).
  injection E as _ ->. by eexists.
Qed.

Lemma rows_columns (f g : Z -> float) (l : list Z) :
  (map (fun d => (d, (f d, g d))) l).*2.*1 = map f l /\
  (map (fun d => (d, (f d, g d))) l).*2.*2 = map g l.
Proof.
  induction l as [|d l [IH1 IH2]]; [done|].
  cbn [map fmap list_fmap fst snd]. split; f_equal; [exact IH1 | exact IH2].
Qed.

(** ** The statistics of pandas on finite values *)

Lemma Qsum_cons x l : Qsum (x :: l) = x + Qsum l.
Proof. reflexivity. Qed.

Lemma Qsum_ext {A} (f g : A -> Q) (l : list A) :
  (forall x, x ∈ l -> f x == g x) -> Qsum (map f l) == Qsum (map g l).
Proof.
  induction l as [|x l IH]; intros Hfg; [reflexivity|].
  cbn [map]. rewrite !Qsum_cons, IH, (Hfg x); [reflexivity | by left |].
  intros y Hy. apply Hfg. by right.
Qed.

Lemma Qsum_linear {A} (f : A -> Q) (k c : Q) (l : list A) :
  Qsum (map (fun x => k * f x + c) l)
  == k * Qsum (map f l) + inject_Z (Z.of_nat (length l)) * c.
Proof.
  induction l as [|x l IH].
  { change (inject_Z (Z.of_nat (length (@nil A)))) with 0. cbn [map Qsum foldr]. ring. }
  cbn [map length]. rewrite !Qsum_cons, IH.
  rewrite Nat2Z.inj_succ, <- Z.add_1_r, inject_Z_plus.
  change (inject_Z 1) with 1. ring.
Qed.

Lemma fsum_fin {A} (g : A -> Q) (l : list A) :
  fsum (map (fun x => fin (g x)) l) = fin (Qsum (map g l)).
Proof.
  induction l as [|x l IH]; [done|].
  cbn [map]. rewrite fsum_cons, IH, Qsum_cons.
  unfold fin at 1 2, fadd. apply fin_eq. by rewrite !Qred_correct.
Qed.

Lemma pd_mean_value qs :
  (0 < length qs)%nat ->
  fdiv (fsum (map Fin qs)) (of_nat (length qs)) = fin (Qmean qs).
Proof. intros Hn. rewrite fsum_Fin. by apply fdiv_Fin_nat. Qed.

Lemma pd_var_Fin qs :
  (2 <= length qs)%nat -> pd_var (map Fin qs) = fin (Qvar qs).
Proof.
  intros Hn. unfold pd_var. rewrite dropna_finite by apply Forall_finite_Fin.
  rewrite length_map.
  destruct (length qs <=? 1)%nat eqn:E; [apply Nat.leb_le in E; lia|].
  rewrite pd_mean_value by lia. rewrite map_map.
  assert (map (fun x => fsq (fsub (fin (Qmean qs)) (Fin x))) qs
          = map (fun x => fin ((Qmean qs - x) * (Qmean qs - x))) qs) as ->.
  { apply map_ext. intros x. unfold fsq, fsub, fin. simpl. apply fin_eq.
    rewrite !Qred_correct. ring. }
  rewrite fsum_fin. by apply fdiv_Fin_nat; lia.
Qed.

Lemma zip_with_map_l {A B C D} (f : B -> C -> D) (g : A -> B) (l : list A) (k : list C) :
  zip_with f (map g l) k = zip_with (fun x y => f (g x) y) l k.
Proof. revert k. induction l as [|x l IH]; intros [|y k]; cbn; by rewrite ?IH. Qed.

Lemma zip_with_diag {A C} (f : A -> A -> C) (l : list A) :
  zip_with f l l = map (fun x => f x x) l.
Proof. induction l as [|x l IH]; cbn; by rewrite ?IH. Qed.

Lemma pd_cov_Fin qa qb :
  length qa = length qb -> (2 <= length qa)%nat ->
  pd_cov (map Fin qa) (map Fin qb) = fin (Qcov qa qb).
Proof.
  intros Hlen Hn. unfold pd_cov.
  assert (filter (fun p : float * float => notna p.1 && notna p.2 = true)
            (zip (map Fin qa) (map Fin qb)) = zip (map Fin qa) (map Fin qb)) as ->.
  { apply filter_all. apply Forall_forall. intros [x y] Hxy.
    pose proof (elem_of_zip_l _ _ _ _ Hxy) as Hx.
    pose proof (elem_of_zip_r _ _ _ _ Hxy) as Hy.
    apply list_elem_of_fmap in Hx as (a & -> & _).
    by apply list_elem_of_fmap in Hy as (b & -> & _). }
  rewrite fst_zip, snd_zip by (rewrite !length_map; lia).
  rewrite length_zip_with, !length_map, <- Hlen, Nat.min_id.
  destruct (length qa <=? 1)%nat eqn:E; [apply Nat.leb_le in E; lia|].
  rewrite (pd_mean_value qa) by lia.
  assert (fdiv (fsum (map Fin qb)) (of_nat (length qa)) = fin (Qmean qb)) as ->.
  { rewrite Hlen. apply pd_mean_value. lia. }
  assert (map (fun p : float * float =>
                 fmul (fsub p.1 (fin (Qmean qa))) (fsub p.2 (fin (Qmean qb))))
              (zip (map Fin qa) (map Fin qb))
          = map (fun p : Q * Q => fin ((p.1 - Qmean qa) * (p.2 - Qmean qb))) (zip qa qb)) as ->.
  { clear. generalize (Qmean qa) (Qmean qb). intros ma mb. revert qb.
    induction qa as [|a qa IH]; intros [|b qb]; try done.
    cbn [map zip zip_with fst snd]. f_equal; [|apply IH].
    unfold fsub, fin. simpl. apply fin_eq. rewrite !Qred_correct. ring. }
  rewrite fsum_fin.
  assert (map (fun p : Q * Q => (p.1 - Qmean qa) * (p.2 - Qmean qb)) (zip qa qb)
          = zip_with (fun x y => (x - Qmean qa) * (y - Qmean qb)) qa qb) as ->.
  { clear. generalize (Qmean qa) (Qmean qb). intros ma mb. revert qb.
    induction qa as [|a qa IH]; intros [|b qb]; try done.
    cbn [map zip zip_with fst snd]. f_equal. apply IH. }
  by apply fdiv_Fin_nat; lia.
Qed.

(** ** A shifted and a scaled series *)

Lemma Qmean_affine (k c : Q) (g : Q -> Q) qs :
  qs <> [] -> (forall q, g q == k * q + c) ->
  Qmean (map g qs) == k * Qmean qs + c.
Proof.
  intros Hne Hg. unfold Qmean. rewrite length_map.
  assert (0 < inject_Z (Z.of_nat (length qs))) as Hn.
  { apply inject_Z_nat_pos. destruct qs; [done | simpl; lia]. }
  rewrite (Qsum_ext g (fun q => k * q + c)) by (intros; apply Hg).
  rewrite (Qsum_linear (fun q => q) k c), map_id. field. lra.
Qed.

Lemma Qvar_shift (c : Q) (g : Q -> Q) qs :
  (forall q, g q == q + c) -> Qvar (map g qs) == Qvar qs.
Proof.
  intros Hg. destruct qs as [|q0 qs]; [reflexivity|].
  assert (Qmean (map g (q0 :: qs)) == Qmean (q0 :: qs) + c) as Hm.
  { rewrite (Qmean_affine 1 c); [ring | done |]. intros q. rewrite Hg. ring. }
  unfold Qvar. rewrite length_map, map_map.
  apply Qmult_comp; [|reflexivity].
  apply Qsum_ext. intros x _. rewrite Hm, Hg. ring.
Qed.

Lemma Qcov_affine (k c : Q) (g : Q -> Q) qs :
  qs <> [] -> (forall q, g q == k * q + c) ->
  Qcov (map g qs) qs == k * Qvar qs.
Proof.
  intros Hne Hg. pose proof (Qmean_affine k c g qs Hne Hg) as Hm.
  unfold Qcov, Qvar. rewrite length_map, zip_with_map_l, zip_with_diag.
  unfold Qdiv. rewrite Qmult_assoc. apply Qmult_comp; [|reflexivity].
  rewrite <- (Qplus_0_r (k * Qsum _)).
  rewrite <- (Qmult_0_r (inject_Z (Z.of_nat (length qs)))).
  rewrite <- (Qsum_linear (fun x => (Qmean qs - x) * (Qmean qs - x)) k 0).
  apply Qsum_ext. intros x _. rewrite Hm, Hg. ring.
Qed.

(** ** Reading a Series by date *)

Lemma s_at_cons d' x (s : Series) d :
  s_at ((d', x) :: s) d = if decide (d' = d) then x else s_at s d.
Proof.
  unfold s_at. cbn [list_find fst]. destruct (decide (d' = d)); [done|].
  by destruct (list_find _ s) as [[i [d'' y]]|].
Qed.

Lemma s_at_s_map f (s : Series) d :
  d ∈ s_index s -> s_at (s_map f s) d = f (s_at s d).
Proof.
  induction s as [|[d' x] s IH]; intros Hd; [by apply elem_of_nil in Hd|].
  cbn [s_map map fst snd]. rewrite !s_at_cons.
  destruct (decide (d' = d)); [done|]. apply IH.
  unfold s_index in *. cbn [fmap list_fmap fst] in Hd.
  apply elem_of_cons in Hd as [->|Hd]; done.
Qed.

Lemma s_at_index (s : Series) :
  NoDup (s_index s) -> map (s_at s) (s_index s) = s_values s.
Proof.
  unfold s_index, s_values. induction s as [|[d x] s IH]; intros Hnd; [done|].
  cbn [fmap list_fmap fst snd] in *. apply NoDup_cons in Hnd as [Hd Hnd].
  cbn [map]. rewrite s_at_cons, decide_True by done. f_equal.
  rewrite <- IH by done. apply map_ext_in. intros d' Hd'.
  rewrite s_at_cons, decide_False; [done|].
  intros ->. apply Hd. by apply list_elem_of_In.
Qed.

Lemma s_at_absent (s : Series) d : d ∉ s_index s -> s_at s d = NaN.
Proof.
  intros Hd. unfold s_at.
  destruct (list_find _ s) as [[i [d' x]]|] eqn:E; [|done].
  apply list_find_Some in E as (Hi & Hd' & _). simpl in Hd'. subst d'.
  exfalso. apply Hd. unfold s_index.
  apply list_elem_of_fmap. exists (d, x). split; [done|].
  by eapply list_elem_of_lookup_2.
Qed.

(** On distinct dates a row of the Series is the value read at its date. *)
Lemma s_at_unique (s : Series) d x :
  NoDup (s_index s) -> (d, x) ∈ s -> s_at s d = x.
Proof.
  unfold s_index. induction s as [|[d' y] s IH]; intros Hnd Hin.
  - by apply elem_of_nil in Hin.
  - cbn [fmap list_fmap fst] in Hnd. apply NoDup_cons in Hnd as [Hd' Hnd].
    rewrite s_at_cons. apply elem_of_cons in Hin as [[= -> ->]|Hin].
    + by rewrite decide_True.
    + destruct (decide (d' = d)) as [->|_]; [|by apply IH].
      exfalso. apply Hd'. apply list_elem_of_fmap. by exists (d, x).
Qed.

(** The rows [calculate_beta] works on, for two Series with distinct
    dates: one row per date that both Series have with both values present,
    holding the two values of that date. *)
Lemma aligned_rows (p b : Series) d x y :
  NoDup (s_index p) -> NoDup (s_index b) ->
  (d, (x, y)) ∈ dropna2 (pd_concat2 p b) <->
  (d, x) ∈ p /\ (d, y) ∈ b /\ notna x = true /\ notna y = true.
Proof.
  intros Hp Hb. unfold dropna2, pd_concat2. rewrite list_elem_of_filter. simpl.
  rewrite list_elem_of_fmap. split.
  - intros (Hna & d' & [= -> -> ->] & Hin).
    apply andb_prop in Hna as [Hx Hy].
    assert (d' ∈ s_index p).
    { destruct (decide (d' ∈ s_index p)) as [?|No]; [done|].
      rewrite (s_at_absent p d' No) in Hx. done. }
    assert (d' ∈ s_index b).
    { destruct (decide (d' ∈ s_index b)) as [?|No]; [done|].
      rewrite (s_at_absent b d' No) in Hy. done. }
    split; [by apply s_at_present|]. split; [by apply s_at_present|]. done.
  - intros (Hx & Hy & Nx & Ny).
    pose proof (s_at_unique p d x Hp Hx) as Ex.
    pose proof (s_at_unique b d y Hb Hy) as Ey.
    split.
    + by rewrite Nx, Ny.
    + exists d. split; [by rewrite Ex, Ey|]. apply elem_of_app. left.
      unfold s_index. apply list_elem_of_fmap. by exists (d, x).
Qed.

(** Away from the guard on the variance [calculate_beta] does what its
    docstring says, on Series with distinct dates: 1 below two aligned rows,
    and the covariance of the aligned columns over the variance of the
    aligned benchmark column when that variance is not 0. *)
Lemma calculate_beta_aligned (p b : Series) :
  NoDup (s_index p) -> NoDup (s_index b) ->
  let aligned := dropna2 (pd_concat2 p b) in
  (forall d x y,
     (d, (x, y)) ∈ aligned <->
     (d, x) ∈ p /\ (d, y) ∈ b /\ notna x = true /\ notna y = true) /\
  ((length aligned < 2)%nat -> calculate_beta p b = fone) /\
  ((2 <= length aligned)%nat -> feqb (pd_var aligned.*2.*2) fzero = false ->
   calculate_beta p b = fdiv (pd_cov aligned.*2.*1 aligned.*2.*2) (pd_var aligned.*2.*2)).
Proof.
  intros Hp Hb aligned. split; [|split].
  - intros d x y. by apply aligned_rows.
  - intros Hl. unfold calculate_beta. fold aligned.
    destruct (Nat.ltb_spec (length aligned) 2); [done | lia].
  - intros Hl Hv. unfold calculate_beta. fold aligned. rewrite Hv.
    destruct (Nat.ltb_spec (length aligned) 2); [lia | done].
Qed.

Lemma s_index_s_map f (s : Series) : s_index (s_map f s) = s_index s.
Proof. unfold s_index, s_map. induction s as [|[d x] s IH]; [done|]. cbn. by f_equal. Qed.

Lemma s_values_s_map f (s : Series) : s_values (s_map f s) = map f (s_values s).
Proof. unfold s_values, s_map. induction s as [|[d x] s IH]; [done|]. cbn. by f_equal. Qed.

Lemma finite_series_index r : s_index (finite_series r) = r.*1.
Proof.
  unfold s_index, finite_series. induction r as [|[d x] r IH]; [done|]. cbn. by f_equal.
Qed.

(** The rows aligned between a finite Series and an image of it under a
    function that keeps values finite. *)
Lemma image_aligned (f : float -> float) (r : list (Z * Q)) :
  (forall q, finite (f (Fin q))) ->
  let b := finite_series r in
  dropna2 (pd_concat2 (s_map f b) b)
  = map (fun d => (d, (f (s_at b d), s_at b d))) (s_index b).
Proof.
  intros Hf. cbn zeta. set (b := finite_series r). unfold pd_concat2.
  rewrite s_index_s_map.
  rewrite (filter_none (fun d => d ∉ s_index b)), app_nil_r
    by (apply Forall_forall; intros d Hd Hn; by apply Hn).
  unfold dropna2. rewrite filter_all.
  - apply map_ext_in. intros d Hd. apply list_elem_of_In in Hd.
    by rewrite s_at_s_map.
  - apply Forall_forall. intros x Hx.
    apply list_elem_of_fmap in Hx as (d & -> & Hd). cbn [fst snd].
    rewrite s_at_s_map by done.
    destruct (s_at_finite r d Hd) as [q Hq]. fold b in Hq. rewrite Hq.
    by rewrite (finite_notna _ (Hf q)).
Qed.

Lemma fdiv_fin a b : ~ b == 0 -> fdiv (fin a) (fin b) = fin (a / b).
Proof.
  intros Hb. unfold fin, fdiv. rewrite Qeq_bool_false by by rewrite Qred_correct.
  apply fin_eq. by rewrite !Qred_correct.
Qed.

(** X6.  A portfolio whose return is [k] times the benchmark's plus a
    constant has beta [k]: on a benchmark of finite returns, two or more,
    on distinct dates, whose variance is not zero. *)
Theorem calculate_beta_affine (r : list (Z * Q)) (k c : Q) :
  NoDup r.*1 -> (2 <= length r)%nat ->
  feqb (pd_var (s_values (finite_series r))) fzero = false ->
  calculate_beta
    (s_map (fun x => fadd (fmul (Fin k) x) (Fin c)) (finite_series r))
    (finite_series r)
  = fin k.
Proof.
  intros Hnd Hlen Hvar. unfold calculate_beta.
  set (f := fun x => fadd (fmul (Fin k) x) (Fin c)).
  rewrite (image_aligned f r) by (intros q; by eexists).
  set (b := finite_series r).
  rewrite length_map. unfold s_index at 1. rewrite length_fmap.
  assert (length b = length r) as Hb by apply finite_series_length. rewrite Hb.
  destruct (length r <? 2)%nat eqn:E; [apply Nat.ltb_lt in E; lia|].
  destruct (rows_columns (fun d => f (s_at b d)) (s_at b) (s_index b)) as [-> ->].
  rewrite <- (map_map (s_at b) f), s_at_index by (subst b; by rewrite finite_series_index).
  subst b. rewrite finite_series_values in *.
  set (g := fun q => Qred (Qred (k * q) + c)).
  assert (map f (map Fin r.*2) = map Fin (map g r.*2)) as ->.
  { rewrite !map_map. by apply map_ext. }
  assert (length r.*2 = length r) as Hl2 by apply length_fmap.
  rewrite pd_cov_Fin by (rewrite ?length_map; lia).
  rewrite pd_var_Fin in * by lia.
  rewrite Hvar.
  assert (~ Qvar r.*2 == 0) as Hnz.
  { intros Hz. unfold fin, feqb, fzero in Hvar.
    assert (Qeq_bool (Qred (Qvar r.*2)) 0 = true) as Ht
      by (apply Qeq_bool_iff; by rewrite Qred_correct).
    congruence. }
  rewrite fdiv_fin by done. apply fin_eq.
  assert (forall q, g q == k * q + c) as Hg
    by (intros q; unfold g; by rewrite !Qred_correct).
  assert (r.*2 <> []) as Hne by (intros E0; rewrite E0 in Hl2; simpl in Hl2; lia).
  pose proof (Qcov_affine k c g r.*2 Hne Hg) as Hc.
  rewrite Hc. field. done.
Qed.

Lemma calculate_beta_affine_witness :
  calculate_beta
    (s_map (fun x => fadd (fmul (Fin 2) x) (Fin (1 # 100))) (finite_series five_returns))
    (finite_series five_returns)
  = fin 2.
Proof.
  apply (calculate_beta_affine five_returns 2 (1 # 100)).
  - apply (bool_decide_unpack _). vm_compute. reflexivity.
  - simpl. lia.
  - vm_compute. reflexivity.
Defined.

(** ** Volatility *)

Lemma pd_var_shift (c : Q) (qs : list Q) :
  pd_var (map (fun x => fadd x (Fin c)) (map Fin qs)) = pd_var (map Fin qs).
Proof.
  set (g := fun q => Qred (q + c)).
  assert (map (fun x => fadd x (Fin c)) (map Fin qs) = map Fin (map g qs)) as ->.
  { rewrite !map_map. by apply map_ext. }
  destruct (Nat.lt_ge_cases (length qs) 2) as [Hs|Hl].
  - by rewrite !pd_var_short by (rewrite ?length_map; lia).
  - rewrite !pd_var_Fin by (rewrite ?length_map; lia).
    apply fin_eq. apply (Qvar_shift c). intros q. unfold g. by rewrite Qred_correct.
Qed.

(** X7.  Adding one constant to every return of a Series of finite returns
    leaves the annualized volatility as it is. *)
Theorem annualized_volatility_shift `{Numeric} (r : list (Z * Q)) (c : Q) (ppy : float) :
  annualized_volatility (s_map (fun x => fadd x (Fin c)) (finite_series r)) ppy
  = annualized_volatility (finite_series r) ppy.
Proof.
  unfold annualized_volatility, pd_std.
  by rewrite s_values_s_map, finite_series_values, pd_var_shift.
Qed.

(** ** The sorted column of [np.percentile] *)

Lemma insert_sorted_elem x l y : y ∈ insert_sorted x l <-> y = x \/ y ∈ l.
Proof.
  induction l as [|z l IH]; simpl.
  - rewrite list_elem_of_singleton, elem_of_nil. tauto.
  - destruct (fleb x z).
    + by rewrite elem_of_cons.
    + rewrite !elem_of_cons, IH. tauto.
Qed.

Lemma sort_floats_elem l y : y ∈ sort_floats l <-> y ∈ l.
Proof.
  induction l as [|x l IH]; [done|].
  cbn [sort_floats foldr]. fold (sort_floats l).
  rewrite insert_sorted_elem, elem_of_cons, IH. tauto.
Qed.

Lemma insert_sorted_sorted x l :
  notna x = true -> Forall (fun y => notna y = true) l ->
  StronglySorted fle l -> StronglySorted fle (insert_sorted x l).
Proof.
  intros Hx Hl Hs. induction Hs as [|z l Hs IH Hz]; simpl; [by repeat constructor|].
  apply Forall_cons in Hl as [Hzn Hl].
  destruct (fleb x z) eqn:E.
  - constructor; [by constructor|]. constructor; [done|].
    eapply Forall_impl; [exact Hz|]. intros y Hy. by eapply fleb_trans.
  - constructor; [by apply IH|].
    apply Forall_forall. intros y Hy. apply (proj1 (insert_sorted_elem _ _ _)) in Hy as [->|Hy].
    + by apply fleb_total.
    + rewrite Forall_forall in Hz. by apply Hz.
Qed.

Lemma insert_sorted_present x l :
  notna x = true -> Forall (fun y => notna y = true) l ->
  Forall (fun y => notna y = true) (insert_sorted x l).
Proof.
  intros Hx Hl. apply Forall_forall. intros y Hy.
  apply (proj1 (insert_sorted_elem _ _ _)) in Hy as [->|Hy]; [done|].
  rewrite Forall_forall in Hl. by apply Hl.
Qed.

Lemma sort_floats_sorted l :
  Forall (fun y => notna y = true) l -> StronglySorted fle (sort_floats l).
Proof.
  induction 1 as [|x l Hx Hl IH]; [apply SSorted_nil|].
  cbn [sort_floats foldr]. fold (sort_floats l).
  apply insert_sorted_sorted; [done | | done].
  apply Forall_forall. intros y Hy. apply (proj1 (sort_floats_elem _ _)) in Hy.
  rewrite Forall_forall in Hl. by apply Hl.
Qed.

Lemma sorted_lookup_le (l : list float) i j x y :
  StronglySorted fle l -> Forall (fun y => notna y = true) l ->
  l !! i = Some x -> l !! j = Some y -> (i <= j)%nat -> fle x y.
Proof.
  intros Hs. revert i j. induction Hs as [|z l Hs IH Hz]; intros i j Hn Hi Hj Hij.
  - by rewrite lookup_nil in Hi.
  - apply Forall_cons in Hn as [Hzn Hn].
    destruct i as [|i], j as [|j]; simpl in *; try lia.
    + injection Hi as <-. injection Hj as <-. by apply fleb_refl.
    + injection Hi as <-. rewrite Forall_forall in Hz. apply Hz.
      by eapply list_elem_of_lookup_2.
    + eapply IH; eauto. lia.
Qed.

(** Linear interpolation stays between its two ends. *)
Lemma lerp_between a b f :
  a <= b -> 0 <= f <= 1 ->
  exists t, lerp (Fin a) (Fin b) (fin f) = Fin t /\ a <= t <= b.
Proof.
  intros Hab [Hf0 Hf1]. unfold lerp, fsub, fin. simpl.
  destruct (Qle_bool (1 # 2) (Qred f)).
  - eexists. split; [reflexivity|]. rewrite !Qred_correct. split; nra.
  - eexists. split; [reflexivity|]. rewrite !Qred_correct. split; nra.
Qed.

(** The percentile of a finite column lies between two of its entries. *)
Lemma np_percentile_between (v : list float) (q p : Q) :
  Forall finite v -> v <> [] ->
  fdiv (Fin q) (of_Z 100) = Fin p -> 0 <= p <= 1 ->
  exists t lo hi,
    np_percentile v (Fin q) = Ok (Fin t) /\
    Fin lo ∈ v /\ Fin hi ∈ v /\ lo <= t <= hi.
Proof.
  intros Hv Hne Hq [Hp0 Hp1]. unfold np_percentile. rewrite Hq.
  assert (Qle_bool 0 p && Qle_bool p 1 = true) as ->.
  { apply andb_true_intro. split; by apply Qle_bool_iff. }
  rewrite forallb_notna_finite by done.
  rewrite sort_floats_length.
  set (n := length v). assert (1 <= n)%nat as Hn.
  { subst n. destruct v; [done | simpl; lia]. }
  assert (0 <= inject_Z (Z.of_nat (n - 1))) as HN.
  { change 0 with (inject_Z 0). rewrite <- Zle_Qle. lia. }
  set (pos := inject_Z (Z.of_nat (n - 1)) * p).
  assert (0 <= pos) as Hpos0 by (subst pos; nra).
  assert (pos <= inject_Z (Z.of_nat (n - 1))) as Hpos1 by (subst pos; nra).
  assert (0 <= Qfloor pos <= Z.of_nat (n - 1))%Z as [Hf0 Hf1].
  { split.
    - change 0%Z with (Qfloor 0). by apply Qfloor_resp_le.
    - rewrite <- (Qfloor_Z (Z.of_nat (n - 1))). by apply Qfloor_resp_le. }
  set (i := Z.to_nat (Qfloor pos)). set (j := Nat.min (i + 1) (n - 1)).
  assert (Forall (fun y => notna y = true) v) as Hpres.
  { eapply Forall_impl; [exact Hv|]. apply finite_notna. }
  assert (Forall finite (sort_floats v)) as Hsf by by apply sort_floats_finite.
  assert (i < length (sort_floats v))%nat as Hi by (rewrite sort_floats_length; fold n; lia).
  assert (j < length (sort_floats v))%nat as Hj by (rewrite sort_floats_length; fold n; lia).
  destruct (lookup_lt_is_Some_2 _ _ Hi) as [x Hx].
  destruct (lookup_lt_is_Some_2 _ _ Hj) as [y Hy].
  rewrite !nth_lookup, Hx, Hy. cbn [default from_option].
  rewrite Forall_lookup in Hsf.
  destruct (Hsf _ _ Hx) as [a ->]. destruct (Hsf _ _ Hy) as [b ->].
  assert (a <= b) as Hab.
  { apply Qle_bool_iff.
    apply (sorted_lookup_le (sort_floats v) i j (Fin a) (Fin b)); try done.
    - by apply sort_floats_sorted.
    - apply Forall_forall. intros z Hz. apply (proj1 (sort_floats_elem _ _)) in Hz.
      rewrite Forall_forall in Hpres. by apply Hpres.
    - subst j. lia. }
  destruct (lerp_between a b (pos - inject_Z (Qfloor pos)) Hab) as (t & Ht & Hat).
  { pose proof (Qfloor_le pos). pose proof (Qlt_floor pos) as Hlt.
    rewrite inject_Z_plus in Hlt. change (inject_Z 1) with 1 in Hlt. split; lra. }
  exists t, a, b. unfold id. rewrite Ht. split; [done|].
  split; [|split; [|done]].
  - apply (proj1 (sort_floats_elem _ _)). by eapply list_elem_of_lookup_2.
  - apply (proj1 (sort_floats_elem _ _)). by eapply list_elem_of_lookup_2.
Qed.

Lemma Qsum_upper hi qs :
  Forall (fun q => q <= hi) qs -> Qsum qs <= inject_Z (Z.of_nat (length qs)) * hi.
Proof.
  induction 1 as [|q qs Hq _ IH].
  { change (inject_Z (Z.of_nat (length (@nil Q)))) with 0. cbn [Qsum foldr]. lra. }
  rewrite Qsum_cons. cbn [length].
  rewrite Nat2Z.inj_succ, <- Z.add_1_r, inject_Z_plus.
  change (inject_Z 1) with 1. set (n := inject_Z (Z.of_nat (length qs))) in *. nra.
Qed.

Lemma pd_mean_upper hi (l : list float) :
  l <> [] -> Forall (fun x => exists q, x = Fin q /\ q <= hi) l ->
  exists a, pd_mean l = Fin a /\ a <= hi.
Proof.
  intros Hne Hl.
  assert (exists qs, l = map Fin qs /\ Forall (fun q => q <= hi) qs) as (qs & -> & Hqs).
  { clear Hne. induction Hl as [|x l (q & -> & Hq) _ (qs & -> & Hqs)]; [by exists []|].
    exists (q :: qs). split; [done | by constructor]. }
  assert (qs <> []) as Hq by (intros ->; done).
  rewrite pd_mean_Fin by done. eexists. split; [reflexivity|].
  rewrite Qred_correct.
  assert (0 < inject_Z (Z.of_nat (length qs))) as Hn.
  { apply inject_Z_nat_pos. destruct qs; [done | simpl; lia]. }
  apply Qle_shift_div_r; [done|]. pose proof (Qsum_upper hi qs Hqs). lra.
Qed.

(** X9.  When the percentile that serves as VaR threshold is a loss
    (zero or less), the expected shortfall is at least the historical VaR:
    on finite returns, two or more, at a confidence level between 0 and 1. *)
Theorem cvar_at_least_var (r : list (Z * Q)) (cl t : Q) :
  (2 <= length r)%nat -> 0 <= cl <= 1 ->
  np_percentile (s_values (finite_series r))
    (fmul (fsub fone (Fin cl)) (of_Z 100)) = Ok (Fin t) ->
  t <= 0 ->
  exists v c,
    value_at_risk_historical (finite_series r) (Fin cl) = Ok (Fin v) /\
    conditional_value_at_risk (finite_series r) (Fin cl) = Ok (Fin c) /\
    v <= c.
Proof.
  intros Hlen Hcl Hperc Ht.
  destruct (percentile_rank cl) as (q & p & Hq & Hp & Hpcl).
  rewrite Hq in Hperc.
  destruct (np_percentile_between (s_values (finite_series r)) q p)
    as (t' & lo & hi & Hres & Hlo & _ & Hlot & _).
  { rewrite finite_series_values. apply Forall_finite_Fin. }
  { intros E. apply (f_equal length) in E. unfold s_values in E.
    rewrite length_fmap, finite_series_length in E. simpl in E. lia. }
  { done. }
  { rewrite Hpcl. split; lra. }
  rewrite Hperc in Hres. injection Hres as <-.
  unfold value_at_risk_historical, conditional_value_at_risk.
  rewrite finite_series_length.
  destruct (length r <? 2)%nat eqn:E; [apply Nat.ltb_lt in E; lia|].
  rewrite Hq, Hperc.
  set (tail := filter (fun dx : Z * float => fleb dx.2 (Fin t) = true) (finite_series r)).
  assert (tail <> []) as Htail.
  { unfold s_values in Hlo. apply list_elem_of_fmap in Hlo as ([d x] & Ex & Hin).
    simpl in Ex. subst x. intros E0.
    assert ((d, Fin lo) ∈ tail) as Hin'.
    { apply list_elem_of_filter. split; [|done]. simpl. by apply Qle_bool_iff. }
    rewrite E0 in Hin'. by apply elem_of_nil in Hin'. }
  destruct (length tail =? 0)%nat eqn:E0.
  { apply Nat.eqb_eq in E0. destruct tail; [done | discriminate]. }
  destruct (pd_mean_upper t (s_values tail)) as (a & Ea & Hat).
  { intros E1. apply (f_equal length) in E1. unfold s_values in E1.
    rewrite length_fmap in E1. apply Nat.eqb_neq in E0. simpl in E1. lia. }
  { apply Forall_forall. intros x Hx. unfold s_values in Hx.
    apply list_elem_of_fmap in Hx as ([d y] & -> & Hin).
    apply list_elem_of_filter in Hin as [Hle Hin]. simpl in Hle.
    apply list_elem_of_fmap in Hin as ([d' y'] & Ey & _). injection Ey as _ ->.
    eexists. split; [reflexivity|]. by apply Qle_bool_iff. }
  rewrite Ea. exists (Qred (Qabs t)), (Qred (Qabs a)).
  split; [done|]. split; [done|].
  rewrite !Qred_correct, !Qabs_neg by lra. lra.
Qed.

Lemma cvar_at_least_var_witness :
  exists v c,
    value_at_risk_historical (finite_series five_returns) (Fin (19 # 20)) = Ok (Fin v) /\
    conditional_value_at_risk (finite_series five_returns) (Fin (19 # 20)) = Ok (Fin c) /\
    v <= c.
Proof.
  apply (cvar_at_least_var five_returns (19 # 20) (-9 # 500)).
  - simpl. lia.
  - split; discriminate.
  - vm_compute. reflexivity.
  - discriminate.
Defined.

(** At a rank that falls on a position of the sorted column the
    percentile is the entry at that position. *)
Lemma np_percentile_exact (v : list float) (q p : Q) (k : nat) (x : Q) :
  Forall finite v ->
  fdiv (Fin q) (of_Z 100) = Fin p -> 0 <= p <= 1 ->
  inject_Z (Z.of_nat (length v - 1)) * p == inject_Z (Z.of_nat k) ->
  sort_floats v !! k = Some (Fin x) ->
  np_percentile v (Fin q) = Ok (fin x).
Proof.
  intros Hv Hq [Hp0 Hp1] Hpos Hk. unfold np_percentile. rewrite Hq.
  assert (Qle_bool 0 p && Qle_bool p 1 = true) as ->.
  { apply andb_true_intro. split; by apply Qle_bool_iff. }
  rewrite forallb_notna_finite by done.
  rewrite sort_floats_length.
  set (pos := inject_Z (Z.of_nat (length v - 1)) * p) in *.
  assert (Qfloor pos = Z.of_nat k) as Hfl by (rewrite Hpos; apply Qfloor_Z).
  rewrite Hfl, Nat2Z.id.
  pose proof (lookup_lt_Some _ _ _ Hk) as Hlt. rewrite sort_floats_length in Hlt.
  set (j := Nat.min (k + 1) (length v - 1)).
  assert (j < length (sort_floats v))%nat as Hj by (rewrite sort_floats_length; lia).
  destruct (lookup_lt_is_Some_2 _ _ Hj) as [y Hy].
  rewrite !nth_lookup, Hk, Hy. cbn [default from_option]. unfold id.
  pose proof (sort_floats_finite v Hv) as Hsf. rewrite Forall_lookup in Hsf.
  destruct (Hsf _ _ Hy) as [b ->].
  unfold lerp, fsub, fin. simpl.
  assert (Qle_bool (1 # 2) (Qred (pos - inject_Z (Z.of_nat k))) = false) as ->.
  { apply not_true_is_false. intros E%Qle_bool_iff.
    rewrite Qred_correct, Hpos in E. lra. }
  f_equal. change (Fin (Qred x)) with (fin x).
  apply fin_eq. rewrite !Qred_correct, Hpos. ring.
Qed.

(** X10.  At a confidence level of 1 the historical VaR is the absolute
    value of the worst return, and at a confidence level of 0 the absolute
    value of the best: on finite returns, two or more. *)
Theorem value_at_risk_extremes (r : list (Z * Q)) :
  (2 <= length r)%nat ->
  (exists x, x ∈ r.*2 /\ (forall y, y ∈ r.*2 -> x <= y) /\
     value_at_risk_historical (finite_series r) (Fin 1) = Ok (fin (Qabs x))) /\
  (exists x, x ∈ r.*2 /\ (forall y, y ∈ r.*2 -> y <= x) /\
     value_at_risk_historical (finite_series r) (Fin 0) = Ok (fin (Qabs x))).
Proof.
  intros Hlen. unfold value_at_risk_historical. rewrite finite_series_length.
  destruct (length r <? 2)%nat eqn:E; [apply Nat.ltb_lt in E; lia|].
  rewrite finite_series_values.
  set (v := map Fin r.*2).
  assert (length v = length r) as Hlv by (subst v; by rewrite length_map, length_fmap).
  assert (Forall finite v) as Hv by apply Forall_finite_Fin.
  assert (Forall (fun y => notna y = true) (sort_floats v)) as Hpres.
  { apply Forall_forall. intros z Hz. apply (proj1 (sort_floats_elem _ _)) in Hz.
    rewrite Forall_forall in Hv. by apply finite_notna, Hv. }
  pose proof (sort_floats_sorted v) as Hsorted.
  assert (Forall (fun y => notna y = true) v) as Hpv.
  { eapply Forall_impl; [exact Hv|]. apply finite_notna. }
  specialize (Hsorted Hpv).
  pose proof (sort_floats_finite v Hv) as Hsf. rewrite Forall_lookup in Hsf.
  assert (forall k x, sort_floats v !! k = Some (Fin x) -> x ∈ r.*2) as Hmem.
  { intros k x Hk. apply list_elem_of_lookup_2 in Hk.
    apply (proj1 (sort_floats_elem _ _)) in Hk. subst v.
    apply list_elem_of_fmap in Hk as (x' & [= ->] & Hin). done. }
  assert (forall y, y ∈ r.*2 -> exists i, sort_floats v !! i = Some (Fin y)) as Hidx.
  { intros y Hy. apply list_elem_of_lookup_1. apply sort_floats_elem.
    subst v. apply list_elem_of_fmap. by exists y. }
  split.
  - assert (0 < length (sort_floats v))%nat as H0 by (rewrite sort_floats_length; lia).
    destruct (lookup_lt_is_Some_2 _ _ H0) as [x0 Hx0].
    destruct (Hsf _ _ Hx0) as [x ->].
    exists x. split; [by eapply Hmem|]. split.
    + intros y Hy. destruct (Hidx y Hy) as [i Hi]. apply Qle_bool_iff.
      apply (sorted_lookup_le (sort_floats v) 0 i (Fin x) (Fin y)); try done. lia.
    + change (fmul (fsub fone (Fin 1)) (of_Z 100)) with (Fin 0).
      rewrite (np_percentile_exact v 0 0 0%nat x); try done.
      * unfold fabs, fin. f_equal. apply fin_eq. by rewrite Qred_correct.
      * change (inject_Z (Z.of_nat 0)) with 0. ring.
  - assert (length r - 1 < length (sort_floats v))%nat as H0
      by (rewrite sort_floats_length; lia).
    destruct (lookup_lt_is_Some_2 _ _ H0) as [x0 Hx0].
    destruct (Hsf _ _ Hx0) as [x ->].
    exists x. split; [by eapply Hmem|]. split.
    + intros y Hy. destruct (Hidx y Hy) as [i Hi]. apply Qle_bool_iff.
      apply (sorted_lookup_le (sort_floats v) i (length r - 1) (Fin y) (Fin x)); try done.
      apply lookup_lt_Some in Hi. rewrite sort_floats_length in Hi. lia.
    + change (fmul (fsub fone (Fin 0)) (of_Z 100)) with (Fin 100).
      rewrite (np_percentile_exact v 100 1 (length r - 1) x); try done.
      * unfold fabs, fin. f_equal. apply fin_eq. by rewrite Qred_correct.
      * rewrite Hlv. ring.
Qed.

Lemma value_at_risk_extremes_witness :
  exists x, x ∈ five_returns.*2 /\ (forall y, y ∈ five_returns.*2 -> x <= y) /\
    value_at_risk_historical (finite_series five_returns) (Fin 1) = Ok (fin (Qabs x)).
Proof.
  apply (proj1 (value_at_risk_extremes five_returns ltac:(simpl; lia))).
Defined.

(** ** Valuation followed by the summary *)

Lemma run_valuation_summary h p hs prices :
  h !! p = Some (holdings_frame hs) ->
  let rows := map (value_holding prices) hs in
  let total_invested := fsum (dropna (map Total_Cost rows)) in
  let total_value := fsum (dropna (map Current_Value rows)) in
  run (calculate_portfolio_values p prices ≫= portfolio_summary) h
  = (Ok (total_invested, total_value,
         fmul (fdiv (fsub total_value total_invested) total_invested) (of_Z 100)),
     h ++ [valued_frame rows]).
Proof.
  intros Hp rows ti tv.
  rewrite run_bind, (calculate_portfolio_values_run _ _ _ _ Hp).
  apply portfolio_summary_run. by rewrite lookup_app_r, Nat.sub_diag.
Qed.

Lemma total_cost_column prices hs :
  Forall (fun x => finite (Buy_Price x)) hs ->
  dropna (map Total_Cost (map (value_holding prices) hs)) = map initial_value hs.
Proof.
  intros Hfin. rewrite map_map. cbn [value_holding Total_Cost].
  rewrite dropna_finite; [done|].
  apply Forall_forall. intros x Hx. apply list_elem_of_fmap in Hx as (y & -> & Hy).
  rewrite Forall_forall in Hfin. apply initial_value_finite. by apply Hfin.
Qed.

Lemma current_value_column (prices : gmap string float) hs :
  (forall t c, prices !! t = Some c -> finite c) ->
  dropna (map Current_Value (map (value_holding prices) hs))
  = map (fun x => fmul (of_Z (Quantity x)) (default NaN (prices !! Ticker x)))
        (filter (fun x => is_Some (prices !! Ticker x)) hs).
Proof.
  intros Hfin. rewrite map_map. cbn [value_holding Current_Value]. unfold dropna.
  induction hs as [|x hs IH]; [done|]. cbn [map].
  destruct (prices !! Ticker x) as [c|] eqn:E.
  - rewrite (filter_cons_True _ x) by (by rewrite E).
    destruct (Hfin _ _ E) as [q ->]. cbn [map default from_option].
    rewrite E. cbn [default from_option].
    rewrite filter_cons_True by done. by rewrite IH.
  - rewrite (filter_cons_False _ x) by (rewrite E; by intros [? ?]).
    cbn [default from_option].
    rewrite filter_cons_False; [exact IH|].
    unfold of_Z, fin. simpl. done.
Qed.

(** X11.  The application's valuation followed by its summary: the total
    invested is the purchase cost of every holding, while the total value
    adds up the holdings whose ticker has a current price only; a holding
    without a price is counted at cost and left out of the value. *)
Theorem valuation_then_summary h p hs (prices : gmap string float) :
  h !! p = Some (holdings_frame hs) ->
  Forall (fun x => finite (Buy_Price x)) hs ->
  (forall t c, prices !! t = Some c -> finite c) ->
  let priced := filter (fun x => is_Some (prices !! Ticker x)) hs in
  let total_invested := fsum (map initial_value hs) in
  let total_value :=
    fsum (map (fun x => fmul (of_Z (Quantity x)) (default NaN (prices !! Ticker x)))
              priced) in
  (run (calculate_portfolio_values p prices ≫= portfolio_summary) h).1
  = Ok (total_invested, total_value,
        fmul (fdiv (fsub total_value total_invested) total_invested) (of_Z 100)).
Proof.
  intros Hp Hbuy Hprices priced ti tv. subst priced ti tv.
  rewrite (run_valuation_summary _ _ _ _ Hp). cbn [fst].
  by rewrite total_cost_column, current_value_column.
Qed.

Lemma valuation_then_summary_witness :
  (run (calculate_portfolio_values 0%nat {[ "AAPL" := Fin 150 ]} ≫= portfolio_summary)
       [holdings_frame three_lots]).1
  = Ok (Fin 3000, Fin 3000, Fin 0).
Proof.
  rewrite (valuation_then_summary [holdings_frame three_lots] 0%nat three_lots
             {[ "AAPL" := Fin 150 ]} eq_refl).
  - vm_compute. reflexivity.
  - repeat constructor; by eexists.
  - intros t c Hc. apply lookup_singleton_Some in Hc as [_ <-]. by eexists.
Defined.

(** ** The rows of the valued table *)

(** X12.  In the valued table the return of a row does not depend on the
    quantity: for a holding with a quantity other than zero, a finite buy
    price other than zero and a finite current price, Gain/Loss is
    [quantity * (current - buy)] and Return % is [(current / buy - 1) * 100]. *)
Theorem row_return_formula h p hs (prices : gmap string float) i x b c :
  h !! p = Some (holdings_frame hs) ->
  hs !! i = Some x ->
  Quantity x <> 0%Z -> Buy_Price x = Fin b -> ~ b == 0 ->
  prices !! Ticker x = Some (Fin c) ->
  exists rows v,
    run (calculate_portfolio_values p prices) h
    = (Ok (length h), h ++ [valued_frame rows]) /\
    rows !! i = Some v /\ lot v = x /\
    Gain_Loss v = fin (inject_Z (Quantity x) * (c - b)) /\
    Return_pct v = fin ((c / b - 1) * 100).
Proof.
  intros Hp Hi Hq Hb Hb0 Hc.
  exists (map (value_holding prices) hs), (value_holding prices x).
  split; [by apply calculate_portfolio_values_run|].
  split; [by rewrite map_fmap, list_lookup_fmap, Hi|].
  split; [done|].
  unfold value_holding. cbn [Gain_Loss Return_pct]. rewrite Hb, Hc.
  cbn [default from_option]. unfold of_Z, fsub, fin. simpl.
  assert (~ inject_Z (Quantity x) == 0) as Hq0.
  { intros E. apply Hq. change 0 with (inject_Z 0) in E.
    by apply (proj1 (inject_Z_injective _ _)) in E. }
  split.
  - apply fin_eq. rewrite !Qred_correct. ring.
  - rewrite Qeq_bool_false.
    + apply fin_eq. rewrite !Qred_correct. field. by split.
    + rewrite !Qred_correct. intros E. apply Qmult_integral in E. tauto.
Qed.

Lemma row_return_formula_witness :
  exists rows v,
    run (calculate_portfolio_values 0%nat {[ "AAPL" := Fin 150 ]}) [holdings_frame three_lots]
    = (Ok 1%nat, [holdings_frame three_lots] ++ [valued_frame rows]) /\
    rows !! 0%nat = Some v /\ lot v = lot_of "AAPL" 10 100 /\
    Gain_Loss v = fin (inject_Z 10 * (150 - 100)) /\
    Return_pct v = fin ((150 / 100 - 1) * 100).
Proof.
  apply (row_return_formula [holdings_frame three_lots] 0%nat three_lots
           {[ "AAPL" := Fin 150 ]} 0%nat (lot_of "AAPL" 10 100) 100 150);
    try reflexivity; discriminate.
Defined.

Lemma fsum_zip_fsub (q1 q2 : list Q) :
  length q1 = length q2 ->
  fsum (zip_with fsub (map Fin q1) (map Fin q2))
  = fsub (fsum (map Fin q1)) (fsum (map Fin q2)).
Proof.
  revert q2. induction q1 as [|a q1 IH]; intros [|b q2] Hl; try done.
  cbn [map zip_with]. rewrite !fsum_cons, IH by (simpl in Hl; lia).
  rewrite !fsum_Fin. unfold fsub, fin. simpl. apply fin_eq.
  rewrite !Qred_correct. ring.
Qed.

(** X13.  When every holding has a finite buy price and a finite current
    price, the Gain/Loss column of the valued table adds up to the
    difference of the two totals of the summary. *)
Theorem gains_add_up h p hs (prices : gmap string float) :
  h !! p = Some (holdings_frame hs) ->
  Forall (fun x => finite (Buy_Price x)) hs ->
  Forall (fun x => exists c, prices !! Ticker x = Some (Fin c)) hs ->
  exists rows total_invested total_value total_return,
    run (calculate_portfolio_values p prices) h
    = (Ok (length h), h ++ [valued_frame rows]) /\
    (run (calculate_portfolio_values p prices ≫= portfolio_summary) h).1
    = Ok (total_invested, total_value, total_return) /\
    pd_sum (map Gain_Loss rows) = fsub total_value total_invested.
Proof.
  intros Hp Hbuy Hpr.
  set (rows := map (value_holding prices) hs).
  exists rows. do 3 eexists.
  split; [by apply calculate_portfolio_values_run|].
  split; [by rewrite (run_valuation_summary _ _ _ _ Hp)|].
  assert (Forall finite (map Total_Cost rows)) as Hc.
  { subst rows. rewrite map_map. apply Forall_forall. intros y Hy.
    apply list_elem_of_fmap in Hy as (x & -> & Hx). cbn [value_holding Total_Cost].
    rewrite Forall_forall in Hbuy. apply initial_value_finite. by apply Hbuy. }
  assert (Forall finite (map Current_Value rows)) as Hv.
  { subst rows. rewrite map_map. apply Forall_forall. intros y Hy.
    apply list_elem_of_fmap in Hy as (x & -> & Hx). cbn [value_holding Current_Value].
    rewrite Forall_forall in Hpr. destruct (Hpr _ Hx) as [c ->].
    apply finite_fmul; by eexists. }
  rewrite !dropna_finite by done.
  destruct (finite_list _ Hc) as [qc Eqc]. destruct (finite_list _ Hv) as [qv Eqv].
  assert (map Gain_Loss rows = zip_with fsub (map Current_Value rows) (map Total_Cost rows))
    as ->.
  { subst rows. clear. induction hs as [|x hs IH]; [done|].
    cbn [map zip_with]. by rewrite IH. }
  fold rows. rewrite Eqc, Eqv.
  assert (length qv = length qc) as Hl.
  { apply (f_equal length) in Eqc, Eqv. rewrite !length_map in Eqc, Eqv. lia. }
  rewrite <- fsum_zip_fsub by done.
  rewrite pd_sum_dropna, dropna_finite; [done|].
  clear. revert qc. induction qv as [|a qv IH]; intros [|b qc]; try constructor.
  - apply finite_fsub; by eexists.
  - apply IH.
Qed.

Lemma gains_add_up_witness :
  exists rows total_invested total_value total_return,
    run (calculate_portfolio_values 0%nat {[ "AAPL" := Fin 150 ]})
        [holdings_frame aapl_lots]
    = (Ok 1%nat, [holdings_frame aapl_lots] ++ [valued_frame rows]) /\
    (run (calculate_portfolio_values 0%nat {[ "AAPL" := Fin 150 ]} ≫= portfolio_summary)
         [holdings_frame aapl_lots]).1
    = Ok (total_invested, total_value, total_return) /\
    pd_sum (map Gain_Loss rows) = fsub total_value total_invested.
Proof.
  apply (gains_add_up [holdings_frame aapl_lots] 0%nat aapl_lots {[ "AAPL" := Fin 150 ]}).
  - reflexivity.
  - repeat constructor; by eexists.
  - repeat constructor; by exists 150.
Defined.

(** ** Tables without the columns the code reads *)

Lemma assoc_set_column_ne (name k : string) (c : column) (l : list (string * column)) :
  name <> k -> assoc name (set_column k c l) = assoc name l.
Proof.
  intros Hne. induction l as [|[k' v] l IH]; cbn [set_column assoc].
  - destruct (String.eqb k name) eqn:E; [|done].
    apply String.eqb_eq in E. congruence.
  - destruct (String.eqb k' k) eqn:E; cbn [assoc].
    + apply String.eqb_eq in E. subst k'.
      destruct (String.eqb k name) eqn:E2; [|done].
      apply String.eqb_eq in E2. congruence.
    + by rewrite IH.
Qed.

(** X14.  A table that lacks one of the columns the code reads makes it
    raise [KeyError]: Ticker, Quantity or Buy_Price for
    [calculate_portfolio_values], Total_Cost for [portfolio_summary] (which
    therefore rejects a holdings table that was not valued first). *)
Theorem missing_column_raises h p df (prices : gmap string float) :
  h !! p = Some df ->
  ((assoc "Ticker" (df_columns df) = None \/
    assoc "Quantity" (df_columns df) = None \/
    assoc "Buy_Price" (df_columns df) = None) ->
   (run (calculate_portfolio_values p prices) h).1 = Raise KeyError) /\
  (assoc "Total_Cost" (df_columns df) = None ->
   run (portfolio_summary p) h = (Raise KeyError, h)).
Proof.
  intros Hp. split.
  - intros Hmiss. unfold calculate_portfolio_values.
    rewrite run_bind, (run_copy _ _ _ Hp).
    rewrite run_bind, run_getitem_last. unfold df_getitem at 1.
    destruct (assoc "Ticker" (df_columns df)) as [t|] eqn:Et; [|done].
    rewrite run_bind, run_setitem_last.
    rewrite run_bind, run_getitem_last. unfold df_getitem at 1, df_setitem at 1.
    cbn [df_columns]. rewrite assoc_set_column_ne by done.
    destruct (assoc "Quantity" (df_columns df)) as [q|] eqn:Eq; [|done].
    rewrite run_bind, run_getitem_last. unfold df_getitem at 1, df_setitem at 1.
    cbn [df_columns]. rewrite assoc_set_column_ne by done.
    destruct (assoc "Buy_Price" (df_columns df)) as [b|] eqn:Eb; [|done].
    destruct Hmiss as [?|[?|?]]; congruence.
  - intros Hmiss. unfold portfolio_summary.
    rewrite run_bind, (run_getitem _ _ _ _ Hp). unfold df_getitem. by rewrite Hmiss.
Qed.

Lemma missing_column_raises_witness :
  run (portfolio_summary 0%nat) [holdings_frame three_lots]
  = (Raise KeyError, [holdings_frame three_lots]).
Proof.
  apply (proj2 (missing_column_raises [holdings_frame three_lots] 0%nat
                  (holdings_frame three_lots) ∅ eq_refl)).
  reflexivity.
Defined.

(** ** The state of the return builder before the weighted sum *)

Lemma select_map {A} (d : A) (l : list (string * A)) names r :
  select l names = Ok r -> r = map (fun t => (t, default d (assoc t l))) names.
Proof.
  revert r. induction names as [|k names IH]; intros r; cbn [select map].
  - by intros [= <-].
  - destruct (assoc k l) as [v|]; [|done].
    destruct (select l names) as [r'|e]; [|done].
    intros [= <-]. cbn [default from_option]. f_equal. by apply IH.
Qed.

Lemma keep_length_le {A} (mask : list bool) (l : list A) :
  (length (keep mask l) <= length l)%nat.
Proof.
  unfold keep. rewrite length_fmap.
  etrans; [apply length_filter|]. rewrite length_zip_with. lia.
Qed.

Lemma keep_sublist {A} (mask : list bool) (l : list A) : keep mask l `sublist_of` l.
Proof.
  revert l. induction mask as [|m mask IH]; intros [|x l];
    rewrite ?keep_nil_l, ?keep_nil_r; try apply sublist_nil_l.
  rewrite keep_cons. destruct m; [by apply sublist_skip | by apply sublist_cons].
Qed.

Lemma keep_false_head {A} (mask : list bool) (l : list A) :
  head mask = Some false -> keep mask l `sublist_of` (tail l).
Proof.
  destruct mask as [|[] mask]; try done. intros _.
  destruct l as [|x l]; [by rewrite keep_nil_r|].
  rewrite keep_cons. apply keep_sublist.
Qed.

Lemma row_mask_head `{Pandas} n (cols : list (list float)) :
  cols <> [] -> Forall (fun c => length c = S n) cols ->
  head (row_mask (S n) (map pct_change cols)) = Some false.
Proof.
  intros Hne Hl. destruct cols as [|c cols]; [done|].
  apply Forall_cons in Hl as [Hc Hl]. cbn [map]. rewrite row_mask_cons.
  assert (exists r, pct_change c = NaN :: r) as [r ->].
  { unfold pct_change.
    assert (length (if pct_change_pads then ffill c else c) = S n) as Hlen.
    { destruct pct_change_pads; [unfold ffill; by rewrite ffill_from_length | done]. }
    destruct (if pct_change_pads then ffill c else c) as [|x l]; [done|].
    by eexists. }
  cbn [map notna is_nan negb].
  assert (exists m ms, row_mask (S n) (map pct_change cols) = m :: ms) as (m & ms & ->).
  { clear Hc Hne. induction cols as [|c' cols IH].
    - cbn. by eexists _, _.
    - apply Forall_cons in Hl as [Hc' Hl]. destruct (IH Hl) as (m & ms & E).
      cbn [map]. rewrite row_mask_cons, E.
      pose proof (length_pct_change c') as Hlc. rewrite Hc' in Hlc.
      destruct (pct_change c') as [|y ys]; [done|]. cbn. by eexists _, _. }
  done.
Qed.

Section Builder.
Context `{Pandas} `{HashOrder}.

(** What [weights_and_returns] hands to the weighted sum: the common
    tickers in some order without repeats, the weight of each as computed
    from the whole portfolio, and its returns on the dates [dropna] keeps. *)
Lemma weights_and_returns_selected h a b dates prices hs :
  h !! a = Some (panel_frame dates prices) ->
  h !! b = Some (holdings_frame hs) ->
  let aggregated := groupby_sum (map Ticker hs) (map initial_value hs) in
  let weights := map (fun kv => (kv.1, fdiv kv.2 (pd_sum aggregated.*2))) aggregated in
  let mask := row_mask (length dates) (map pct_change prices.*2) in
  exists tickers,
    NoDup tickers /\
    (forall t, t ∈ tickers <-> t ∈ map Ticker hs /\ t ∈ prices.*1) /\
    (run (weights_and_returns a b) h).1
    = Ok (map (fun t => (t, default NaN (assoc t weights))) tickers,
          {| ff_index := keep mask dates;
             ff_columns :=
               map (fun t => (t, keep mask (pct_change (default [] (assoc t prices)))))
                   tickers |}).
Proof.
  intros Ha Hb aggregated weights mask.
  rewrite (weights_and_returns_run h a b dates prices hs Ha Hb).
  fold aggregated. fold weights.
  set (daily := ff_dropna (ff_pct_change {| ff_index := dates; ff_columns := prices |})).
  set (common := list_of_set (list_to_set weights.*1 ∩ list_to_set (ff_columns daily).*1)).
  assert (weights.*1 = (aggregated_cost hs).*1) as Ekeys
    by exact (fst_map_snd (fun v => fdiv v (pd_sum aggregated.*2)) (aggregated_cost hs)).
  assert ((ff_columns daily).*1 = prices.*1) as Ecols
    by exact (daily_returns_columns _ _).
  assert (forall t, t ∈ common <-> t ∈ map Ticker hs /\ t ∈ prices.*1) as Hcommon.
  { intros t. subst common. rewrite list_of_set_elem, elem_of_intersection.
    rewrite !elem_of_list_to_set, Ekeys, Ecols, aggregated_cost_keys. done. }
  exists common. split; [apply list_of_set_NoDup|]. split; [done|].
  destruct (select_total weights common) as [w Ew].
  { intros k Hk. apply Hcommon in Hk as [Hk _].
    rewrite Ekeys. by apply aggregated_cost_keys. }
  destruct (select_total (ff_columns daily) common) as [cols Ed].
  { intros k Hk. apply Hcommon in Hk as [_ Hk]. by rewrite Ecols. }
  unfold ff_select. rewrite Ew, Ed.
  rewrite (select_map NaN _ _ _ Ew), (select_map [] _ _ _ Ed).
  assert (daily = {| ff_index := keep mask dates;
                     ff_columns :=
                       map (fun kc => (kc.1, keep mask (pct_change kc.2))) prices |}) as Edaily.
  { subst daily mask. unfold ff_dropna, ff_pct_change. cbn [ff_columns ff_index].
    rewrite (snd_map_snd pct_change prices). f_equal. by rewrite map_map. }
  rewrite Edaily. cbn [ff_index ff_columns]. do 3 f_equal.
  apply map_ext. intros t. f_equal.
  rewrite (assoc_map (fun c => keep mask (pct_change c))).
  destruct (assoc t prices) as [col|]; cbn [fmap option_fmap option_map default from_option].
  - done.
  - unfold pct_change. destruct pct_change_pads; cbn; by rewrite keep_nil_r.
Qed.

End Builder.

(** ** The weighted sum, row by row *)

Lemma list_as_seq (c : list float) :
  c = map (fun i => default NaN (c !! i)) (seq 0 (length c)).
Proof.
  induction c as [|x c IH]; [done|].
  cbn [length seq map lookup list_lookup default from_option]. f_equal.
  rewrite <- seq_shift, map_map. exact IH.
Qed.

Lemma replicate_as_seq {A} (x : A) n : replicate n x = map (fun _ => x) (seq 0 n).
Proof.
  induction n as [|n IH]; [done|].
  cbn [replicate seq map]. f_equal. by rewrite <- seq_shift, map_map.
Qed.

Lemma row_sums_rows (cols : list (list float)) n :
  Forall (fun c => length c = n) cols ->
  foldr (fun c acc => zip_with fadd (map fillna0 c) acc) (replicate n fzero) cols
  = map (fun i => fsum (map (fun c => fillna0 (default NaN (c !! i))) cols)) (seq 0 n).
Proof.
  induction 1 as [|c cols Hc _ IH]; cbn [foldr map].
  - apply replicate_as_seq.
  - rewrite IH. rewrite (list_as_seq c) at 1. rewrite Hc, map_map.
    rewrite zip_with_same_seq. apply map_ext. intros i. by rewrite fsum_cons.
Qed.

Lemma cumprod_from_length acc v : length (cumprod_from acc v) = length v.
Proof.
  revert acc. induction v as [|x v IH]; intros acc; [done|].
  cbn [cumprod_from]. destruct (is_nan x); cbn [length]; by rewrite IH.
Qed.

Lemma snd_map_pair {A B C} (f : A -> B) (l : list A) (g : A -> C) :
  (map (fun t => (g t, f t)) l).*2 = map f l.
Proof. induction l as [|x l IH]; [done|]. cbn. by f_equal. Qed.

Lemma assoc_map_key {A} (f : string -> A) (l : list string) t :
  t ∈ l -> assoc t (map (fun k => (k, f k)) l) = Some (f t).
Proof.
  induction l as [|k l IH]; intros Hin; [by apply elem_of_nil in Hin|].
  cbn [map assoc]. destruct (String.eqb_spec k t) as [->|Hne]; [done|].
  apply IH. apply elem_of_cons in Hin as [->|Hin]; done.
Qed.

Section Rows.
Context `{Pandas} `{HashOrder}.

Lemma portfolio_returns_rows h a b dates prices hs :
  h !! a = Some (panel_frame dates prices) ->
  h !! b = Some (holdings_frame hs) ->
  Forall (fun kc => length kc.2 = length dates) prices ->
  let aggregated := groupby_sum (map Ticker hs) (map initial_value hs) in
  let weights := map (fun kv => (kv.1, fdiv kv.2 (pd_sum aggregated.*2))) aggregated in
  let mask := row_mask (length dates) (map pct_change prices.*2) in
  let kept := keep mask dates in
  exists tickers,
    NoDup tickers /\
    (forall t, t ∈ tickers <-> t ∈ map Ticker hs /\ t ∈ prices.*1) /\
    let rets :=
      zip kept
        (map (fun i =>
                fsum (map (fun t => fillna0 (fmul (kept_return dates prices t i)
                                                  (default NaN (assoc t weights))))
                          tickers))
             (seq 0 (length kept))) in
    (run (calculate_portfolio_returns a b) h).1
    = Ok (rets, with_index rets (cumprod (map (fadd fone) (s_values rets)))).
Proof.
  intros Ha Hb Hwf aggregated weights mask kept.
  destruct (weights_and_returns_selected h a b dates prices hs Ha Hb)
    as (tickers & Hnd & Hmem & Hrun).
  exists tickers. split; [done|]. split; [done|]. cbn zeta.
  unfold calculate_portfolio_returns. rewrite run_bind.
  destruct (run (weights_and_returns a b) h) as [r h'].
  cbn [fst] in Hrun. subst r. rewrite run_ret. cbn [fst snd].
  fold aggregated weights mask kept.
  set (w := map (fun t => (t, default NaN (assoc t weights))) tickers).
  assert (ff_sum_axis1
            (ff_mul {| ff_index := kept;
                       ff_columns :=
                         map (fun t => (t, keep mask (pct_change (default [] (assoc t prices)))))
                             tickers |} w)
          = zip kept
              (map (fun i =>
                      fsum (map (fun t => fillna0 (fmul (kept_return dates prices t i)
                                                        (default NaN (assoc t weights))))
                                tickers))
                   (seq 0 (length kept)))) as ->; [|done].
  unfold ff_sum_axis1, ff_mul. cbn [ff_index ff_columns]. f_equal.
  rewrite !map_map. cbn [fst snd].
  rewrite (map_ext_in _
             (fun t => map (fun x => fmul x (default NaN (assoc t weights)))
                           (keep mask (pct_change (default [] (assoc t prices)))))).
  2: { intros t Ht. apply list_elem_of_In in Ht. subst w.
       by rewrite (assoc_map_key (fun t => default NaN (assoc t weights))). }
  rewrite row_sums_rows.
  - apply map_ext. intros i. rewrite map_map. f_equal. apply map_ext. intros t.
    f_equal. unfold kept_return. fold mask.
    rewrite map_fmap, list_lookup_fmap.
    by destruct (keep mask (pct_change (default [] (assoc t prices))) !! i).
  - apply Forall_forall. intros c Hc. apply list_elem_of_fmap in Hc as (t & -> & Ht).
    rewrite length_map. apply keep_length; [|apply row_mask_length_n].
    apply Hmem in Ht as [_ Ht].
    destruct (assoc_is_Some prices t Ht) as [col Hcol]. rewrite Hcol.
    cbn [default from_option]. rewrite length_pct_change.
    apply assoc_Some_elem in Hcol. rewrite Forall_forall in Hwf.
    pose proof (Hwf _ Hcol) as Hlc. cbn [snd] in Hlc. unfold id. rewrite Hlc.
    apply row_mask_length_n.
Qed.

End Rows.

Lemma kept_dates_sublist `{Pandas} (dates : list Z) (prices : list (string * list float)) :
  prices <> [] ->
  Forall (fun kc => length kc.2 = length dates) prices ->
  keep (row_mask (length dates) (map pct_change prices.*2)) dates `sublist_of` (tail dates).
Proof.
  intros Hne Hwf. destruct dates as [|d dates]; [by rewrite keep_nil_r|].
  apply keep_false_head. apply row_mask_head.
  - destruct prices; [done | discriminate].
  - rewrite Forall_fmap. eapply Forall_impl; [exact Hwf|]. by intros [k c].
Qed.

(** X15.  The portfolio return on a date is the weighted sum of the
    tickers' returns on that date, over the tickers that are both in the
    portfolio and in the panel, each weighted by its share of the purchase
    cost of the whole portfolio (a product that is not a number counts as
    zero). *)
Theorem portfolio_return_is_weighted_sum `{Pandas} `{HashOrder}
    h a b dates prices hs :
  h !! a = Some (panel_frame dates prices) ->
  h !! b = Some (holdings_frame hs) ->
  Forall (fun kc => length kc.2 = length dates) prices ->
  Forall (fun x => finite (Buy_Price x)) hs ->
  let kept := keep (row_mask (length dates) (map pct_change prices.*2)) dates in
  exists tickers rets cum,
    (run (calculate_portfolio_returns a b) h).1 = Ok (rets, cum) /\
    NoDup tickers /\
    (forall t, t ∈ tickers <-> t ∈ map Ticker hs /\ t ∈ prices.*1) /\
    forall i d, kept !! i = Some d ->
      rets !! i
      = Some (d, fsum (map (fun t => fillna0 (fmul (kept_return dates prices t i)
                                               (fdiv (cost_of t hs) (cost_total hs))))
                           tickers)).
Proof.
  intros Ha Hb Hwf Hbuy kept.
  destruct (portfolio_returns_rows h a b dates prices hs Ha Hb Hwf)
    as (tickers & Hnd & Hmem & Hrun).
  cbn zeta in Hrun. fold kept in Hrun. exists tickers. do 2 eexists.
  split; [exact Hrun|]. split; [done|]. split; [done|].
  intros i d Hd. unfold Series. rewrite lookup_zip_with, Hd. cbn [mbind option_bind].
  rewrite map_fmap, list_lookup_fmap, lookup_seq_lt by by eapply lookup_lt_Some.
  cbn [fmap option_fmap option_map mbind option_bind]. do 3 f_equal.
  apply map_ext_in. intros t Ht. apply list_elem_of_In in Ht. do 2 f_equal.
  apply Hmem in Ht as [Ht _].
  fold (aggregated_cost hs). rewrite (pd_sum_aggregated hs Hbuy).
  rewrite (assoc_map (fun v => fdiv v (cost_total hs))), aggregated_cost_assoc.
  by rewrite bool_decide_eq_true_2.
Qed.

Lemma portfolio_return_is_weighted_sum_witness :
  exists tickers rets cum,
    (run (@calculate_portfolio_returns pandas_3 elements_order 0%nat 1%nat)
         [full_panel; holdings_frame three_lots]).1 = Ok (rets, cum) /\
    NoDup tickers /\
    (forall t, t ∈ tickers <-> t ∈ map Ticker three_lots /\ t ∈ ["AAPL"; "MSFT"]) /\
    forall i d, [2; 3]%Z !! i = Some d ->
      rets !! i
      = Some (d, fsum (map (fun t =>
                        fillna0 (fmul (@kept_return pandas_3 [1; 2; 3]%Z
                                         [("AAPL", [Fin 100; Fin 110; Fin 121]);
                                          ("MSFT", [Fin 40; Fin 50; Fin 60])] t i)
                                      (fdiv (cost_of t three_lots) (cost_total three_lots))))
                           tickers)).
Proof.
  apply (@portfolio_return_is_weighted_sum pandas_3 elements_order
           [full_panel; holdings_frame three_lots] 0%nat 1%nat [1; 2; 3]%Z
           [("AAPL", [Fin 100; Fin 110; Fin 121]); ("MSFT", [Fin 40; Fin 50; Fin 60])]
           three_lots).
  - reflexivity.
  - reflexivity.
  - repeat constructor.
  - repeat constructor; by eexists.
Defined.

Lemma with_index_index (s : Series) (v : list float) :
  length v = length s -> s_index (with_index s v) = s_index s.
Proof.
  intros Hl. unfold with_index, s_index at 1. apply fst_zip.
  unfold s_index. rewrite length_fmap. lia.
Qed.

(** X16.  The dates of the return series and of the cumulative series are
    the dates of the panel on which every column of the panel has a return.
    With at least one column the first date is never among them, so a panel
    of fewer than two dates gives two empty series, on which the
    application's [portfolio_cumulative.iloc[-1]] raises [IndexError]. *)
Theorem return_dates `{Pandas} `{HashOrder} h a b dates prices hs :
  h !! a = Some (panel_frame dates prices) ->
  h !! b = Some (holdings_frame hs) ->
  Forall (fun kc => length kc.2 = length dates) prices ->
  let kept := keep (row_mask (length dates) (map pct_change prices.*2)) dates in
  exists rets cum,
    (run (calculate_portfolio_returns a b) h).1 = Ok (rets, cum) /\
    s_index rets = kept /\ s_index cum = kept /\
    (prices <> [] -> kept `sublist_of` (tail dates)) /\
    (prices <> [] -> (length dates < 2)%nat ->
     rets = [] /\ cum = [] /\ portfolio_total_return cum = None).
Proof.
  intros Ha Hb Hwf kept.
  destruct (portfolio_returns_rows h a b dates prices hs Ha Hb Hwf)
    as (tickers & Hnd & Hmem & Hrun).
  cbn zeta in Hrun. fold kept in Hrun. do 2 eexists.
  split; [exact Hrun|].
  match type of Hrun with _ = Ok (?r, _) => set (rets := r) in * end.
  assert (s_index rets = kept) as Hidx.
  { subst rets. unfold s_index. apply fst_zip. by rewrite length_map, length_seq. }
  assert (s_index (with_index rets (cumprod (map (fadd fone) (s_values rets)))) = kept)
    as Hcum.
  { rewrite with_index_index; [done|].
    unfold cumprod. rewrite cumprod_from_length, length_map.
    unfold s_values. by rewrite length_fmap. }
  split; [done|]. split; [done|].
  split; [intros Hne; by apply kept_dates_sublist|].
  intros Hne Hshort.
  assert (kept = []) as Hk.
  { pose proof (kept_dates_sublist dates prices Hne Hwf) as Hsub. fold kept in Hsub.
    destruct dates as [|d [|d' dates]]; simpl in Hshort; try lia.
    - by apply sublist_nil_r in Hsub.
    - by apply sublist_nil_r in Hsub. }
  assert (rets = []) as Hr.
  { rewrite Hk in Hidx. unfold s_index in Hidx. by apply fmap_nil_inv in Hidx. }
  rewrite Hr. done.
Qed.

Lemma return_dates_witness :
  exists rets cum,
    (run (@calculate_portfolio_returns pandas_3 elements_order 0%nat 1%nat)
         [panel_frame [1%Z] [("AAPL", [Fin 100])]; holdings_frame aapl_lots]).1
    = Ok (rets, cum) /\
    rets = [] /\ cum = [] /\ portfolio_total_return cum = None.
Proof.
  destruct (@return_dates pandas_3 elements_order
              [panel_frame [1%Z] [("AAPL", [Fin 100])]; holdings_frame aapl_lots]
              0%nat 1%nat [1%Z] [("AAPL", [Fin 100])] aapl_lots eq_refl eq_refl)
    as (rets & cum & Hrun & _ & _ & _ & Hshort).
  - repeat constructor.
  - exists rets, cum. split; [exact Hrun|]. apply Hshort; [discriminate | simpl; lia].
Defined.

Lemma zip_replicate {A B} (l : list A) (x : B) :
  zip l (replicate (length l) x) = map (fun d => (d, x)) l.
Proof. induction l as [|a l IH]; [done|]. cbn. by f_equal. Qed.

Lemma cumprod_from_ones n : cumprod_from fone (replicate n fone) = replicate n fone.
Proof. induction n as [|n IH]; [done|]. cbn [replicate cumprod_from is_nan]. by f_equal. Qed.

(** X17.  When no ticker of the portfolio is a column of the panel, the
    code raises nothing: the portfolio return is 0 and the cumulative return
    1 on every date the panel keeps. *)
Theorem no_common_ticker `{Pandas} `{HashOrder} h a b dates prices hs :
  h !! a = Some (panel_frame dates prices) ->
  h !! b = Some (holdings_frame hs) ->
  (forall t, t ∈ map Ticker hs -> t ∉ prices.*1) ->
  let kept := keep (row_mask (length dates) (map pct_change prices.*2)) dates in
  (run (calculate_portfolio_returns a b) h).1
  = Ok (map (fun d => (d, fzero)) kept, map (fun d => (d, fone)) kept).
Proof.
  intros Ha Hb Hno kept.
  destruct (weights_and_returns_selected h a b dates prices hs Ha Hb)
    as (tickers & Hnd & Hmem & Hrun).
  assert (tickers = []) as ->.
  { destruct tickers as [|t tickers]; [done|].
    destruct (proj1 (Hmem t)) as [Ht Hp]; [by left|]. by destruct (Hno t Ht). }
  unfold calculate_portfolio_returns. rewrite run_bind.
  destruct (run (weights_and_returns a b) h) as [r h'].
  cbn [fst] in Hrun. subst r. rewrite run_ret. cbn [fst snd map]. fold kept.
  unfold ff_sum_axis1, ff_mul. cbn [ff_index ff_columns map fmap list_fmap foldr].
  rewrite zip_replicate. do 2 f_equal.
  unfold with_index, s_index, s_values.
  assert ((map (fun d : Z => (d, fzero)) kept).*1 = kept) as ->.
  { induction kept as [|d k IH]; [done|]. cbn. by f_equal. }
  assert ((map (fun d : Z => (d, fzero)) kept).*2 = replicate (length kept) fzero) as ->.
  { induction kept as [|d k IH]; [done|]. cbn. by f_equal. }
  assert (map (fadd fone) (replicate (length kept) fzero) = replicate (length kept) fone) as ->.
  { induction (length kept) as [|n IH]; [done|]. cbn [replicate map]. by f_equal. }
  unfold cumprod. rewrite cumprod_from_ones. apply zip_replicate.
Qed.

Lemma no_common_ticker_witness :
  (run (@calculate_portfolio_returns pandas_3 elements_order 0%nat 1%nat)
       [aapl_panel; holdings_frame [lot_of "MSFT" 5 200]]).1
  = Ok ([(2%Z, fzero); (3%Z, fzero)], [(2%Z, fone); (3%Z, fone)]).
Proof.
  apply (@no_common_ticker pandas_3 elements_order
           [aapl_panel; holdings_frame [lot_of "MSFT" 5 200]] 0%nat 1%nat
           [1; 2; 3]%Z [("AAPL", [Fin 100; Fin 110; Fin 121])] [lot_of "MSFT" 5 200]).
  - reflexivity.
  - reflexivity.
  - intros t Ht Hp. apply list_elem_of_singleton in Ht. apply list_elem_of_singleton in Hp.
    subst t. discriminate.
Defined.

(** ** One ticker: the cumulative return telescopes *)

Lemma cumprod_telescopes (rest : list float) : forall prev p0,
  positive_price prev -> positive_price p0 -> Forall positive_price rest ->
  cumprod_from (fdiv prev p0)
    (map (fadd fone)
       (zip_with (fun prev cur => fsub (fdiv cur prev) fone) (prev :: rest) rest))
  = map (fun p => fdiv p p0) rest.
Proof.
  induction rest as [|cur rest IH]; intros prev p0 Hprev Hp0 Hrest; [done|].
  apply Forall_cons in Hrest as [Hcur Hrest].
  cbn [zip_with map cumprod_from].
  assert (fmul (fdiv prev p0) (fadd fone (fsub (fdiv cur prev) fone)) = fdiv cur p0) as E.
  { destruct Hprev as (a & -> & Ha), Hp0 as (z & -> & Hz), Hcur as (c & -> & Hc).
    unfold fsub, fone. simpl. rewrite !Qeq_bool_false by lra.
    unfold fin. simpl. apply fin_eq. rewrite !Qred_correct. field. split; lra. }
  assert (is_nan (fadd fone (fsub (fdiv cur prev) fone)) = false) as ->.
  { destruct Hprev as (a & -> & Ha), Hcur as (c & -> & Hc).
    unfold fsub, fone. simpl. by rewrite !Qeq_bool_false by lra. }
  cbn zeta. rewrite E. f_equal. by apply IH.
Qed.

Lemma last_zip_snd {A B} (l : list A) (k : list B) :
  length l = length k -> snd <$> last (zip l k) = last k.
Proof.
  revert k. induction l as [|a l IH]; intros [|b k] Hl; try done.
  destruct l as [|a' l], k as [|b' k]; try done.
  specialize (IH (b' :: k)). cbn [zip zip_with] in *.
  rewrite !last_cons_cons. apply IH. simpl in *. lia.
Qed.

(** X18.  For a portfolio of one ticker on a panel without gaps the
    cumulative return on a date is that date's price over the first price
    of the panel, and the total return the application shows is
    [(last price / first price - 1) * 100]. *)
Theorem single_ticker_cumulative `{Pandas} `{HashOrder}
    h a b dates prices hs t p0 rest :
  h !! a = Some (panel_frame dates prices) ->
  h !! b = Some (holdings_frame hs) ->
  single_ticker t hs ->
  assoc t prices = Some (p0 :: rest) ->
  Forall (fun kc => complete_column dates kc.2) prices ->
  let cum := zip (tail dates) (map (fun p => fdiv p p0) rest) in
  (run (calculate_portfolio_returns a b) h).1
  = Ok (simple_returns dates (p0 :: rest), cum) /\
  portfolio_total_return cum
  = (fun pl => fmul (fsub (fdiv pl p0) fone) (of_Z 100)) <$> last rest.
Proof.
  intros Ha Hb Hs Hcol Hall cum.
  pose proof (single_ticker_run h a b dates prices hs t (p0 :: rest) Ha Hb Hs Hcol) as Hrun.
  cbn zeta in Hrun.
  rewrite (complete_panel_returns dates prices t (p0 :: rest) Hcol Hall) in Hrun.
  assert (complete_column dates (p0 :: rest)) as [Hlen Hpos].
  { apply assoc_Some_elem in Hcol. rewrite Forall_forall in Hall. by apply (Hall _ Hcol). }
  apply Forall_cons in Hpos as [Hp0 Hrest].
  assert (length (tail dates) = length rest) as Hl.
  { destruct dates; simpl in *; lia. }
  assert (s_values (simple_returns dates (p0 :: rest))
          = zip_with (fun prev cur => fsub (fdiv cur prev) fone) (p0 :: rest) rest) as Ev.
  { unfold simple_returns, s_values. cbn [tail]. apply snd_zip.
    rewrite length_zip_with. cbn [length]. lia. }
  assert (s_index (simple_returns dates (p0 :: rest)) = tail dates) as Ei.
  { unfold simple_returns, s_index. cbn [tail]. apply fst_zip.
    rewrite length_zip_with. cbn [length]. lia. }
  split.
  - rewrite Hrun. do 2 f_equal. unfold with_index. rewrite Ei, Ev. subst cum. f_equal.
    unfold cumprod. rewrite <- (cumprod_telescopes rest p0 p0 Hp0 Hp0 Hrest).
    f_equal. destruct Hp0 as (z & -> & Hz). simpl. rewrite Qeq_bool_false by lra.
    symmetry. apply fin_one. field. lra.
  - subst cum. unfold portfolio_total_return, iloc_last.
    rewrite last_zip_snd by (rewrite length_map; lia).
    rewrite map_fmap, fmap_last. by destruct (last rest).
Qed.

Lemma single_ticker_cumulative_witness :
  (run (@calculate_portfolio_returns pandas_3 elements_order 0%nat 1%nat)
       [full_panel; holdings_frame aapl_lots]).1
  = Ok (simple_returns [1; 2; 3]%Z [Fin 100; Fin 110; Fin 121],
        zip [2; 3]%Z (map (fun p => fdiv p (Fin 100)) [Fin 110; Fin 121])) /\
  portfolio_total_return (zip [2; 3]%Z (map (fun p => fdiv p (Fin 100)) [Fin 110; Fin 121]))
  = Some (fmul (fsub (fdiv (Fin 121) (Fin 100)) fone) (of_Z 100)).
Proof.
  apply (@single_ticker_cumulative pandas_3 elements_order
           [full_panel; holdings_frame aapl_lots] 0%nat 1%nat [1; 2; 3]%Z
           [("AAPL", [Fin 100; Fin 110; Fin 121]); ("MSFT", [Fin 40; Fin 50; Fin 60])]
           aapl_lots "AAPL" (Fin 100) [Fin 110; Fin 121]).
  - reflexivity.
  - reflexivity.
  - split; [discriminate|].
    repeat constructor; try done; eexists; (split; [reflexivity | reflexivity]).
  - reflexivity.
  - repeat constructor; eexists; (split; [reflexivity | reflexivity]).
Defined.

(** ** The closest trading day *)

Lemma py_min_from_spec {A} (key : A -> Z) (l : list A) : forall best,
  py_min_from key best l ∈ best :: l /\
  (key (py_min_from key best l) <= key best)%Z /\
  Forall (fun x => (key (py_min_from key best l) <= key x)%Z) l.
Proof.
  induction l as [|x l IH]; intros best; cbn [py_min_from].
  - split; [by left|]. split; [lia | constructor].
  - destruct (IH (if (key x <? key best)%Z then x else best)) as (Hin & Hle & Hall).
    assert ((key (if (key x <? key best)%Z then x else best) <= key best)%Z /\
            (key (if (key x <? key best)%Z then x else best) <= key x)%Z) as [H1 H2].
    { destruct (Z.ltb_spec (key x) (key best)); lia. }
    split; [|split].
    + apply elem_of_cons in Hin as [->|Hin].
      * destruct (key x <? key best)%Z; [right; by left | by left].
      * right. by right.
    + lia.
    + constructor; [lia | done].
Qed.

Lemma round_half_even_close (q : Q) :
  Qabs (inject_Z (round_half_even q) - q) <= 1 # 2.
Proof.
  unfold round_half_even.
  pose proof (Qfloor_le q) as Hlo. pose proof (Qlt_floor q) as Hhi.
  rewrite inject_Z_plus in Hhi. change (inject_Z 1) with 1 in Hhi.
  set (f := Qfloor q) in *.
  destruct (Qcompare (q - inject_Z f) (1 # 2)) eqn:E.
  - apply Qeq_alt in E.
    destruct (Z.even f); [|rewrite inject_Z_plus; change (inject_Z 1) with 1];
      apply Qabs_Qle_condition; split; lra.
  - apply Qlt_alt in E. apply Qabs_Qle_condition. split; lra.
  - apply Qgt_alt in E. rewrite inject_Z_plus. change (inject_Z 1) with 1.
    apply Qabs_Qle_condition. split; lra.
Qed.

(** X19.  [get_price_on_date] returns [None] when the download is empty.
    Otherwise it returns the close, rounded to two decimals, of a trading
    day of the download that is as close to the requested date as any: the
    requested date itself when it is a trading day, possibly a later day
    otherwise.  On a finite close the rounding moves the price by half a
    cent at most. *)
Theorem get_price_on_date_closest (data : Series) (buy_date : Z) :
  get_price_on_date [] buy_date = None /\
  (data <> [] ->
   exists d x,
     (d, x) ∈ data /\
     get_price_on_date data buy_date = Some (py_round2 x) /\
     (forall d', d' ∈ s_index data ->
        (Z.abs (d - buy_date) <= Z.abs (d' - buy_date))%Z) /\
     (buy_date ∈ s_index data -> d = buy_date)) /\
  (forall q, exists r, py_round2 (Fin q) = Fin r /\ Qabs (r - q) <= 1 # 200).
Proof.
  split; [done|]. split.
  - intros Hne. unfold get_price_on_date.
    destruct data as [|[d0 x0] data]; [done|]. cbn [s_index fmap list_fmap fst].
    set (key := fun x => Z.abs (x - buy_date)).
    destruct (py_min_from_spec key data.*1 d0) as (Hin & Hle & Hall).
    set (d := py_min_from key d0 data.*1) in *.
    assert (forall d', d' ∈ d0 :: data.*1 -> (key d <= key d')%Z) as Hmin.
    { intros d' Hd'. apply elem_of_cons in Hd' as [->|Hd']; [done|].
      rewrite Forall_forall in Hall. by apply Hall. }
    exists d, (s_at ((d0, x0) :: data) d).
    split; [by apply s_at_present|]. split; [done|]. split; [exact Hmin|].
    intros Hb. specialize (Hmin _ Hb). unfold key in Hmin.
    rewrite Z.sub_diag in Hmin. simpl in Hmin. lia.
  - intros q. unfold py_round2, fin. eexists. split; [reflexivity|].
    rewrite Qred_correct.
    pose proof (round_half_even_close (q * 100)) as Hr.
    apply Qabs_Qle_condition in Hr as [H1 H2].
    unfold Qdiv. change (/ 100) with (1 # 100).
    apply Qabs_Qle_condition. split; lra.
Qed.

Lemma get_price_on_date_closest_witness :
  exists d x,
    (d, x) ∈ [(10%Z, Fin (1001 # 8)); (13%Z, Fin 126)] /\
    get_price_on_date [(10%Z, Fin (1001 # 8)); (13%Z, Fin 126)] 11
    = Some (py_round2 x) /\
    (forall d', d' ∈ s_index [(10%Z, Fin (1001 # 8)); (13%Z, Fin 126)] ->
       (Z.abs (d - 11) <= Z.abs (d' - 11))%Z) /\
    (11%Z ∈ s_index [(10%Z, Fin (1001 # 8)); (13%Z, Fin 126)] -> d = 11%Z).
Proof.
  apply (proj1 (proj2 (get_price_on_date_closest
                         [(10%Z, Fin (1001 # 8)); (13%Z, Fin 126)] 11))).
  discriminate.
Defined.

(** ** Deleting holdings *)

Lemma keep_map {A B} (f : A -> B) (mask : list bool) (l : list A) :
  keep mask (map f l) = map f (keep mask l).
Proof.
  revert l. induction mask as [|m mask IH]; intros [|x l];
    rewrite ?keep_nil_l, ?keep_nil_r; try done.
  cbn [map]. rewrite !keep_cons. destruct m; cbn [map]; by rewrite IH.
Qed.

Lemma elem_of_keep {A} (mask : list bool) (l : list A) x :
  x ∈ keep mask l <-> exists i, mask !! i = Some true /\ l !! i = Some x.
Proof.
  revert l. induction mask as [|m mask IH]; intros [|y l];
    rewrite ?keep_nil_l, ?keep_nil_r.
  - rewrite elem_of_nil. split; [done | by intros (i & ? & ?)].
  - rewrite elem_of_nil. split; [done | by intros (i & ? & ?)].
  - rewrite elem_of_nil. split; [done | by intros (i & ? & ?)].
  - rewrite keep_cons. destruct m.
    + rewrite elem_of_cons, IH. split.
      * intros [->|(i & ? & ?)]; [by exists 0%nat | by exists (S i)].
      * intros ([|i] & Hm & Hl); simpl in *; [left; congruence | right; by exists i].
    + rewrite IH. split.
      * intros (i & ? & ?). by exists (S i).
      * intros ([|i] & Hm & Hl); simpl in *; [done | by exists i].
Qed.

Lemma keep_all_true {A} (mask : list bool) (l : list A) :
  Forall (fun m => m = true) mask -> (length l <= length mask)%nat -> keep mask l = l.
Proof.
  intros Hm. revert l. induction Hm as [|m mask -> _ IH]; intros [|x l] Hl;
    rewrite ?keep_nil_l, ?keep_nil_r; try done; cbn [length] in Hl; try lia.
  rewrite keep_cons. f_equal. apply IH. lia.
Qed.

Lemma index_range n (i : Z) :
  i ∈ map Z.of_nat (seq 0 n) <-> (0 <= i < Z.of_nat n)%Z.
Proof.
  rewrite list_elem_of_fmap. split.
  - intros (k & -> & Hk). apply elem_of_seq in Hk. lia.
  - intros Hi. exists (Z.to_nat i). split; [lia|]. apply elem_of_seq. lia.
Qed.

Lemma holdings_frame_keep (mask : list bool) hs :
  length mask = length hs ->
  reset_index
    {| df_index := keep mask (df_index (holdings_frame hs));
       df_columns := map (fun kc => (kc.1, col_keep mask kc.2))
                         (df_columns (holdings_frame hs)) |}
  = holdings_frame (keep mask hs).
Proof.
  intros Hl. unfold reset_index, holdings_frame.
  cbn [df_index df_columns map fst snd col_keep]. rewrite !keep_map. f_equal.
  do 2 f_equal. rewrite length_map. apply keep_length; rewrite ?length_seq; lia.
Qed.

Lemma delete_holdings_in_range hs (indices : list Z) :
  Forall (fun i => (0 <= i < Z.of_nat (length hs))%Z) indices ->
  delete_holdings (holdings_frame hs) indices
  = Ok (holdings_frame
          (keep (map (fun l => bool_decide (l ∉ indices)) (df_index (holdings_frame hs)))
                hs)).
Proof.
  intros Hin. unfold delete_holdings, df_drop.
  assert (forallb (fun i => bool_decide (i ∈ df_index (holdings_frame hs))) indices = true)
    as ->.
  { apply forallb_forall. intros i Hi. apply bool_decide_eq_true.
    apply index_range. rewrite Forall_forall in Hin. apply Hin.
    by apply list_elem_of_In. }
  f_equal. apply holdings_frame_keep.
  cbn [holdings_frame df_index]. by rewrite !length_map, length_seq.
Qed.

(** X20.  [delete_holdings] on the holdings table: row labels within the
    table give the table without the rows so labelled, the remaining rows in
    their order and renumbered from 0; a label that is not a row of the
    table raises [KeyError]; deleting nothing returns the table. *)
Theorem delete_holdings_rows hs (indices : list Z) :
  let mask := map (fun l => bool_decide (l ∉ indices)) (df_index (holdings_frame hs)) in
  (Forall (fun i => (0 <= i < Z.of_nat (length hs))%Z) indices ->
   delete_holdings (holdings_frame hs) indices = Ok (holdings_frame (keep mask hs)) /\
   forall x, x ∈ keep mask hs <->
             exists i, hs !! i = Some x /\ Z.of_nat i ∉ indices) /\
  (~ Forall (fun i => (0 <= i < Z.of_nat (length hs))%Z) indices ->
   delete_holdings (holdings_frame hs) indices = Raise KeyError) /\
  delete_holdings (holdings_frame hs) [] = Ok (holdings_frame hs).
Proof.
  intros mask. split; [|split].
  - intros Hin. split; [by apply delete_holdings_in_range|].
    intros x. rewrite elem_of_keep. subst mask. cbn [holdings_frame df_index].
    split.
    + intros (i & Hm & Hx). exists i. split; [done|].
      rewrite !map_fmap, !list_lookup_fmap in Hm.
      destruct (seq 0 (length hs) !! i) as [k|] eqn:Ek; [|done].
      apply lookup_seq in Ek as [-> _]. cbn in Hm.
      injection Hm as Hm. by apply bool_decide_eq_true in Hm.
    + intros (i & Hx & Hi). exists i. split; [|done].
      rewrite !map_fmap, !list_lookup_fmap.
      rewrite lookup_seq_lt by by eapply lookup_lt_Some. cbn.
      by rewrite bool_decide_eq_true_2.
  - intros Hout. unfold delete_holdings, df_drop.
    destruct (forallb _ indices) eqn:E; [|done].
    destruct Hout. apply Forall_forall. intros i Hi.
    rewrite forallb_forall in E. apply list_elem_of_In in Hi.
    specialize (E _ Hi). apply bool_decide_eq_true in E. by apply index_range in E.
  - rewrite delete_holdings_in_range by constructor. do 2 f_equal.
    apply keep_all_true.
    + apply Forall_forall. intros m Hm. apply list_elem_of_fmap in Hm as (l & -> & _).
      by apply bool_decide_eq_true_2, not_elem_of_nil.
    + cbn [holdings_frame df_index]. by rewrite !length_map, length_seq.
Qed.

Lemma delete_holdings_rows_witness :
  delete_holdings (holdings_frame three_lots) [1%Z]
  = Ok (holdings_frame [lot_of "AAPL" 10 100; lot_of "AAPL" 10 100]).
Proof.
  apply (proj1 (proj1 (delete_holdings_rows three_lots [1%Z])
                  ltac:(repeat constructor; simpl; lia))).
Defined.

(** ** The deletion of the ticked rows *)

Lemma omap_lookup_keep {A} (l : list A) : forall (pre : list A) (mask : list bool),
  omap (fun i => (pre ++ l) !! i) (keep mask (seq (length pre) (length l)))
  = keep mask l.
Proof.
  induction l as [|x l IH]; intros pre mask.
  - cbn [length seq]. by rewrite !keep_nil_r.
  - destruct mask as [|m mask]; [by rewrite !keep_nil_l|].
    cbn [length seq]. rewrite !keep_cons.
    assert (omap (fun i => (pre ++ x :: l) !! i) (keep mask (seq (S (length pre)) (length l)))
            = keep mask l) as Htail.
    { specialize (IH (pre ++ [x]) mask).
      rewrite <- app_assoc, length_app in IH. cbn [app length] in IH.
      by rewrite Nat.add_1_r in IH. }
    destruct m; [|exact Htail].
    cbn [omap list_omap]. rewrite list_lookup_middle by done. f_equal. exact Htail.
Qed.

Lemma iloc_pos_nat n i : (i < n)%nat -> iloc_pos n (Z.of_nat i) = Some i.
Proof.
  intros Hi. unfold iloc_pos.
  destruct (Z.leb_spec 0 (Z.of_nat i)); [|lia].
  destruct (Z.ltb_spec (Z.of_nat i) (Z.of_nat n)); [|lia].
  by rewrite Nat2Z.id.
Qed.

Lemma mapM_iloc_pos n (ps : list nat) :
  Forall (fun i => (i < n)%nat) ps ->
  mapM (iloc_pos n) (map Z.of_nat ps) = Some ps.
Proof.
  intros Hps. apply mapM_Some. rewrite map_fmap. apply Forall2_fmap_l.
  apply Forall_Forall2_diag. eapply Forall_impl; [exact Hps|].
  intros i Hi. by apply iloc_pos_nat.
Qed.

Lemma keep_index_mask (select : list bool) : forall k n,
  length select = n ->
  map (fun l => bool_decide (l ∉ keep select (map Z.of_nat (seq k n))))
      (map Z.of_nat (seq k n))
  = map negb select.
Proof.
  induction select as [|s select IH]; intros k n Hn.
  - subst n. done.
  - destruct n as [|n]; [done|]. cbn [length seq map] in *.
    rewrite keep_cons.
    assert (Z.of_nat k ∉ keep select (map Z.of_nat (seq (S k) n))) as Hk.
    { intros Hin. apply elem_of_keep in Hin as (i & _ & Hi).
      rewrite map_fmap, list_lookup_fmap in Hi.
      destruct (seq (S k) n !! i) as [j|] eqn:Ej; [|done].
      apply lookup_seq in Ej as [-> _]. cbn in Hi. injection Hi as Hi. lia. }
    f_equal.
    + destruct s; cbn [negb].
      * apply bool_decide_eq_false_2. intros Hn'. apply Hn'. by left.
      * by apply bool_decide_eq_true_2.
    + rewrite <- (IH (S k) n) by lia. apply map_ext_in. intros l Hl.
      apply list_elem_of_In, list_elem_of_fmap in Hl as (j & -> & Hj).
      apply elem_of_seq in Hj.
      destruct s; [|done].
      apply bool_decide_ext. rewrite not_elem_of_cons. split; [tauto|].
      intros Hn'. split; [lia | done].
Qed.

(** X21.  The application deletes the ticked rows through
    [iloc[indices_to_keep]]; [delete_holdings] called with the labels of the
    ticked rows gives the same table: the rows that were not ticked, in
    their order, renumbered from 0. *)
Theorem delete_selected_agrees hs (select : list bool) :
  length select = length hs ->
  delete_selected (holdings_frame hs) select
  = Some (holdings_frame (keep (map negb select) hs)) /\
  delete_holdings (holdings_frame hs) (keep select (df_index (holdings_frame hs)))
  = Ok (holdings_frame (keep (map negb select) hs)).
Proof.
  intros Hl. split.
  - unfold delete_selected, df_iloc.
    set (n := length hs). set (m := map negb select).
    assert (length m = n) as Hm by (subst m; by rewrite length_map).
    cbn [holdings_frame df_index]. fold n.
    rewrite (keep_map Z.of_nat), length_map, length_seq.
    rewrite mapM_iloc_pos.
    2: { apply Forall_forall. intros i Hi. apply elem_of_keep in Hi as (j & _ & Hj).
         apply lookup_seq in Hj. lia. }
    cbn [mbind option_bind fmap option_fmap option_map]. f_equal.
    rewrite <- (holdings_frame_keep m hs) by done. f_equal.
    unfold holdings_frame. cbn [df_index df_columns map fst snd col_take col_keep].
    fold n.
    pose proof (omap_lookup_keep (map Z.of_nat (seq 0 n)) [] m) as Hi.
    pose proof (omap_lookup_keep (map Ticker hs) [] m) as H1.
    pose proof (omap_lookup_keep (map Quantity hs) [] m) as H2.
    pose proof (omap_lookup_keep (map Buy_Price hs) [] m) as H3.
    pose proof (omap_lookup_keep (map Buy_Date hs) [] m) as H4.
    cbn [app length] in Hi, H1, H2, H3, H4.
    rewrite length_map, length_seq in Hi.
    rewrite length_map in H1, H2, H3, H4. fold n in H1, H2, H3, H4.
    by rewrite Hi, H1, H2, H3, H4.
  - rewrite delete_holdings_in_range.
    + cbn [holdings_frame df_index]. by rewrite keep_index_mask.
    + apply Forall_forall. intros i Hi. apply elem_of_keep in Hi as (j & _ & Hj).
      cbn [holdings_frame df_index] in Hj.
      rewrite map_fmap, list_lookup_fmap in Hj.
      destruct (seq 0 (length hs) !! j) as [k|] eqn:Ek; [|done].
      apply lookup_seq in Ek as [-> ?]. cbn in Hj. injection Hj as <-. lia.
Qed.

Lemma delete_selected_agrees_witness :
  delete_selected (holdings_frame three_lots) [false; true; false]
  = Some (holdings_frame [lot_of "AAPL" 10 100; lot_of "AAPL" 10 100]) /\
  delete_holdings (holdings_frame three_lots) [1%Z]
  = Ok (holdings_frame [lot_of "AAPL" 10 100; lot_of "AAPL" 10 100]).
Proof.
  apply (delete_selected_agrees three_lots [false; true; false]). reflexivity.
Defined.
